(** * InvestMediaPro imaging app: the Gemini service layer

    A shallow embedding of [services/geminiService.ts] (prompt assembly,
    parsing of the model's reply, de-duplication of grounding citations,
    data-URI handling and the video polling loop) together with the parts
    of the JavaScript runtime it relies on: strings of UTF-16 code units,
    [String.prototype.trim], [split], [match] and [replace] with the
    regular expressions that occur in the file, and insertion-ordered
    [Map]s. *)

From Stdlib Require Import String Ascii List NArith Bool Arith Lia PrimFloat.
Import ListNotations.

Set Implicit Arguments.

(* ================================================================== *)
(** ** JavaScript strings *)
(* ================================================================== *)

Module Js.

(** A JavaScript string is a sequence of UTF-16 code units. *)
Definition code_unit := N.
Definition jsstring := list code_unit.

(** Source literals are ASCII; [lit] turns one into its code units. *)
Definition lit (s : string) : jsstring :=
  List.map N_of_ascii (list_ascii_of_string s).
Arguments lit s%_string.

Definition LF : code_unit := 10%N.
Definition DQUOTE : code_unit := 34%N.

Definition eqb (s t : jsstring) : bool :=
  if list_eq_dec N.eq_dec s t then true else false.

(** ECMAScript [WhiteSpace]: TAB, VT, FF, SP, NBSP, ZWNBSP and the
    Unicode space separators. *)
Definition isWhiteSpace (c : code_unit) : bool :=
  ((c =? 9) || (c =? 11) || (c =? 12) || (c =? 32) || (c =? 160)
   || (c =? 5760) || ((8192 <=? c) && (c <=? 8202))
   || (c =? 8239) || (c =? 8287) || (c =? 12288) || (c =? 65279))%N.

(** ECMAScript [LineTerminator]: LF, CR, LS, PS. *)
Definition isLineTerminator (c : code_unit) : bool :=
  ((c =? 10) || (c =? 13) || (c =? 8232) || (c =? 8233))%N.

(** The class [\s], which is also what [trim] removes. *)
Definition isSpace (c : code_unit) : bool :=
  isWhiteSpace c || isLineTerminator c.

Fixpoint trimStart (s : jsstring) : jsstring :=
  match s with
  | c :: s' => if isSpace c then trimStart s' else s
  | [] => []
  end.

Definition trimEnd (s : jsstring) : jsstring := rev (trimStart (rev s)).

(** [String.prototype.trim] *)
Definition trim (s : jsstring) : jsstring := trimEnd (trimStart s).

(** [String.prototype.split] for a separator of one code unit. The
    empty string splits into one empty piece. *)
Fixpoint split (sep : code_unit) (s : jsstring) : list jsstring :=
  match s with
  | [] => [[]]
  | c :: s' =>
      if (c =? sep)%N then [] :: split sep s'
      else match split sep s' with
           | piece :: pieces => (c :: piece) :: pieces
           | [] => [[c]]
           end
  end.

(** Truthiness of an optional string: [undefined] and the empty string are falsy. *)
Definition truthy (o : option jsstring) : bool :=
  match o with
  | Some (_ :: _) => true
  | _ => false
  end.

(** [o || dflt] on an optional string. *)
Definition orElse (o : option jsstring) (dflt : jsstring) : jsstring :=
  match o with
  | Some (c :: s) => c :: s
  | _ => dflt
  end.

(** [t] occurs in [s] as a contiguous run of code units. *)
Definition includes (s t : jsstring) : Prop :=
  exists pre post, s = pre ++ t ++ post.

(** Case folding of the [i] flag (without [u]) as far as it concerns a
    pattern character below 128: a code unit of 128 or more is never
    folded onto one below 128, so comparing against an ASCII pattern
    character only has to fold the letters a-z. *)
Definition canonicalize (c : code_unit) : code_unit :=
  if ((97 <=? c) && (c <=? 122))%N then (c - 32)%N else c.

Definition sameChar (icase : bool) (p c : code_unit) : bool :=
  if icase then (canonicalize p =? canonicalize c)%N else (p =? c)%N.

End Js.

(* ================================================================== *)
(** ** Regular expressions *)
(* ================================================================== *)

(** A backtracking matcher for the fragment of ECMAScript regular
    expressions used by the service: literal runs, character classes,
    greedy and lazy stars of a class, sequencing, alternation, one
    capture group, positive lookahead and the two anchors. *)
Module RegExp.
Import Js.

Inductive regex : Type :=
| Str (s : jsstring)                 (* literal characters            *)
| Cls (p : code_unit -> bool)        (* one character of a class      *)
| StarGreedy (p : code_unit -> bool) (* C*                            *)
| StarLazy (p : code_unit -> bool)   (* C*?                           *)
| Cat (r1 r2 : regex)                (* r1 r2                         *)
| Alt (r1 r2 : regex)                (* r1|r2                         *)
| Group (r : regex)                  (* ( r ), capture number 1       *)
| LookAhead (r : regex)              (* (?= r )                       *)
| Bol                                (* ^ without the m flag          *)
| Eol.                               (* $ without the m flag          *)

(** Matcher state: the index reached in the input, the input that is
    left, and the text of capture 1 when it has been set. *)
Record state : Type := mkState {
  pos : nat;
  rest : jsstring;
  cap : option jsstring
}.

Definition cont : Type := state -> option state.

Fixpoint matchStr (icase : bool) (s input : jsstring) : option jsstring :=
  match s, input with
  | [], _ => Some input
  | p :: s', c :: input' =>
      if sameChar icase p c then matchStr icase s' input' else None
  | _ :: _, [] => None
  end.

(** [C*]: take as many characters as possible, give one back at a time. *)
Fixpoint starGreedy (p : code_unit -> bool) (k : cont)
         (i : nat) (cp : option jsstring) (input : jsstring) : option state :=
  match input with
  | c :: input' =>
      if p c then
        match starGreedy p k (S i) cp input' with
        | Some r => Some r
        | None => k (mkState i input cp)
        end
      else k (mkState i input cp)
  | [] => k (mkState i [] cp)
  end.

(** [C*?]: take as few characters as possible, one more at a time. *)
Fixpoint starLazy (p : code_unit -> bool) (k : cont)
         (i : nat) (cp : option jsstring) (input : jsstring) : option state :=
  match k (mkState i input cp) with
  | Some r => Some r
  | None =>
      match input with
      | c :: input' => if p c then starLazy p k (S i) cp input' else None
      | [] => None
      end
  end.

Fixpoint m (icase : bool) (r : regex) (st : state) (k : cont) : option state :=
  match r with
  | Str s =>
      match matchStr icase s (rest st) with
      | Some input' => k (mkState (pos st + length s) input' (cap st))
      | None => None
      end
  | Cls p =>
      match rest st with
      | c :: input' => if p c then k (mkState (S (pos st)) input' (cap st)) else None
      | [] => None
      end
  | StarGreedy p => starGreedy p k (pos st) (cap st) (rest st)
  | StarLazy p => starLazy p k (pos st) (cap st) (rest st)
  | Cat r1 r2 => m icase r1 st (fun st' => m icase r2 st' k)
  | Alt r1 r2 =>
      match m icase r1 st k with
      | Some res => Some res
      | None => m icase r2 st k
      end
  | Group r0 =>
      m icase r0 st
        (fun st' =>
           k (mkState (pos st') (rest st')
                      (Some (firstn (pos st' - pos st) (rest st)))))
  | LookAhead r0 =>
      match m icase r0 st (fun st' => Some st') with
      | Some st' => k (mkState (pos st) (rest st) (cap st'))
      | None => None
      end
  | Bol => if Nat.eqb (pos st) 0 then k st else None
  | Eol => match rest st with [] => k st | _ :: _ => None end
  end.

(** What [exec] reports: where the match starts, the matched text
    (element 0) and capture 1 (element 1). *)
Record MatchResult : Type := mkMatch {
  index : nat;
  matched : jsstring;
  group1 : option jsstring
}.

(** The leftmost start position at which the pattern matches. *)
Fixpoint execFrom (icase : bool) (r : regex) (i : nat) (input : jsstring)
  : option MatchResult :=
  match m icase r (mkState i input None) (fun st' => Some st') with
  | Some st' => Some (mkMatch i (firstn (pos st' - i) input) (cap st'))
  | None =>
      match input with
      | _ :: input' => execFrom icase r (S i) input'
      | [] => None
      end
  end.

(** [RegExp.prototype.exec] and [String.prototype.match] for a pattern
    without the [g] and [y] flags. *)
Definition exec (icase : bool) (r : regex) (input : jsstring)
  : option MatchResult :=
  execFrom icase r 0 input.

(** [String.prototype.replace] with a pattern without [g] and a
    replacement text free of [$]: the first match is cut out and the
    replacement put in its place. *)
Definition replace (icase : bool) (r : regex) (replacement input : jsstring)
  : jsstring :=
  match exec icase r input with
  | Some mr =>
      firstn (index mr) input ++ replacement
        ++ skipn (index mr + length (matched mr)) input
  | None => input
  end.

End RegExp.


(* ================================================================== *)
(** ** Insertion-ordered maps keyed by strings *)
(* ================================================================== *)

(** A JavaScript [Map] remembers the order in which keys were first
    inserted; setting a key that is present overwrites its value and
    leaves its place unchanged. *)
Module JsMap.
Import Js.

Section WithValue.
Variable V : Type.

Definition t : Type := list (jsstring * V).

Fixpoint set (key : jsstring) (v : V) (mp : t) : t :=
  match mp with
  | [] => [(key, v)]
  | (key', v') :: mp' =>
      if eqb key' key then (key', v) :: mp'
      else (key', v') :: set key v mp'
  end.

(** [new Map(entries)] *)
Definition ofEntries (entries : list (jsstring * V)) : t :=
  fold_left (fun mp e => set (fst e) (snd e) mp) entries [].

(** [Array.from(map.values())] *)
Definition values (mp : t) : list V := List.map snd mp.
End WithValue.

End JsMap.

(* ================================================================== *)
(** ** types.ts *)
(* ================================================================== *)

Module Types.
Import Js.

Inductive ComplexityLevel : Type :=
| GeneralAudience | Investor | Analyst | ExecutiveLeadership
| Legal | Sustainability | StartupVC.

(** The string each member of the union is at run time. *)
Definition levelValue (l : ComplexityLevel) : jsstring :=
  match l with
  | GeneralAudience => lit "General Audience"
  | Investor => lit "Investor"
  | Analyst => lit "Analyst"
  | ExecutiveLeadership => lit "Executive Leadership"
  | Legal => lit "Legal"
  | Sustainability => lit "Sustainability"
  | StartupVC => lit "Startup / VC"
  end.

Definition allLevels : list ComplexityLevel :=
  [GeneralAudience; Investor; Analyst; ExecutiveLeadership;
   Legal; Sustainability; StartupVC].

Inductive VisualStyle : Type :=
| Broadcast | Editorial | Cinematic | Explainer
| Corporate | Terminal | Studio | Whiteboard.

Definition styleValue (s : VisualStyle) : jsstring :=
  match s with
  | Broadcast => lit "Broadcast"
  | Editorial => lit "Editorial"
  | Cinematic => lit "Cinematic"
  | Explainer => lit "Explainer"
  | Corporate => lit "Corporate"
  | Terminal => lit "Terminal"
  | Studio => lit "Studio"
  | Whiteboard => lit "Whiteboard"
  end.

Definition allStyles : list VisualStyle :=
  [Broadcast; Editorial; Cinematic; Explainer;
   Corporate; Terminal; Studio; Whiteboard].

Record SearchResultItem : Type := mkSearchResultItem {
  title : jsstring;
  url : jsstring
}.

Record ResearchResult : Type := mkResearchResult {
  imagePrompt : jsstring;
  facts : list jsstring;
  searchResults : list SearchResultItem
}.

End Types.

(* ================================================================== *)
(** ** The remote service and the effects of a call *)
(* ================================================================== *)

(** The shapes of the [@google/genai] requests and replies that the
    service reads or builds. Optional fields are [option]s. *)
Module Sdk.
Import Js.

Module InlineData.
Record t : Type := mk { mimeType : option jsstring; data : option jsstring }.
End InlineData.

Module Part.
Record t : Type := mk { inlineData : option InlineData.t; text : option jsstring }.
End Part.

Module Content.
Record t : Type := mk { parts : option (list Part.t) }.
End Content.

Module Web.
Record t : Type := mk { uri : option jsstring; title : option jsstring }.
End Web.

Module GroundingChunk.
Record t : Type := mk { web : option Web.t }.
End GroundingChunk.

Module GroundingMetadata.
Record t : Type := mk { groundingChunks : option (list GroundingChunk.t) }.
End GroundingMetadata.

Module Candidate.
Record t : Type := mk {
  content : option Content.t;
  groundingMetadata : option GroundingMetadata.t
}.
End Candidate.

Module GenerateContentResponse.
Record t : Type := mk {
  text : option jsstring;
  candidates : option (list Candidate.t)
}.
End GenerateContentResponse.

Inductive Tool : Type := googleSearch.
Inductive Modality : Type := IMAGE.

Inductive Contents : Type :=
| PlainText (s : jsstring)
| Parts (parts : list Part.t).

Module GenerateContentParameters.
Record t : Type := mk {
  model : jsstring;
  contents : Contents;
  tools : list Tool;
  responseModalities : list Modality
}.
End GenerateContentParameters.

Module Video.
Record t : Type := mk { uri : option jsstring }.
End Video.

Module GeneratedVideo.
Record t : Type := mk { video : option Video.t }.
End GeneratedVideo.

Module GenerateVideosResponse.
Record t : Type := mk { generatedVideos : option (list GeneratedVideo.t) }.
End GenerateVideosResponse.

(** The handle of a long-running video job. A missing [done] field
    reads as [false] under [!operation.done]. *)
Module Operation.
Record t : Type := mk {
  name : jsstring;
  done : bool;
  response : option GenerateVideosResponse.t
}.
End Operation.

Module GenerateVideosParameters.
Record t : Type := mk {
  model : jsstring;
  prompt : jsstring;
  imageBytes : jsstring;
  mimeType : jsstring;
  numberOfVideos : N;
  resolution : jsstring;
  aspectRatio : jsstring
}.
End GenerateVideosParameters.

End Sdk.

(** Programs that talk to the outside: every outbound call and every
    timer is appended to a log, a call may be rejected, and the polling
    loop runs on fuel. *)
Module Effects.
Import Js Sdk.

Inductive Error : Type :=
| JsError (message : jsstring)   (* [new Error(message)], local or remote *)
| TypeError.                     (* a property read on [undefined]        *)

(** How a promise settles, or how a pure step ends. *)
Inductive outcome (A : Type) : Type :=
| Resolved (a : A)
| Rejected (e : Error).
Arguments Rejected {A} e.

Definition VideoBlob : Type := list N.

(** What [fetch] resolves to; reading its body may fail in turn. *)
Record FetchResponse : Type := mkFetchResponse { blob : outcome VideoBlob }.

Inductive Event : Type :=
| GenerateContentCall (p : GenerateContentParameters.t)
| GenerateVideosCall (p : GenerateVideosParameters.t)
| GetVideosOperationCall (operation : Operation.t)
| FetchCall (resource : jsstring)
| SetTimeout (ms : N).

Definition isOutboundCall (e : Event) : bool :=
  match e with
  | SetTimeout _ => false
  | _ => true
  end.

(** The world outside the service. A reply may depend on everything
    that happened before the call. *)
Record Env : Type := mkEnv {
  API_KEY : jsstring;
  generateContent :
    list Event -> GenerateContentParameters.t -> outcome GenerateContentResponse.t;
  generateVideos :
    list Event -> GenerateVideosParameters.t -> outcome Operation.t;
  getVideosOperation :
    list Event -> Operation.t -> outcome Operation.t;
  fetch : list Event -> jsstring -> outcome FetchResponse;
  createObjectURL : VideoBlob -> jsstring
}.

Inductive Result (A : Type) : Type :=
| Returned (a : A) (log : list Event)
| Threw (e : Error) (log : list Event)
| Polling (log : list Event).       (* out of fuel inside the loop *)
Arguments Threw {A} e log.
Arguments Polling {A} log.

Definition M (A : Type) : Type := list Event -> Result A.

Definition ret {A} (a : A) : M A := fun log => Returned a log.

Definition throw {A} (e : Error) : M A := fun log => Threw e log.

Definition bind {A B} (c : M A) (f : A -> M B) : M B :=
  fun log =>
    match c log with
    | Returned a log' => f a log'
    | Threw e log' => Threw e log'
    | Polling log' => Polling log'
    end.

(** A pure step that may throw. *)
Definition lift {A} (o : outcome A) : M A :=
  match o with
  | Resolved a => ret a
  | Rejected e => throw e
  end.

(** [await] of an outbound call: the call is logged, then its promise
    settles. *)
Definition await {A} (ev : Event) (reply : list Event -> outcome A) : M A :=
  fun log =>
    match reply log with
    | Resolved a => Returned a (log ++ [ev])
    | Rejected e => Threw e (log ++ [ev])
    end.

(** [await new Promise(resolve => setTimeout(resolve, ms))] *)
Definition sleep (ms : N) : M unit :=
  fun log => Returned tt (log ++ [SetTimeout ms]).

Definition outOfFuel {A} : M A := fun log => Polling log.

Definition logOf {A} (r : Result A) : list Event :=
  match r with
  | Returned _ log => log
  | Threw _ log => log
  | Polling log => log
  end.

Declare Scope js_scope.
Notation "x <- c ;; k" := (bind c (fun x => k))
  (at level 61, c at next level, right associativity) : js_scope.
Notation "c ;;; k" := (bind c (fun _ => k))
  (at level 61, right associativity) : js_scope.

End Effects.

(* ================================================================== *)
(** ** services/geminiService.ts *)
(* ================================================================== *)

Module GeminiService.
Import Js RegExp Types Sdk Effects.
Local Open Scope js_scope.

Definition TEXT_MODEL : jsstring := lit "gemini-3-pro-preview".
Definition IMAGE_MODEL : jsstring := lit "gemini-3-pro-image-preview".
Definition EDIT_MODEL : jsstring := lit "gemini-3-pro-image-preview".
Definition VIDEO_MODEL : jsstring := lit "veo-3.1-fast-generate-preview".

(** The argument is whatever string reaches the [switch] at run time;
    the union type is erased. *)
Definition getLevelInstruction (level : jsstring) : jsstring :=
  if eqb level (lit "General Audience") then
    lit "Target Audience: General Public (News Segment). Style: Clear, engaging, high-level overview. Large text, iconic imagery. Focus on the 'Big Picture'."
  else if eqb level (lit "Investor") then
    lit "Target Audience: Investors. Style: Financial Report. Professional, data-driven, clear trends, ROI focus. Emphasize growth and opportunity."
  else if eqb level (lit "Analyst") then
    lit "Target Audience: Market Analysts. Style: Deep Dive. Dense data, complex charts, correlations, detailed annotations. Focus on accuracy and data density."
  else if eqb level (lit "Executive Leadership") then
    lit "Target Audience: C-Suite / Board of Directors. Style: Strategic, high-level KPIs, polished, actionable insights. Concise, impactful, decision-oriented."
  else if eqb level (lit "Legal") then
    lit "Target Audience: Legal Professionals & Regulators. Style: Formal, structured, hierarchical. Focus on compliance, frameworks, and flow of logic. Trustworthy and precise."
  else if eqb level (lit "Sustainability") then
    lit "Target Audience: ESG Stakeholders. Style: Eco-conscious, organic data visualization. Earth tones, focus on environmental impact, circular economy, and social responsibility."
  else if eqb level (lit "Startup / VC") then
    lit "Target Audience: VCs & Founders. Style: Pitch Deck Aesthetic. Modern, disruptive, high-growth visualization. Bold colors, simplified metrics, 'Unicorn' energy."
  else
    lit "Target Audience: General Public. Style: Broadcast quality.".

Definition getStyleInstruction (style : jsstring) : jsstring :=
  if eqb style (lit "Broadcast") then
    lit "Aesthetic: TV News Graphics. High contrast, vibrant, glossy, 16:9 composition, safe areas, lower thirds style labels, 3D elements on 2D planes."
  else if eqb style (lit "Editorial") then
    lit "Aesthetic: High-end Magazine (Bloomberg/Economist). Clean typography, sophisticated color palette, flat infographic style, ample whitespace."
  else if eqb style (lit "Cinematic") then
    lit "Aesthetic: Documentary Still. Photorealistic, dramatic lighting, depth of field, 8k resolution, cinematic color grading."
  else if eqb style (lit "Explainer") then
    lit "Aesthetic: Motion Graphics style. Flat vector 2.0, clean lines, bright modern colors, simplified geometry, clear visual metaphors."
  else if eqb style (lit "Corporate") then
    lit "Aesthetic: Annual Report. Clean white background, corporate blues/greys, professional, trustworthy, structured grids."
  else if eqb style (lit "Terminal") then
    lit "Aesthetic: Bloomberg Terminal. Dark background, neon data points, dense information, grid systems, monospace fonts."
  else if eqb style (lit "Studio") then
    lit "Aesthetic: 3D Studio Render. Isometric view, claymorphism or glassmorphism, soft studio lighting, high fidelity materials."
  else if eqb style (lit "Whiteboard") then
    lit "Aesthetic: Strategy Session. Hand-drawn markers on whiteboard, diagrams, flowcharts, messy but genius, napkin math style."
  else
    lit "Aesthetic: Broadcast quality infographic.".

(** The template literal [systemPrompt] of [researchTopicForPrompt]. *)
Definition systemPrompt (topic levelInstr styleInstr language : jsstring)
  : jsstring :=
  lit "
    You are a Senior Visual Producer for InvestMediaPro.
    Your goal is to research the topic: "
  ++ [DQUOTE]
  ++ topic
  ++ [DQUOTE]
  ++ lit " and create a plan for a broadcast-grade infographic.
    
    **IMPORTANT: Use the Google Search tool to find the most accurate, up-to-date information about this topic.**
    
    Context:
    "
  ++ levelInstr
  ++ lit "
    "
  ++ styleInstr
  ++ lit "
    Language: "
  ++ language
  ++ lit "
    
    Please provide your response in the following format EXACTLY:
    
    FACTS:
    - [Fact 1]
    - [Fact 2]
    - [Fact 3]
    
    IMAGE_PROMPT:
    [A highly detailed image generation prompt describing the visual composition, colors, and layout for the infographic. Ensure it sounds like a design brief for a high-end motion graphics team. Do not include citations in the prompt.]
  ".

(** [\S] and [[\s\S]] *)
Definition notSpace (c : code_unit) : bool := negb (isSpace c).
Definition spaceOrNotSpace (c : code_unit) : bool := isSpace c || notSpace c.

(** [/FACTS:\s*([\s\S]*?)(?=IMAGE_PROMPT:|$)/i] *)
Definition factsRegex : regex :=
  Cat (Str (lit "FACTS:"))
    (Cat (StarGreedy isSpace)
       (Cat (Group (StarLazy spaceOrNotSpace))
          (LookAhead (Alt (Str (lit "IMAGE_PROMPT:")) Eol)))).

(** [/IMAGE_PROMPT:\s*([\s\S]*?)$/i] *)
Definition promptRegex : regex :=
  Cat (Str (lit "IMAGE_PROMPT:"))
    (Cat (StarGreedy isSpace)
       (Cat (Group (StarLazy spaceOrNotSpace)) Eol)).

(** [/^-\s*/] *)
Definition bulletRegex : regex :=
  Cat Bol (Cat (Str (lit "-")) (StarGreedy isSpace)).

(** [/^data:image\/(png|jpeg|jpg);base64,/] *)
Definition dataUriPrefixRegex : regex :=
  Cat Bol
    (Cat (Str (lit "data:image/"))
       (Cat (Group (Alt (Str (lit "png")) (Alt (Str (lit "jpeg")) (Str (lit "jpg")))))
          (Str (lit ";base64,")))).

(** [match[1].trim()]: reading [trim] off a capture that did not take
    part in the match is a [TypeError]. *)
Definition group1Trimmed (mr : MatchResult) : outcome jsstring :=
  match group1 mr with
  | Some g => Resolved (trim g)
  | None => Rejected TypeError
  end.

Definition factsMatch (text : jsstring) : option MatchResult :=
  exec true factsRegex text.

Definition factsRaw (text : jsstring) : outcome jsstring :=
  match factsMatch text with
  | Some mr => group1Trimmed mr
  | None => Resolved []
  end.

(** [factsRaw.split('\n').map(...).filter(...).slice(0, 5)] *)
Definition factLines (raw : jsstring) : list jsstring :=
  List.filter (fun f => Nat.ltb 0 (length f))
    (List.map (fun f => trim (replace false bulletRegex [] f))
       (split LF raw)).

Definition factsOf (text : jsstring) : outcome (list jsstring) :=
  match factsRaw text with
  | Resolved raw => Resolved (firstn 5 (factLines raw))
  | Rejected e => Rejected e
  end.

Definition promptMatch (text : jsstring) : option MatchResult :=
  exec true promptRegex text.

(** The prompt used when the reply has no IMAGE_PROMPT section. *)
Definition defaultImagePrompt (topic levelInstr styleInstr : jsstring)
  : jsstring :=
  lit "Create a detailed infographic about " ++ topic ++ lit ". "
    ++ levelInstr ++ lit " " ++ styleInstr.

Definition imagePromptOf (topic levelInstr styleInstr text : jsstring)
  : outcome jsstring :=
  match promptMatch text with
  | Some mr => group1Trimmed mr
  | None => Resolved (defaultImagePrompt topic levelInstr styleInstr)
  end.

(** [response.candidates?.[0]?.groundingMetadata?.groundingChunks] *)
Definition groundingChunksOf (response : GenerateContentResponse.t)
  : option (list GroundingChunk.t) :=
  match GenerateContentResponse.candidates response with
  | Some (candidate :: _) =>
      match Candidate.groundingMetadata candidate with
      | Some md => GroundingMetadata.groundingChunks md
      | None => None
      end
  | _ => None
  end.

(** The [forEach] that pushes every chunk with a truthy uri and title. *)
Definition searchResultsOf (chunks : option (list GroundingChunk.t))
  : list SearchResultItem :=
  match chunks with
  | Some cs =>
      List.flat_map
        (fun chunk =>
           match GroundingChunk.web chunk with
           | Some w =>
               match Web.uri w, Web.title w with
               | Some u, Some t =>
                   if truthy (Some u) && truthy (Some t)
                   then [mkSearchResultItem t u] else []
               | _, _ => []
               end
           | None => []
           end) cs
  | None => []
  end.

(** [Array.from(new Map(searchResults.map(item => [item.url, item])).values())] *)
Definition uniqueResults (results : list SearchResultItem)
  : list SearchResultItem :=
  JsMap.values
    (JsMap.ofEntries (List.map (fun item => (url item, item)) results)).

(** The argument of [generateContent] in [researchTopicForPrompt]. *)
Definition researchRequest (topic levelInstr styleInstr language : jsstring)
  : GenerateContentParameters.t :=
  GenerateContentParameters.mk TEXT_MODEL
    (PlainText (systemPrompt topic levelInstr styleInstr language))
    [googleSearch] [].

(** [response.text || ''] *)
Definition textOf (response : GenerateContentResponse.t) : jsstring :=
  orElse (GenerateContentResponse.text response) [].

Definition researchTopicForPrompt (env : Env)
           (topic level style language : jsstring) : M ResearchResult :=
  let levelInstr := getLevelInstruction level in
  let styleInstr := getStyleInstruction style in
  let request := researchRequest topic levelInstr styleInstr language in
  response <- await (GenerateContentCall request)
                    (fun log => generateContent env log request) ;;
  let text := textOf response in
  facts <- lift (factsOf text) ;;
  imagePrompt <- lift (imagePromptOf topic levelInstr styleInstr text) ;;
  let searchResults := searchResultsOf (groundingChunksOf response) in
  ret (mkResearchResult imagePrompt facts (uniqueResults searchResults)).

(** [`data:image/png;base64,${data}`], the wrapper around every image
    that comes back from the model. *)
Definition pngDataUri (data : jsstring) : jsstring :=
  lit "data:image/png;base64," ++ data.

(** [response.candidates?.[0]?.content?.parts?.[0]] *)
Definition firstPartOf (response : GenerateContentResponse.t) : option Part.t :=
  match GenerateContentResponse.candidates response with
  | Some (candidate :: _) =>
      match Candidate.content candidate with
      | Some c =>
          match Content.parts c with
          | Some (part :: _) => Some part
          | _ => None
          end
      | None => None
      end
  | _ => None
  end.

(** [part && part.inlineData && part.inlineData.data], and the data
    when the test passes. *)
Definition inlineDataOf (part : option Part.t) : option jsstring :=
  match part with
  | Some p =>
      match Part.inlineData p with
      | Some d => if truthy (InlineData.data d) then InlineData.data d else None
      | None => None
      end
  | None => None
  end.

Definition generateInfographicImage (env : Env) (prompt : jsstring)
  : M jsstring :=
  let request :=
    GenerateContentParameters.mk IMAGE_MODEL
      (Parts [Part.mk None (Some prompt)]) [] [IMAGE] in
  response <- await (GenerateContentCall request)
                    (fun log => generateContent env log request) ;;
  match inlineDataOf (firstPartOf response) with
  | Some data => ret (pngDataUri data)
  | None => throw (JsError (lit "Failed to generate image"))
  end.

Record Verdict : Type := mkVerdict {
  isAccurate : bool;
  critique : jsstring
}.

Definition verifyInfographicAccuracy (env : Env)
           (imageBase64 topic level style language : jsstring) : M Verdict :=
  ret (mkVerdict true (lit "Verification bypassed.")).

(** [s.replace(/^data:image\/(png|jpeg|jpg);base64,/, '')], the first
    statement of the edit functions and of [generateVideoFromImage]. *)
Definition cleanBase64 (imageBase64 : jsstring) : jsstring :=
  replace false dataUriPrefixRegex [] imageBase64.

Definition editInfographicImage (env : Env)
           (currentImageBase64 editInstruction : jsstring) : M jsstring :=
  let request :=
    GenerateContentParameters.mk EDIT_MODEL
      (Parts [Part.mk (Some (InlineData.mk (Some (lit "image/jpeg"))
                                           (Some (cleanBase64 currentImageBase64))))
                      None;
              Part.mk None (Some editInstruction)])
      [] [IMAGE] in
  response <- await (GenerateContentCall request)
                    (fun log => generateContent env log request) ;;
  match inlineDataOf (firstPartOf response) with
  | Some data => ret (pngDataUri data)
  | None => throw (JsError (lit "Failed to edit image"))
  end.

Definition cinematicPrompt : jsstring :=
  lit "Cinematic slow pan and zoom across the image details, Ken Burns effect, highly detailed 4k output, smooth broadcast motion, emphasize data points.".

Definition dynamicPrompt : jsstring :=
  lit "Dynamic broadcast camera movement, slight parallax, data visualization motion, professional news segment intro style, 4k.".

(** The interval of the polling loop, in milliseconds: five seconds. *)
Definition POLL_INTERVAL : N := 5000.

(** [while (!operation.done) { sleep; operation = await getVideosOperation }].
    One unit of fuel pays for one turn of the loop. *)
Fixpoint pollUntilDone (fuel : nat) (env : Env) (operation : Operation.t)
  : M Operation.t :=
  if Operation.done operation then ret operation
  else
    match fuel with
    | O => outOfFuel
    | S fuel' =>
        sleep POLL_INTERVAL ;;;
        operation' <- await (GetVideosOperationCall operation)
                            (fun log => getVideosOperation env log operation) ;;
        pollUntilDone fuel' env operation'
    end.

(** [operation.response?.generatedVideos?.[0]?.video?.uri] *)
Definition downloadLinkOf (operation : Operation.t) : option jsstring :=
  match Operation.response operation with
  | Some r =>
      match GenerateVideosResponse.generatedVideos r with
      | Some (gv :: _) =>
          match GeneratedVideo.video gv with
          | Some v => Video.uri v
          | None => None
          end
      | _ => None
      end
  | None => None
  end.

(** The default of the [style] parameter: [None] stands for an
    argument that the caller left out. *)
Definition styleOrDefault (style : option jsstring) : jsstring :=
  match style with
  | Some s => s
  | None => lit "Cinematic"
  end.

Definition motionPrompt (style : jsstring) : jsstring :=
  if eqb style (lit "Cinematic") then cinematicPrompt else dynamicPrompt.

(** The argument of [generateVideos]. *)
Definition videoRequest (imageBase64 style : jsstring)
  : GenerateVideosParameters.t :=
  GenerateVideosParameters.mk VIDEO_MODEL (motionPrompt style)
    (cleanBase64 imageBase64) (lit "image/png") 1 (lit "720p") (lit "16:9").

(** [`${downloadLink}&key=${process.env.API_KEY}`] *)
Definition assetUrl (env : Env) (downloadLink : jsstring) : jsstring :=
  downloadLink ++ lit "&key=" ++ API_KEY env.

Definition generateVideoFromImage (fuel : nat) (env : Env)
           (imageBase64 : jsstring) (style : option jsstring) : M jsstring :=
  let request := videoRequest imageBase64 (styleOrDefault style) in
  operation <- await (GenerateVideosCall request)
                     (fun log => generateVideos env log request) ;;
  operation <- pollUntilDone fuel env operation ;;
  let downloadLink := downloadLinkOf operation in
  if truthy downloadLink then
    let resource := assetUrl env (orElse downloadLink []) in
    response <- await (FetchCall resource) (fun log => fetch env log resource) ;;
    blob <- lift (blob response) ;;
    ret (createObjectURL env blob)
  else throw (JsError (lit "Video generation failed")).

(** The template literal [prompt] of [fixInfographicImage]. *)
Definition fixPrompt (correctionPrompt : jsstring) : jsstring :=
  lit "
    Edit this image. 
    Goal: Professional Touch-up.
    Instruction: "
  ++ correctionPrompt
  ++ lit ".
    Ensure the design is clean, broadcast-ready, and any text is large and legible.
  ".

Definition fixInfographicImage (env : Env)
           (currentImageBase64 correctionPrompt : jsstring) : M jsstring :=
  let request :=
    GenerateContentParameters.mk EDIT_MODEL
      (Parts [Part.mk (Some (InlineData.mk (Some (lit "image/jpeg"))
                                           (Some (cleanBase64 currentImageBase64))))
                      None;
              Part.mk None (Some (fixPrompt correctionPrompt))])
      [] [IMAGE] in
  response <- await (GenerateContentCall request)
                    (fun log => generateContent env log request) ;;
  match inlineDataOf (firstPartOf response) with
  | Some data => ret (pngDataUri data)
  | None => throw (JsError (lit "Failed to fix image"))
  end.

End GeminiService.

(* ================================================================== *)
(** ** components/Infographic.tsx *)
(* ================================================================== *)

(** The handlers of the [Infographic] component. A handler that only
    updates state is a function on the state; a handler that calls out
    is the trace of what it does, in order: state setters, outbound
    calls, console messages, alerts and timers. *)
Module Infographic.
Import Js RegExp Types Sdk Effects GeminiService.

(** [Math.min] and [Math.max] of two numbers: NaN when either is NaN,
    and [-0] below [+0]. *)
Definition Math_min (x y : float) : float :=
  if (PrimFloat.is_nan x || PrimFloat.is_nan y)%bool then PrimFloat.nan
  else if PrimFloat.ltb x y then x
  else if PrimFloat.ltb y x then y
  else if PrimFloat.get_sign x then x else y.

Definition Math_max (x y : float) : float :=
  if (PrimFloat.is_nan x || PrimFloat.is_nan y)%bool then PrimFloat.nan
  else if PrimFloat.ltb x y then y
  else if PrimFloat.ltb y x then x
  else if PrimFloat.get_sign x then y else x.

(** [GeneratedImage] of types.ts. *)
Record GeneratedImage : Type := mkGeneratedImage {
  id : jsstring;
  data : jsstring;
  prompt : jsstring;
  timestamp : N;
  level : option jsstring;
  style : option jsstring;
  language : option jsstring
}.

Inductive CopyStatus : Type := idle | copying | copied.

(** The state hooks of the component. *)
Record State : Type := mkState {
  editPrompt : jsstring;
  isFullscreen : bool;
  zoomLevel : float;
  showShareModal : bool;
  copyStatus : CopyStatus;
  isAnimating : bool;
  showVideoModal : bool;
  videoUrl : option jsstring;
  videoStyle : jsstring
}.

(** [useState] initial values. *)
Definition initialState : State :=
  mkState [] false 1%float false idle false false None (lit "Cinematic").

(** The updaters handed to [setZoomLevel]. *)
Definition zoomInUpdater (prev : float) : float :=
  Math_min (PrimFloat.add prev 0.5%float) 4%float.

Definition zoomOutUpdater (prev : float) : float :=
  Math_max (PrimFloat.sub prev 0.5%float) 0.5%float.

Definition withZoomLevel (z : float) (s : State) : State :=
  mkState (editPrompt s) (isFullscreen s) z (showShareModal s) (copyStatus s)
    (isAnimating s) (showVideoModal s) (videoUrl s) (videoStyle s).

Definition handleZoomIn (s : State) : State :=
  withZoomLevel (zoomInUpdater (zoomLevel s)) s.

Definition handleZoomOut (s : State) : State :=
  withZoomLevel (zoomOutUpdater (zoomLevel s)) s.

Definition handleResetZoom (s : State) : State := withZoomLevel 1%float s.

Definition handleCloseFullscreen (s : State) : State :=
  mkState (editPrompt s) false 1%float (showShareModal s) (copyStatus s)
    (isAnimating s) (showVideoModal s) (videoUrl s) (videoStyle s).

Definition handleOpenVideoModal (s : State) : State :=
  mkState (editPrompt s) (isFullscreen s) (zoomLevel s) (showShareModal s)
    (copyStatus s) (isAnimating s) true None (videoStyle s).

(** What [handleSubmit] does besides updating the state. *)
Inductive SubmitEffect : Type :=
| PreventDefault
| OnEdit (prompt : jsstring).

Definition handleSubmit (s : State) : State * list SubmitEffect :=
  match trim (editPrompt s) with
  | [] => (s, [PreventDefault])
  | _ :: _ =>
      (mkState [] (isFullscreen s) (zoomLevel s) (showShareModal s)
         (copyStatus s) (isAnimating s) (showVideoModal s) (videoUrl s)
         (videoStyle s),
       [PreventDefault; OnEdit (editPrompt s)])
  end.

(** A [Blob]: its bytes and its type. *)
Record Blob : Type := mkBlob {
  bytes : list N;
  type : jsstring
}.

(** The browser functions the component calls. *)
Record Browser : Type := mkBrowser {
  atob : jsstring -> outcome jsstring;
  clipboardWrite : Blob -> outcome unit
}.

Definition COMMA : code_unit := 44%N.
Definition COLON : code_unit := 58%N.
Definition SEMICOLON : code_unit := 59%N.

(** The type a [Blob] is given: the empty string when the requested
    type has a character outside U+0020..U+007E, its ASCII lower case
    otherwise. *)
Definition blobType (t : jsstring) : jsstring :=
  if forallb (fun c => ((32 <=? c) && (c <=? 126))%N) t
  then List.map (fun c => if ((65 <=? c) && (c <=? 90))%N then (c + 32)%N else c) t
  else [].

(** [dataURItoBlob]. [atob(undefined)] decodes the text "undefined";
    [undefined.split] is a [TypeError]; a [Uint8Array] keeps each
    character code modulo 256. *)
Definition dataURItoBlob (browser : Browser) (dataURI : jsstring) : outcome Blob :=
  let encoded :=
    match nth_error (split COMMA dataURI) 1 with
    | Some piece => piece
    | None => lit "undefined"
    end in
  match atob browser encoded with
  | Rejected e => Rejected e
  | Resolved byteString =>
      match nth_error (split COLON (hd [] (split COMMA dataURI))) 1 with
      | None => Rejected TypeError
      | Some afterColon =>
          let mimeString := hd [] (split SEMICOLON afterColon) in
          Resolved (mkBlob (List.map (fun c => (c mod 256)%N) byteString)
                           (blobType mimeString))
      end
  end.

Inductive Setter : Type :=
| SetCopyStatus (c : CopyStatus)
| SetIsAnimating (b : bool)
| SetVideoUrl (u : option jsstring).

Definition applySetter (x : Setter) (s : State) : State :=
  match x with
  | SetCopyStatus c =>
      mkState (editPrompt s) (isFullscreen s) (zoomLevel s) (showShareModal s)
        c (isAnimating s) (showVideoModal s) (videoUrl s) (videoStyle s)
  | SetIsAnimating b =>
      mkState (editPrompt s) (isFullscreen s) (zoomLevel s) (showShareModal s)
        (copyStatus s) b (showVideoModal s) (videoUrl s) (videoStyle s)
  | SetVideoUrl u =>
      mkState (editPrompt s) (isFullscreen s) (zoomLevel s) (showShareModal s)
        (copyStatus s) (isAnimating s) (showVideoModal s) u (videoStyle s)
  end.

(** One thing an asynchronous handler does. *)
Inductive Step : Type :=
| Set_ (x : Setter)                           (* a state setter is called     *)
| Outbound (e : Event)                        (* the service logs an event    *)
| ClipboardWrite (b : Blob)                   (* navigator.clipboard.write    *)
| ConsoleError (message : jsstring) (e : Error)
| Alert (message : jsstring)
| After (ms : N) (x : Setter).                (* setTimeout(() => setter, ms) *)

(** The state after the setters of a trace, in order. *)
Definition stateAfter (steps : list Step) (s : State) : State :=
  fold_left
    (fun st step => match step with Set_ x => applySetter x st | _ => st end)
    steps s.

(** A handler's run: what it did, and whether it has finished (it has
    not when the polling loop is out of fuel). *)
Record Run : Type := mkRun {
  steps : list Step;
  finished : bool
}.


(** The [catch] branch of [handleCopyImage]. *)
Definition copyFailed (e : Error) : list Step :=
  [ConsoleError (lit "Copy failed") e;
   Set_ (SetCopyStatus idle);
   Alert (lit "Failed to copy image to clipboard. Try using right-click > Copy Image.")].

Definition handleCopyImage (browser : Browser) (image : GeneratedImage) : Run :=
  mkRun
    (Set_ (SetCopyStatus copying)
     :: match dataURItoBlob browser (data image) with
        | Rejected e => copyFailed e
        | Resolved blob =>
            ClipboardWrite blob
            :: match clipboardWrite browser blob with
               | Resolved _ =>
                   [Set_ (SetCopyStatus copied); After 2000 (SetCopyStatus idle)]
               | Rejected e => copyFailed e
               end
        end)
    true.

End Infographic.

(* ================================================================== *)
(** ** Vocabulary of the statements *)
(* ================================================================== *)

Unset Implicit Arguments.

Module Vocabulary.
Import Js Types Sdk Effects GeminiService.

(** Two texts are the same up to the case of their ASCII letters. *)
Definition sameFolded (a b : jsstring) : Prop :=
  List.map canonicalize a = List.map canonicalize b.

(** [label] occurs in [text], in any spelling of upper and lower case. *)
Definition occursFolded (label text : jsstring) : Prop :=
  exists pre mid post, text = pre ++ mid ++ post /\ sameFolded mid label.

(** [text] is [pre ++ mid ++ post] where [mid] is the first occurrence
    of [label]. *)
Definition firstOccurrence (label text pre mid post : jsstring) : Prop :=
  text = pre ++ mid ++ post /\ sameFolded mid label /\
  forall pre' mid' post',
    text = pre' ++ mid' ++ post' -> sameFolded mid' label ->
    length pre <= length pre'.

(** Whether [label] occurs in [text], decided from left to right. *)
Fixpoint occursFoldedb (label text : jsstring) : bool :=
  match RegExp.matchStr true label text with
  | Some _ => true
  | None =>
      match text with
      | [] => false
      | _ :: text' => occursFoldedb label text'
      end
  end.

(** Some character of [s] is not white space. *)
Definition hasInk (s : jsstring) : bool := existsb (fun c => negb (isSpace c)) s.

(** Every spelling of [s] in upper and lower case. *)
Fixpoint spellings (s : jsstring) : list jsstring :=
  match s with
  | [] => [[]]
  | p :: s' =>
      List.flat_map
        (fun t => if ((65 <=? p) && (p <=? 90))%N
                  then [p :: t; (p + 32)%N :: t] else [p :: t])
        (spellings s')
  end.

(** A list of keys without its repetitions: the first occurrence of
    each key stays where it is. *)
Fixpoint dedupFirst (keys : list jsstring) : list jsstring :=
  match keys with
  | [] => []
  | key :: keys' =>
      key :: List.filter (fun x => negb (eqb x key)) (dedupFirst keys')
  end.

(** [item] is the last entry of [items] with its url. *)
Definition lastWithUrl (items : list SearchResultItem) (item : SearchResultItem)
  : Prop :=
  exists pre post,
    items = pre ++ item :: post /\ forall x, In x post -> url x <> url item.

(** A citation has a uri and a title, both present and not empty. *)
Definition hasUriAndTitle (c : GroundingChunk.t) : bool :=
  match GroundingChunk.web c with
  | Some w => truthy (Web.uri w) && truthy (Web.title w)
  | None => false
  end.

(** The citation that an entry of the result stands for. *)
Definition citationOf (item : SearchResultItem) : GroundingChunk.t :=
  GroundingChunk.mk (Some (Web.mk (Some (url item)) (Some (title item)))).

(** The fact lines of a reply in the format that is asked for: every
    fact on a line of its own, after a dash and a blank. *)
Definition bulletLines (fs : list jsstring) : jsstring :=
  List.flat_map (fun f => lit "- " ++ f ++ [LF]) fs.

(** Lines put together with a line feed between them. *)
Fixpoint joinLines (lines : list jsstring) : jsstring :=
  match lines with
  | [] => []
  | l :: ls =>
      match ls with
      | [] => l
      | _ :: _ => l ++ LF :: joinLines ls
      end
  end.

(** A line without its leading bullet marker. *)
Definition stripBullet (line : jsstring) : jsstring :=
  match line with
  | 45%N :: line' => line'
  | _ => line
  end.

(** The facts among the lines of a block: the bullet marker is
    stripped, the line trimmed, and blank lines are dropped. *)
Definition factsAmong (lines : list jsstring) : list jsstring :=
  List.filter (fun f => negb (eqb f []))
    (List.map (fun l => trim (stripBullet l)) lines).

(** The data URI [data:image/<mime>;base64,<payload>]. *)
Definition dataUri (mime payload : jsstring) : jsstring :=
  lit "data:image/" ++ mime ++ lit ";base64," ++ payload.

(** The descriptions of the [default] branches. *)
Definition genericLevelInstruction : jsstring :=
  lit "Target Audience: General Public. Style: Broadcast quality.".

Definition genericStyleInstruction : jsstring :=
  lit "Aesthetic: Broadcast quality infographic.".

(** Membership among the keys of a map. *)
Definition mem (k : jsstring) (ks : list jsstring) : bool :=
  existsb (fun k' => eqb k' k) ks.

Definition isStatusQuery (e : Event) : bool :=
  match e with
  | GetVideosOperationCall _ => true
  | _ => false
  end.

(** What the polling loop logs for the handles it polled: a pause of
    the fixed interval, then the status query, for each in turn. *)
Definition pollEvents (polled : list Operation.t) : list Event :=
  List.flat_map
    (fun o => [SetTimeout POLL_INTERVAL; GetVideosOperationCall o]) polled.

(** The loop without fuel, as a relation: from [operation] and [log] it
    polls the handles [polled], none of them done, and ends with the
    done handle [final]. *)
Inductive polls (env : Env)
  : Operation.t -> list Event -> list Operation.t -> Operation.t -> Prop :=
| polls_done (operation : Operation.t) (log : list Event) :
    Operation.done operation = true ->
    polls env operation log [] operation
| polls_again (operation next final : Operation.t) (log : list Event)
              (polled : list Operation.t) :
    Operation.done operation = false ->
    getVideosOperation env (log ++ [SetTimeout POLL_INTERVAL]) operation
      = Resolved next ->
    polls env next
      (log ++ [SetTimeout POLL_INTERVAL; GetVideosOperationCall operation])
      polled final ->
    polls env operation log (operation :: polled) final.

(** The loop as far as it has come: from [operation] and [log] it has
    polled the handles [polled], none of them done, each status query
    was answered, and the handle it holds now is [current], done or
    not. *)
Inductive reaches (env : Env)
  : Operation.t -> list Event -> list Operation.t -> Operation.t -> Prop :=
| reaches_here (operation : Operation.t) (log : list Event) :
    reaches env operation log [] operation
| reaches_next (operation next current : Operation.t) (log : list Event)
               (polled : list Operation.t) :
    Operation.done operation = false ->
    getVideosOperation env (log ++ [SetTimeout POLL_INTERVAL]) operation
      = Resolved next ->
    reaches env next
      (log ++ [SetTimeout POLL_INTERVAL; GetVideosOperationCall operation])
      polled current ->
    reaches env operation log (operation :: polled) current.

(** The requests of the three image functions. *)
Definition generateRequest (prompt : jsstring) : GenerateContentParameters.t :=
  GenerateContentParameters.mk IMAGE_MODEL
    (Parts [Part.mk None (Some prompt)]) [] [IMAGE].

Definition imageAndText (imageBase64 text : jsstring) : GenerateContentParameters.t :=
  GenerateContentParameters.mk EDIT_MODEL
    (Parts [Part.mk (Some (InlineData.mk (Some (lit "image/jpeg"))
                                         (Some (cleanBase64 imageBase64))))
                    None;
            Part.mk None (Some text)])
    [] [IMAGE].

(** The reply to an image request that carries [data] as inline data of
    its first part. *)
Definition carries (response : GenerateContentResponse.t) (data : jsstring) : Prop :=
  inlineDataOf (firstPartOf response) = Some data.

(** The zoom levels the viewer can show. *)
Definition zoomStops : list float :=
  [0.5; 1; 1.5; 2; 2.5; 3; 3.5; 4]%float.

(** The states of the component that can be reached: from the initial
    state by the four handlers that set the zoom level and by any other
    update, which leaves the zoom level as it is. *)
Inductive reachable : Infographic.State -> Prop :=
| reach_initial : reachable Infographic.initialState
| reach_zoomIn (s : Infographic.State) :
    reachable s -> reachable (Infographic.handleZoomIn s)
| reach_zoomOut (s : Infographic.State) :
    reachable s -> reachable (Infographic.handleZoomOut s)
| reach_resetZoom (s : Infographic.State) :
    reachable s -> reachable (Infographic.handleResetZoom s)
| reach_closeFullscreen (s : Infographic.State) :
    reachable s -> reachable (Infographic.handleCloseFullscreen s)
| reach_other (s s' : Infographic.State) :
    reachable s ->
    Infographic.zoomLevel s' = Infographic.zoomLevel s ->
    reachable s'.

End Vocabulary.

(* ================================================================== *)
(** ** Concrete services and replies *)
(* ================================================================== *)

Module Scenarios.
Import Js Types Sdk Effects GeminiService.

Definition offline : Error := JsError (lit "offline").

(** A text reply without citations. *)
Definition textReply (text : jsstring) : GenerateContentResponse.t :=
  GenerateContentResponse.mk (Some text) None.

(** A citation with both fields present. *)
Definition chunk (uri title : jsstring) : GroundingChunk.t :=
  GroundingChunk.mk (Some (Web.mk (Some uri) (Some title))).

(** A reply without text that cites [chunks]. *)
Definition citedReply (chunks : list GroundingChunk.t)
  : GenerateContentResponse.t :=
  GenerateContentResponse.mk None
    (Some [Candidate.mk None (Some (GroundingMetadata.mk (Some chunks)))]).

(** A service that answers every text request with [response] and
    refuses everything else. *)
Definition replying (response : GenerateContentResponse.t) : Env :=
  mkEnv (lit "KEY")
    (fun _ _ => Resolved response)
    (fun _ _ => Rejected offline)
    (fun _ _ => Rejected offline)
    (fun _ _ => Rejected offline)
    (fun _ => lit "blob:none").

(** The reply of the specification's parsing example, with the labels
    spelled [l1] and [l2]. *)
Definition exampleText (l1 l2 : jsstring) : jsstring :=
  l1 ++ [LF] ++ lit "- A" ++ [LF] ++ lit "- B" ++ [LF] ++ l2 ++ [LF] ++ lit "X".

(** A reply with seven fact lines. *)
Definition sevenFacts : jsstring :=
  lit "FACTS:" ++ [LF] ++ lit "- f1" ++ [LF] ++ lit "- f2" ++ [LF]
    ++ lit "- f3" ++ [LF] ++ [LF] ++ lit "- f4" ++ [LF] ++ lit "- f5" ++ [LF]
    ++ lit "- f6" ++ [LF] ++ lit "- f7" ++ [LF] ++ lit "IMAGE_PROMPT:"
    ++ [LF] ++ lit "X".

(** Six facts, and the reply that lists them in the format that is
    asked for, with an empty line in front of the IMAGE_PROMPT label. *)
Definition sixFacts : list jsstring :=
  [lit "The sun delivers more energy in an hour than the world uses in a year";
   lit "Panel prices fell by 90% in a decade";
   lit "Ratio of cost to output: the lowest of all sources";
   lit "- 30 years of service life";
   lit "Silicon is the second most abundant element";
   lit "Storage is the open question"].

Definition sixFactsReply : jsstring :=
  lit "facts:" ++ [LF] ++ Vocabulary.bulletLines sixFacts ++ [LF]
    ++ lit "Image_Prompt:" ++ [LF] ++ lit "A solar farm at dawn".

(** A reply whose IMAGE_PROMPT label is followed by white space only. *)
Definition blankPrompt : jsstring :=
  lit "FACTS:" ++ [LF] ++ lit "- A" ++ [LF] ++ lit "IMAGE_PROMPT:   " ++ [LF].

(** A video job that is still running. *)
Definition pendingJob : Operation.t :=
  Operation.mk (lit "operations/veo-1") false None.

(** A finished video job, with or without the locator of its asset. *)
Definition finishedJob (link : option jsstring) : Operation.t :=
  Operation.mk (lit "operations/veo-1") true
    (Some (GenerateVideosResponse.mk
             (Some [GeneratedVideo.mk (Some (Video.mk link))]))).

Definition videoLink : jsstring := lit "https://videos.example/v1?alt=media".

(** A service whose job is not done at submission and at the first
    status query, and done at the second. *)
Definition slowService : Env :=
  mkEnv (lit "KEY")
    (fun _ _ => Rejected offline)
    (fun _ _ => Resolved pendingJob)
    (fun log _ =>
       match List.filter
               (fun e => match e with
                         | GetVideosOperationCall _ => true
                         | _ => false
                         end) log with
       | [] => Resolved pendingJob
       | _ :: _ => Resolved (finishedJob (Some videoLink))
       end)
    (fun _ _ => Resolved (mkFetchResponse (Resolved [1; 2; 3]%N)))
    (fun _ => lit "blob:video-1").

(** A service that accepts the job and then fails every status query. *)
Definition flakyService : Env :=
  mkEnv (lit "KEY")
    (fun _ _ => Rejected offline)
    (fun _ _ => Resolved pendingJob)
    (fun _ _ => Rejected offline)
    (fun _ _ => Rejected offline)
    (fun _ => lit "blob:none").

(** A service whose job is done at once and carries no locator. *)
Definition emptyService : Env :=
  mkEnv (lit "KEY")
    (fun _ _ => Rejected offline)
    (fun _ _ => Resolved (finishedJob None))
    (fun _ _ => Rejected offline)
    (fun _ _ => Rejected offline)
    (fun _ => lit "blob:none").

Definition pngImage : jsstring := lit "data:image/png;base64,iVBORw0KGgo=".

(** The citations of the specification's example. *)
Definition exampleChunks : list GroundingChunk.t :=
  [chunk (lit "a") (lit "T1"); chunk (lit "a") (lit "T2");
   chunk (lit "b") (lit "T3")].

(** A reply to an image request with [data] inline in its first part. *)
Definition imageReply (data : jsstring) : GenerateContentResponse.t :=
  GenerateContentResponse.mk None
    (Some [Candidate.mk
             (Some (Content.mk
                      (Some [Part.mk (Some (InlineData.mk (Some (lit "image/png"))
                                                          (Some data)))
                                     None])))
             None]).

(** A service whose video job never gets done: every status query
    answers with a handle that is still running. *)
Definition stuckService : Env :=
  mkEnv (lit "KEY")
    (fun _ _ => Rejected offline)
    (fun _ _ => Resolved pendingJob)
    (fun _ _ => Resolved pendingJob)
    (fun _ _ => Rejected offline)
    (fun _ => lit "blob:none").


(** A browser whose [atob] answers with three fixed bytes and whose
    clipboard accepts every item. *)
Definition easyBrowser : Infographic.Browser :=
  Infographic.mkBrowser
    (fun _ => Resolved [137; 80; 78]%N)
    (fun _ => Resolved tt).

End Scenarios.

(* ================================================================== *)
(** ** Strings and the matcher *)
(* ================================================================== *)

Import Js RegExp JsMap Types Sdk Effects GeminiService Vocabulary Scenarios.

Lemma trimStart_length (s : jsstring) : length (trimStart s) <= length s.
Proof.
  induction s as [|c s IH]; simpl; [lia|].
  destruct (isSpace c); simpl; lia.
Qed.

Lemma trimStart_idem (s : jsstring) : trimStart (trimStart s) = trimStart s.
Proof.
  induction s as [|c s IH]; simpl; [reflexivity|].
  destruct (isSpace c) eqn:E; [exact IH | simpl; now rewrite E].
Qed.

Lemma trim_trimStart (s : jsstring) : trim (trimStart s) = trim s.
Proof. unfold trim. now rewrite trimStart_idem. Qed.

Lemma spaceOrNotSpace_true (c : code_unit) : spaceOrNotSpace c = true.
Proof. unfold spaceOrNotSpace, notSpace. apply orb_negb_r. Qed.

(** The literal run [s] matches at the head of [input] exactly when
    [input] starts with some spelling of [s]. *)
Lemma matchStr_folded (s input tl : jsstring) :
  matchStr true s input = Some tl <->
  exists mid, input = mid ++ tl /\ sameFolded mid s.
Proof.
  revert input. induction s as [|p s IH]; intros input; simpl.
  - split.
    + intros H. injection H as ->. exists []. split; reflexivity.
    + intros (mid & -> & Hm). unfold sameFolded in Hm.
      destruct mid; [reflexivity | discriminate].
  - destruct input as [|c input].
    + split; [discriminate|].
      intros (mid & Hin & Hm). unfold sameFolded in Hm.
      destruct mid; simpl in *; discriminate.
    + unfold sameChar. destruct (N.eqb_spec (canonicalize p) (canonicalize c)) as [E|E].
      * rewrite IH. split.
        -- intros (mid & -> & Hm). exists (c :: mid). split; [reflexivity|].
           unfold sameFolded in *. simpl. now rewrite Hm, E.
        -- intros (mid & Hin & Hm). unfold sameFolded in Hm.
           destruct mid as [|c' mid]; simpl in Hm; [discriminate|].
           simpl in Hin. injection Hin as -> ->. injection Hm as _ Hm.
           exists mid. split; [reflexivity | exact Hm].
      * split; [discriminate|].
        intros (mid & Hin & Hm). unfold sameFolded in Hm.
        destruct mid as [|c' mid]; simpl in Hm; [discriminate|].
        simpl in Hin. injection Hin as -> ->. injection Hm as Hc _.
        now symmetry in Hc.
Qed.

(** Greedy white space: when the rest of the pattern accepts what is
    left after the whole run of white space, that is the match. *)
Lemma starGreedy_spaces (k : cont) (i : nat) (cp : option jsstring)
      (input : jsstring) (res : state) :
  k (mkState (i + (length input - length (trimStart input))) (trimStart input) cp)
    = Some res ->
  starGreedy isSpace k i cp input = Some res.
Proof.
  revert i. induction input as [|c s IH]; intros i; simpl.
  - now rewrite Nat.add_0_r.
  - destruct (isSpace c) eqn:E.
    + intros H. rewrite (IH (S i)); [reflexivity|].
      pose proof (trimStart_length s).
      replace (S i + (length s - length (trimStart s)))
        with (i + (S (length s) - length (trimStart s))) by lia.
      exact H.
    + simpl. rewrite Nat.sub_diag, Nat.add_0_r. trivial.
Qed.

(** Lazy [[\s\S]*?] in front of a continuation that only accepts the end
    of the input runs to the end. *)
Lemma starLazy_to_end (k : cont) (i : nat) (cp : option jsstring)
      (input : jsstring) :
  (forall j c s, k (mkState j (c :: s) cp) = None) ->
  starLazy spaceOrNotSpace k i cp input = k (mkState (i + length input) [] cp).
Proof.
  intros Hk. revert i. induction input as [|c s IH]; intros i; simpl.
  - rewrite Nat.add_0_r. now destruct (k (mkState i [] cp)).
  - rewrite Hk, spaceOrNotSpace_true, IH. f_equal. f_equal. lia.
Qed.

(** Whatever a pattern returns, it got from its continuation, and a
    capture that was set stays set. *)
Lemma starGreedy_cont p k i cp input res :
  starGreedy p k i cp input = Some res ->
  exists j s, k (mkState j s cp) = Some res.
Proof.
  revert i. induction input as [|c s IH]; intros i; simpl.
  - eauto.
  - destruct (p c); [|eauto].
    destruct (starGreedy p k (S i) cp s) eqn:E.
    + intros H. injection H as <-. eauto.
    + eauto.
Qed.

Lemma starLazy_cont p k i cp input res :
  starLazy p k i cp input = Some res ->
  exists j s, k (mkState j s cp) = Some res.
Proof.
  revert i. induction input as [|c s IH]; intros i; simpl.
  - destruct (k (mkState i [] cp)) eqn:E; [|discriminate].
    intros H. injection H as <-. eauto.
  - destruct (k (mkState i (c :: s) cp)) eqn:E.
    + intros H. injection H as <-. eauto.
    + destruct (p c); [eauto | discriminate].
Qed.

Lemma m_cont (icase : bool) (r : regex) :
  forall (st : state) (k : cont) (res : state),
    m icase r st k = Some res ->
    exists st', k st' = Some res /\ (cap st <> None -> cap st' <> None).
Proof.
  induction r as [s|p|p|p|r1 IH1 r2 IH2|r1 IH1 r2 IH2|r0 IH|r0 IH| |];
    intros st k res; simpl.
  - destruct (matchStr icase s (rest st)); [|discriminate]. eauto.
  - destruct (rest st) as [|c s]; [discriminate|].
    destruct (p c); [eauto | discriminate].
  - intros H. apply starGreedy_cont in H as (j & s & H). eauto.
  - intros H. apply starLazy_cont in H as (j & s & H). eauto.
  - intros H. apply IH1 in H as (st1 & H & C1).
    apply IH2 in H as (st2 & H & C2). eauto.
  - destruct (m icase r1 st k) eqn:E.
    + intros H. injection H as <-. eauto.
    + eauto.
  - intros H. apply IH in H as (st1 & H & _).
    eexists. split; [exact H|]. simpl. discriminate.
  - destruct (m icase r0 st (fun st' => Some st')) eqn:E; [|discriminate].
    apply IH in E as (st1 & E & C1). injection E as ->.
    intros H. eexists. split; [exact H|]. exact C1.
  - destruct (Nat.eqb (pos st) 0); [eauto | discriminate].
  - destruct (rest st); [eauto | discriminate].
Qed.

(** A capture group always leaves its capture set. *)
Lemma m_Group_sets (icase : bool) (r : regex) (st : state) (k : cont) (res : state) :
  m icase (Group r) st k = Some res ->
  exists st', k st' = Some res /\ cap st' <> None.
Proof.
  simpl. intros H. apply m_cont in H as (st1 & H & _).
  eexists. split; [exact H|]. simpl. discriminate.
Qed.

(** ** Finding a section label *)

Lemma occursFolded_tail (label : jsstring) (c : code_unit) (input : jsstring) :
  occursFolded label input -> occursFolded label (c :: input).
Proof.
  intros (pre & mid & post & -> & Hm). exists (c :: pre), mid, post.
  split; [reflexivity | exact Hm].
Qed.

Lemma matchStr_none_here (label input : jsstring) :
  matchStr true label input = None ->
  forall mid post, input = mid ++ post -> ~ sameFolded mid label.
Proof.
  intros Hn mid post -> Hm.
  assert (H : matchStr true label (mid ++ post) = Some post)
    by (apply matchStr_folded; eauto).
  congruence.
Qed.

(** A pattern that starts with a label finds nothing in a text in which
    the label does not occur. *)
Lemma execFrom_label_absent (label : jsstring) (r : regex) (input : jsstring) :
  ~ occursFolded label input ->
  forall i, execFrom true (Cat (Str label) r) i input = None.
Proof.
  induction input as [|c s IH]; intros Hno i.
  - simpl. destruct (matchStr true label []) eqn:E; [|reflexivity].
    exfalso. apply Hno. apply matchStr_folded in E as (mid & E & Hm).
    exists [], mid, j. split; [exact E | exact Hm].
  - cbn [execFrom m rest]. destruct (matchStr true label (c :: s)) eqn:E.
    + exfalso. apply Hno. apply matchStr_folded in E as (mid & E & Hm).
      exists [], mid, j. split; [exact E | exact Hm].
    + apply IH. intros H. apply Hno. now apply occursFolded_tail.
Qed.

Lemma m_Cat_Str (label : jsstring) (r : regex) (st : state) (k : cont) :
  m true (Cat (Str label) r) st k =
  match matchStr true label (rest st) with
  | Some input' => m true r (mkState (pos st + length label) input' (cap st)) k
  | None => None
  end.
Proof. reflexivity. Qed.

(** What follows the label in the pattern for the image prompt always
    matches: the white space is skipped and the capture is the rest. *)
Lemma promptTail_matches (j : nat) (post : jsstring) (cp : option jsstring) :
  exists st',
    m true (Cat (StarGreedy isSpace) (Cat (Group (StarLazy spaceOrNotSpace)) Eol))
      (mkState j post cp) (fun st' => Some st') = Some st'
    /\ cap st' = Some (trimStart post).
Proof.
  eexists. split.
  - cbn [m pos rest cap]. apply starGreedy_spaces.
    rewrite starLazy_to_end by reflexivity.
    cbn [pos rest cap]. reflexivity.
  - cbn [cap]. f_equal.
    match goal with |- firstn ?n _ = _ =>
      replace n with (length (trimStart post)) by lia end.
    apply firstn_all.
Qed.

(** The match for the image prompt: none when the label is absent,
    otherwise the first occurrence, with everything after it and its
    leading white space as capture. *)
Lemma execFrom_prompt (input : jsstring) :
  forall i,
    (execFrom true promptRegex i input = None
     /\ ~ occursFolded (lit "IMAGE_PROMPT:") input)
    \/ (exists pre mid post mr,
          firstOccurrence (lit "IMAGE_PROMPT:") input pre mid post
          /\ execFrom true promptRegex i input = Some mr
          /\ index mr = i + length pre
          /\ group1 mr = Some (trimStart post)).
Proof.
  unfold promptRegex.
  induction input as [|c s IH]; intros i.
  - left. split; [reflexivity|].
    intros (pre & mid & post & E & Hm).
    destruct pre; [|discriminate]. destruct mid; [|discriminate].
    unfold sameFolded in Hm. discriminate.
  - cbn [execFrom]. 
    destruct (matchStr true (lit "IMAGE_PROMPT:") (c :: s)) as [post|] eqn:E.
    + right.
      destruct (promptTail_matches (i + length (lit "IMAGE_PROMPT:")) post None)
        as (st' & Hst & Hcap).
      apply matchStr_folded in E as E'. destruct E' as (mid & Hin & Hm).
      exists [], mid, post. eexists. repeat split.
      * exact Hin.
      * exact Hm.
      * intros; simpl; lia.
      * rewrite m_Cat_Str. cbn [pos rest cap]. rewrite E, Hst. reflexivity.
      * simpl. lia.
      * simpl. exact Hcap.
    + rewrite m_Cat_Str. cbn [pos rest cap]. rewrite E.
      destruct (IH (S i)) as [[Hn Hno] | (pre & mid & post & mr & Hf & He & Hi & Hg)].
      * left. split; [exact Hn|].
        intros (pre & mid & post & Hin & Hm).
        destruct pre as [|c' pre].
        -- exact (matchStr_none_here _ _ E mid post Hin Hm).
        -- simpl in Hin. injection Hin as _ Hin. apply Hno.
           exists pre, mid, post. split; [exact Hin | exact Hm].
      * right. exists (c :: pre), mid, post, mr.
        destruct Hf as (Hin & Hm & Hfirst). repeat split.
        -- simpl. now rewrite Hin.
        -- exact Hm.
        -- intros pre' mid' post' Hin' Hm'.
           destruct pre' as [|c' pre'].
           ++ exfalso. exact (matchStr_none_here _ _ E mid' post' Hin' Hm').
           ++ simpl in Hin'. injection Hin' as _ Hin'.
              specialize (Hfirst pre' mid' post' Hin' Hm'). simpl. lia.
        -- exact He.
        -- simpl. lia.
        -- exact Hg.
Qed.

Lemma promptMatch_cases (text : jsstring) :
  (promptMatch text = None /\ ~ occursFolded (lit "IMAGE_PROMPT:") text)
  \/ (exists pre mid post mr,
        firstOccurrence (lit "IMAGE_PROMPT:") text pre mid post
        /\ promptMatch text = Some mr
        /\ group1 mr = Some (trimStart post)).
Proof.
  destruct (execFrom_prompt text 0) as [H | (pre & mid & post & mr & H1 & H2 & _ & H3)].
  - left. exact H.
  - right. exists pre, mid, post, mr. auto.
Qed.

(** Both section patterns contain their capture group on every path, so
    a match always carries capture 1. *)
Lemma section_pattern_sets_group1 (label : jsstring) (tl : regex)
      (st res : state) :
  m true
    (Cat (Str label)
       (Cat (StarGreedy isSpace) (Cat (Group (StarLazy spaceOrNotSpace)) tl)))
    st (fun st' => Some st') = Some res ->
  cap res <> None.
Proof.
  intros E.
  change (m true (Str label) st
            (fun st1 => m true (StarGreedy isSpace) st1
               (fun st2 => m true (Group (StarLazy spaceOrNotSpace)) st2
                  (fun st3 => m true tl st3 (fun st' => Some st'))))
          = Some res) in E.
  apply m_cont in E as (st1 & E & _).
  apply m_cont in E as (st2 & E & _).
  apply m_Group_sets in E as (st3 & E & C).
  apply m_cont in E as (st4 & E & C').
  injection E as <-. auto.
Qed.

Lemma execFrom_group1 (label : jsstring) (tl : regex) (input : jsstring) :
  forall i mr,
    execFrom true
      (Cat (Str label)
         (Cat (StarGreedy isSpace) (Cat (Group (StarLazy spaceOrNotSpace)) tl)))
      i input = Some mr ->
    group1 mr <> None.
Proof.
  induction input as [|c s IH]; intros i mr; cbn [execFrom];
    match goal with |- context [m ?a ?b ?c ?d] => destruct (m a b c d) eqn:E end.
  - intros H. injection H as <-. simpl.
    exact (section_pattern_sets_group1 _ _ _ _ E).
  - discriminate.
  - intros H. injection H as <-. simpl.
    exact (section_pattern_sets_group1 _ _ _ _ E).
  - apply IH.
Qed.

(** ** Trimming *)

Lemma hasInk_trimStart (s : jsstring) : hasInk (trimStart s) = hasInk s.
Proof.
  induction s as [|c s IH]; simpl; [reflexivity|].
  destruct (isSpace c) eqn:E; simpl; rewrite ?E; simpl; [exact IH | reflexivity].
Qed.

Lemma trimStart_nil_iff (s : jsstring) : trimStart s = [] <-> hasInk s = false.
Proof.
  induction s as [|c s IH]; simpl; [tauto|].
  destruct (isSpace c) eqn:E; simpl; [exact IH|].
  split; discriminate.
Qed.

Lemma hasInk_rev (s : jsstring) : hasInk (rev s) = hasInk s.
Proof.
  unfold hasInk. induction s as [|c s IH]; simpl; [reflexivity|].
  rewrite existsb_app, IH. simpl. rewrite orb_false_r. apply orb_comm.
Qed.

Lemma trim_nil_iff (s : jsstring) : trim s = [] <-> hasInk s = false.
Proof.
  unfold trim, trimEnd.
  rewrite <- (hasInk_trimStart s).
  rewrite <- (hasInk_rev (trimStart s)).
  rewrite <- trimStart_nil_iff.
  split; intros H.
  - apply (f_equal (@rev code_unit)) in H. now rewrite rev_involutive in H.
  - now rewrite H.
Qed.

Lemma trim_inked (s : jsstring) : trim s <> [] <-> hasInk s = true.
Proof.
  rewrite trim_nil_iff. destruct (hasInk s); split; congruence.
Qed.

(** ** The reply is always parsed *)

Lemma factsOf_total (text : jsstring) :
  exists raw,
    factsRaw text = Resolved raw
    /\ factsOf text = Resolved (firstn 5 (factLines raw)).
Proof.
  unfold factsOf, factsRaw, factsMatch, exec.
  destruct (execFrom true factsRegex 0 text) as [mr|] eqn:E.
  - apply execFrom_group1 in E. unfold group1Trimmed.
    destruct (group1 mr) as [g|]; [|congruence].
    exists (trim g). split; reflexivity.
  - exists []. split; reflexivity.
Qed.

Lemma imagePromptOf_cases (topic levelInstr styleInstr text : jsstring) :
  (~ occursFolded (lit "IMAGE_PROMPT:") text
   /\ imagePromptOf topic levelInstr styleInstr text
      = Resolved (defaultImagePrompt topic levelInstr styleInstr))
  \/ (exists pre mid post,
        firstOccurrence (lit "IMAGE_PROMPT:") text pre mid post
        /\ imagePromptOf topic levelInstr styleInstr text = Resolved (trim post)).
Proof.
  unfold imagePromptOf.
  destruct (promptMatch_cases text)
    as [[Hn Hno] | (pre & mid & post & mr & Hf & Hs & Hg)].
  - left. rewrite Hn. split; [exact Hno | reflexivity].
  - right. exists pre, mid, post. split; [exact Hf|].
    rewrite Hs. unfold group1Trimmed. rewrite Hg. now rewrite trim_trimStart.
Qed.

(** When the text request is answered, [researchTopicForPrompt] returns:
    neither parsing step throws. *)
Lemma research_returned (env : Env) (topic level style language : jsstring)
      (log : list Event) (response : GenerateContentResponse.t) :
  let levelInstr := getLevelInstruction level in
  let styleInstr := getStyleInstruction style in
  let request := researchRequest topic levelInstr styleInstr language in
  generateContent env log request = Resolved response ->
  exists raw prompt,
    factsRaw (textOf response) = Resolved raw
    /\ imagePromptOf topic levelInstr styleInstr (textOf response) = Resolved prompt
    /\ researchTopicForPrompt env topic level style language log
       = Returned
           (mkResearchResult prompt (firstn 5 (factLines raw))
              (uniqueResults (searchResultsOf (groundingChunksOf response))))
           (log ++ [GenerateContentCall request]).
Proof.
  intros levelInstr styleInstr request Hreply.
  destruct (factsOf_total (textOf response)) as (raw & Hraw & Hfacts).
  assert (Hp : exists prompt,
             imagePromptOf topic levelInstr styleInstr (textOf response)
             = Resolved prompt).
  { destruct (imagePromptOf_cases topic levelInstr styleInstr (textOf response))
      as [[_ H] | (pre & mid & post & _ & H)]; eauto. }
  destruct Hp as (prompt & Hp).
  exists raw, prompt. repeat split; [exact Hraw | exact Hp |].
  unfold researchTopicForPrompt, bind, await.
  fold levelInstr styleInstr request. rewrite Hreply.
  rewrite Hfacts. cbn [lift ret]. rewrite Hp. reflexivity.
Qed.

(** ** Spellings of a label *)

Lemma canonicalize_cases (c p : code_unit) :
  canonicalize p = p -> canonicalize c = p ->
  c = p \/ (c = (p + 32)%N /\ ((65 <=? p) && (p <=? 90))%N = true).
Proof.
  unfold canonicalize. intros Hp.
  destruct ((97 <=? c) && (c <=? 122))%N eqn:E.
  - apply andb_prop in E as [E1 E2].
    apply N.leb_le in E1. apply N.leb_le in E2.
    intros <-. right. split; [lia|].
    apply andb_true_intro. split; apply N.leb_le; lia.
  - now left.
Qed.

Lemma sameFolded_spellings (s : jsstring) :
  Forall (fun p => canonicalize p = p) s ->
  forall l, sameFolded l s -> In l (spellings s).
Proof.
  unfold sameFolded. induction 1 as [|p s Hp Hs IH]; intros l Hl.
  - destruct l; [now left | discriminate].
  - destruct l as [|c l]; [discriminate|]. simpl in Hl.
    injection Hl as Hc Hl. rewrite Hp in Hc.
    cbn [spellings]. apply in_flat_map. exists l. split; [now apply IH|].
    destruct (canonicalize_cases c p Hp Hc) as [-> | [-> Hup]].
    + destruct ((65 <=? p) && (p <=? 90))%N; now left.
    + rewrite Hup. right. now left.
Qed.

Lemma example_all_spellings :
  forallb
    (fun l1 =>
       forallb
         (fun l2 =>
            match factsOf (exampleText l1 l2), promptMatch (exampleText l1 l2) with
            | Resolved fs, Some mr =>
                match group1 mr with
                | Some g =>
                    (if list_eq_dec (list_eq_dec N.eq_dec) fs [lit "A"; lit "B"]
                     then true else false)
                    && eqb (trim g) (lit "X")
                | None => false
                end
            | _, _ => false
            end)
         (spellings (lit "IMAGE_PROMPT:")))
    (spellings (lit "FACTS:")) = true.
Proof. vm_compute. reflexivity. Qed.

(** ** Claims about the parsed reply *)

Lemma factsRaw_label_absent (text : jsstring) :
  ~ occursFolded (lit "FACTS:") text -> factsRaw text = Resolved [].
Proof.
  intros Hno. unfold factsRaw, factsMatch, exec, factsRegex.
  now rewrite execFrom_label_absent.
Qed.

Lemma not_occursFolded_nil (label : jsstring) :
  label <> [] -> ~ occursFolded label [].
Proof.
  intros Hl (pre & mid & post & E & Hm).
  destruct pre; [|discriminate]. destruct mid; [|discriminate].
  unfold sameFolded in Hm. destruct label; [congruence | discriminate].
Qed.

Lemma includes_default_topic (topic levelInstr styleInstr : jsstring) :
  includes (defaultImagePrompt topic levelInstr styleInstr) topic.
Proof.
  exists (lit "Create a detailed infographic about "),
         (lit ". " ++ levelInstr ++ lit " " ++ styleInstr).
  reflexivity.
Qed.

Lemma defaultImagePrompt_inked (topic levelInstr styleInstr : jsstring) :
  defaultImagePrompt topic levelInstr styleInstr <> [].
Proof. unfold defaultImagePrompt. cbn. discriminate. Qed.

(** C8. Structured extraction never raises an error because the reply
    deviates from the requested format: whenever the text request is
    answered, [researchTopicForPrompt] returns; a reply without a FACTS
    label gives an empty list of facts, and a reply without an
    IMAGE_PROMPT label gives the synthesized default prompt, which
    contains the topic. *)
Theorem research_degrades_to_defaults
        (env : Env) (topic level style language : jsstring)
        (log : list Event) (response : GenerateContentResponse.t) :
  let levelInstr := getLevelInstruction level in
  let styleInstr := getStyleInstruction style in
  let request := researchRequest topic levelInstr styleInstr language in
  generateContent env log request = Resolved response ->
  exists result,
    researchTopicForPrompt env topic level style language log
      = Returned result (log ++ [GenerateContentCall request])
    /\ (~ occursFolded (lit "FACTS:") (textOf response) -> facts result = [])
    /\ (~ occursFolded (lit "IMAGE_PROMPT:") (textOf response) ->
        imagePrompt result = defaultImagePrompt topic levelInstr styleInstr
        /\ includes (imagePrompt result) topic).
Proof.
  intros levelInstr styleInstr request Hreply.
  destruct (research_returned env topic level style language log response Hreply)
    as (raw & prompt & Hraw & Hprompt & Hrun).
  eexists. split; [exact Hrun|]. cbn [facts imagePrompt]. split.
  - intros Hno. rewrite (factsRaw_label_absent _ Hno) in Hraw.
    injection Hraw as <-. reflexivity.
  - intros Hno.
    destruct (imagePromptOf_cases topic levelInstr styleInstr (textOf response))
      as [[_ H] | (pre & mid & post & (Hin & Hm & _) & _)].
    + fold levelInstr styleInstr in Hprompt. rewrite H in Hprompt.
      injection Hprompt as <-. split; [reflexivity|].
      apply includes_default_topic.
    + exfalso. apply Hno. exists pre, mid, post. split; assumption.
Qed.

Lemma research_degrades_to_defaults_witness :
  exists result,
    researchTopicForPrompt (replying (textReply [])) (lit "Solar power")
      (lit "Investor") (lit "Broadcast") (lit "English") []
      = Returned result
          [GenerateContentCall
             (researchRequest (lit "Solar power")
                (getLevelInstruction (lit "Investor"))
                (getStyleInstruction (lit "Broadcast")) (lit "English"))]
    /\ facts result = []
    /\ imagePrompt result
       = defaultImagePrompt (lit "Solar power")
           (getLevelInstruction (lit "Investor"))
           (getStyleInstruction (lit "Broadcast")).
Proof.
  destruct (research_degrades_to_defaults (replying (textReply []))
              (lit "Solar power") (lit "Investor") (lit "Broadcast")
              (lit "English") [] (textReply []) eq_refl)
    as (result & Hrun & Hfacts & Hprompt).
  exists result. split; [exact Hrun|]. split.
  - apply Hfacts. apply not_occursFolded_nil. discriminate.
  - apply Hprompt. apply not_occursFolded_nil. discriminate.
Defined.

(** C2, as the code has it. Whenever the text request is answered, the
    [imagePrompt] of the result is either the synthesized default built
    from the topic and the level and style descriptions, when the reply
    has no IMAGE_PROMPT label, and then it is not empty; or the trimmed
    text after the first IMAGE_PROMPT label, which is empty exactly when
    nothing but white space follows that label. *)
Theorem imagePrompt_section_or_default
        (env : Env) (topic level style language : jsstring)
        (log : list Event) (response : GenerateContentResponse.t) :
  let levelInstr := getLevelInstruction level in
  let styleInstr := getStyleInstruction style in
  let request := researchRequest topic levelInstr styleInstr language in
  generateContent env log request = Resolved response ->
  exists result,
    researchTopicForPrompt env topic level style language log
      = Returned result (log ++ [GenerateContentCall request])
    /\ ((~ occursFolded (lit "IMAGE_PROMPT:") (textOf response)
         /\ imagePrompt result = defaultImagePrompt topic levelInstr styleInstr
         /\ imagePrompt result <> [])
        \/ (exists pre mid post,
              firstOccurrence (lit "IMAGE_PROMPT:") (textOf response) pre mid post
              /\ imagePrompt result = trim post
              /\ (imagePrompt result <> [] <-> hasInk post = true))).
Proof.
  intros levelInstr styleInstr request Hreply.
  destruct (research_returned env topic level style language log response Hreply)
    as (raw & prompt & Hraw & Hprompt & Hrun).
  eexists. split; [exact Hrun|]. cbn [imagePrompt].
  fold levelInstr styleInstr in Hprompt.
  destruct (imagePromptOf_cases topic levelInstr styleInstr (textOf response))
    as [[Hno H] | (pre & mid & post & Hf & H)];
    rewrite H in Hprompt; injection Hprompt as <-.
  - left. repeat split; [exact Hno | apply defaultImagePrompt_inked].
  - right. exists pre, mid, post. split; [exact Hf|].
    split; [reflexivity | apply trim_inked].
Qed.

Lemma imagePrompt_section_or_default_witness :
  exists result,
    researchTopicForPrompt (replying (textReply blankPrompt)) (lit "Solar power")
      (lit "Investor") (lit "Broadcast") (lit "English") []
      = Returned result
          [GenerateContentCall
             (researchRequest (lit "Solar power")
                (getLevelInstruction (lit "Investor"))
                (getStyleInstruction (lit "Broadcast")) (lit "English"))]
    /\ ((~ occursFolded (lit "IMAGE_PROMPT:") (textOf (textReply blankPrompt))
         /\ imagePrompt result
            = defaultImagePrompt (lit "Solar power")
                (getLevelInstruction (lit "Investor"))
                (getStyleInstruction (lit "Broadcast"))
         /\ imagePrompt result <> [])
        \/ (exists pre mid post,
              firstOccurrence (lit "IMAGE_PROMPT:") (textOf (textReply blankPrompt))
                pre mid post
              /\ imagePrompt result = trim post
              /\ (imagePrompt result <> [] <-> hasInk post = true))).
Proof.
  exact (imagePrompt_section_or_default (replying (textReply blankPrompt))
           (lit "Solar power") (lit "Investor") (lit "Broadcast")
           (lit "English") [] (textReply blankPrompt) eq_refl).
Defined.

(** C2, as the claim states it, fails: a reply whose IMAGE_PROMPT label
    is followed by white space only yields the empty [imagePrompt]. *)
Lemma blank_prompt_section_gives_empty_imagePrompt :
  exists result log,
    researchTopicForPrompt (replying (textReply blankPrompt)) (lit "Solar power")
      (lit "Investor") (lit "Broadcast") (lit "English") []
      = Returned result log
    /\ imagePrompt result = []
    /\ ~ (imagePrompt result <> []).
Proof.
  eexists. eexists. split; [vm_compute; reflexivity|].
  split; [reflexivity|]. intros H. now apply H.
Qed.

Lemma In_firstn {A : Type} (n : nat) (l : list A) (x : A) :
  In x (firstn n l) -> In x l.
Proof.
  intros H. rewrite <- (firstn_skipn n l). apply in_or_app. now left.
Qed.

(** Seven fact lines and a blank line: the first five are kept. *)
Example seven_facts_keep_first_five :
  factsOf sevenFacts
  = Resolved [lit "f1"; lit "f2"; lit "f3"; lit "f4"; lit "f5"].
Proof. vm_compute. reflexivity. Qed.

(** C5. A reply made of the FACTS label, the lines [- A] and [- B], the
    IMAGE_PROMPT label and the line [X] is parsed into the facts [A] and
    [B] and the image prompt [X], however the two labels are spelled in
    upper and lower case. *)
Theorem parsing_example
        (env : Env) (topic level style language : jsstring)
        (log : list Event) (response : GenerateContentResponse.t)
        (l1 l2 : jsstring) :
  let levelInstr := getLevelInstruction level in
  let styleInstr := getStyleInstruction style in
  let request := researchRequest topic levelInstr styleInstr language in
  sameFolded l1 (lit "FACTS:") ->
  sameFolded l2 (lit "IMAGE_PROMPT:") ->
  GenerateContentResponse.text response = Some (exampleText l1 l2) ->
  generateContent env log request = Resolved response ->
  exists result,
    researchTopicForPrompt env topic level style language log
      = Returned result (log ++ [GenerateContentCall request])
    /\ facts result = [lit "A"; lit "B"]
    /\ imagePrompt result = lit "X".
Proof.
  intros levelInstr styleInstr request H1 H2 Htext Hreply.
  assert (Ht : textOf response = exampleText l1 l2).
  { unfold textOf. rewrite Htext. unfold exampleText. now destruct l1. }
  destruct (research_returned env topic level style language log response Hreply)
    as (raw & prompt & Hraw & Hprompt & Hrun).
  eexists. split; [exact Hrun|]. cbn [facts imagePrompt].
  fold levelInstr styleInstr in Hprompt. rewrite Ht in Hraw, Hprompt.
  apply sameFolded_spellings in H1; [|repeat constructor].
  apply sameFolded_spellings in H2; [|repeat constructor].
  pose proof example_all_spellings as Hall.
  rewrite forallb_forall in Hall. specialize (Hall l1 H1).
  rewrite forallb_forall in Hall. specialize (Hall l2 H2).
  unfold factsOf in Hall. rewrite Hraw in Hall.
  unfold imagePromptOf in Hprompt.
  destruct (promptMatch (exampleText l1 l2)) as [mr|]; [|discriminate].
  unfold group1Trimmed in Hprompt.
  destruct (group1 mr) as [g|]; [|discriminate].
  injection Hprompt as <-.
  apply andb_prop in Hall as [Hf Hp].
  destruct (list_eq_dec (list_eq_dec N.eq_dec) (firstn 5 (factLines raw))
              [lit "A"; lit "B"]) as [Ef|]; [|discriminate].
  unfold eqb in Hp.
  destruct (list_eq_dec N.eq_dec (trim g) (lit "X")) as [Ep|]; [|discriminate].
  split; assumption.
Qed.

Lemma parsing_example_witness :
  exists result,
    researchTopicForPrompt
      (replying (textReply (exampleText (lit "Facts:") (lit "IMAGE_PROMPT:"))))
      (lit "Solar power") (lit "Investor") (lit "Broadcast") (lit "English") []
      = Returned result
          [GenerateContentCall
             (researchRequest (lit "Solar power")
                (getLevelInstruction (lit "Investor"))
                (getStyleInstruction (lit "Broadcast")) (lit "English"))]
    /\ facts result = [lit "A"; lit "B"]
    /\ imagePrompt result = lit "X".
Proof.
  exact (parsing_example
           (replying (textReply (exampleText (lit "Facts:") (lit "IMAGE_PROMPT:"))))
           (lit "Solar power") (lit "Investor") (lit "Broadcast") (lit "English")
           [] (textReply (exampleText (lit "Facts:") (lit "IMAGE_PROMPT:")))
           (lit "Facts:") (lit "IMAGE_PROMPT:")
           eq_refl eq_refl eq_refl eq_refl).
Defined.

(** ** Insertion-ordered maps *)

Lemma eqb_spec (s t : jsstring) : reflect (s = t) (eqb s t).
Proof. unfold eqb. destruct (list_eq_dec N.eq_dec s t); now constructor. Qed.

Lemma eqb_refl (s : jsstring) : eqb s s = true.
Proof. now destruct (eqb_spec s s). Qed.

Lemma eqb_sym (s t : jsstring) : eqb s t = eqb t s.
Proof. destruct (eqb_spec s t), (eqb_spec t s); congruence. Qed.

Section MapFacts.
Variable V : Type.

Lemma mem_In (k : jsstring) (ks : list jsstring) : mem k ks = true <-> In k ks.
Proof.
  unfold mem. rewrite existsb_exists. split.
  - intros (k' & Hin & E). now destruct (eqb_spec k' k) as [<-|].
  - intros H. exists k. split; [exact H | apply eqb_refl].
Qed.

Lemma keys_set (k : jsstring) (v : V) (mp : JsMap.t V) :
  List.map fst (JsMap.set k v mp)
  = if mem k (List.map fst mp) then List.map fst mp else List.map fst mp ++ [k].
Proof.
  induction mp as [|[k' v'] mp IH]; simpl; [reflexivity|].
  destruct (eqb k' k) eqn:E; simpl; [reflexivity|].
  rewrite IH. unfold mem. now destruct (existsb _ (List.map fst mp)).
Qed.

Lemma filter_weaken {A : Type} (f g : A -> bool) (l : list A) :
  (forall x, f x = true -> g x = true) ->
  List.filter f (List.filter g l) = List.filter f l.
Proof.
  intros H. induction l as [|x l IH]; simpl; [reflexivity|].
  destruct (g x) eqn:G; simpl.
  - destruct (f x); now rewrite IH.
  - destruct (f x) eqn:F; [|exact IH].
    apply H in F. congruence.
Qed.

Lemma filter_twice {A : Type} (f g : A -> bool) (l : list A) :
  List.filter f (List.filter g l) = List.filter (fun x => g x && f x) l.
Proof.
  induction l as [|x l IH]; simpl; [reflexivity|].
  destruct (g x); simpl; [|exact IH].
  destruct (f x); now rewrite IH.
Qed.

Lemma filter_all {A : Type} (f : A -> bool) (l : list A) :
  (forall x, f x = true) -> List.filter f l = l.
Proof.
  intros H. induction l as [|x l IH]; simpl; [reflexivity|].
  now rewrite H, IH.
Qed.

(** The keys of a map grown from [acc]: those of [acc], then the new
    keys in the order in which they are first seen. *)
Lemma keys_fold_set (entries : list (jsstring * V)) :
  forall acc : JsMap.t V,
    List.map fst (fold_left (fun mp e => JsMap.set (fst e) (snd e) mp) entries acc)
    = List.map fst acc
        ++ List.filter (fun x => negb (mem x (List.map fst acc)))
             (dedupFirst (List.map fst entries)).
Proof.
  induction entries as [|[k v] entries IH]; intros acc; simpl.
  - now rewrite app_nil_r.
  - rewrite IH, keys_set. destruct (mem k (List.map fst acc)) eqn:E; simpl.
    + f_equal. symmetry. apply filter_weaken.
      intros x Hx. apply negb_true_iff. apply negb_true_iff in Hx.
      destruct (eqb_spec x k) as [->|]; congruence.
    + rewrite <- app_assoc. simpl. f_equal. f_equal.
      rewrite filter_twice. apply filter_ext. intros x.
      unfold mem. rewrite existsb_app. simpl.
      rewrite orb_false_r, negb_orb, (eqb_sym k x). apply andb_comm.
Qed.

Lemma keys_ofEntries (entries : list (jsstring * V)) :
  List.map fst (JsMap.ofEntries entries) = dedupFirst (List.map fst entries).
Proof.
  unfold JsMap.ofEntries. rewrite keys_fold_set. simpl.
  now apply filter_all.
Qed.

Lemma ofEntries_snoc (entries : list (jsstring * V)) (e : jsstring * V) :
  JsMap.ofEntries (entries ++ [e])
  = JsMap.set (fst e) (snd e) (JsMap.ofEntries entries).
Proof. unfold JsMap.ofEntries. now rewrite fold_left_app. Qed.

(** An entry of a map after [set] is the new one or an old one under
    another key. *)
Lemma In_set (k0 : jsstring) (v0 : V) (mp : JsMap.t V) :
  NoDup (List.map fst mp) ->
  forall k v,
    In (k, v) (JsMap.set k0 v0 mp) ->
    (k = k0 /\ v = v0) \/ (k <> k0 /\ In (k, v) mp).
Proof.
  induction mp as [|[k' v'] mp IH]; simpl; intros Hnd k v Hin.
  - destruct Hin as [E|[]]. injection E as <- <-. now left.
  - inversion Hnd as [|? ? Hnotin Hnd']; subst.
    destruct (eqb_spec k' k0) as [->|Hne]; simpl in Hin.
    + destruct Hin as [E|Hin].
      * injection E as <- <-. now left.
      * right. split; [|now right].
        intros ->. apply Hnotin.
        change k0 with (fst (k0, v)). now apply in_map.
    + destruct Hin as [E|Hin].
      * injection E as <- <-. right. split; [exact Hne | now left].
      * destruct (IH Hnd' k v Hin) as [H|[H1 H2]]; [now left|].
        right. split; [exact H1 | now right].
Qed.

End MapFacts.

Lemma NoDup_dedupFirst (ks : list jsstring) : NoDup (dedupFirst ks).
Proof.
  induction ks as [|k ks IH]; simpl; constructor.
  - intros H. apply filter_In in H as [_ H]. now rewrite eqb_refl in H.
  - now apply NoDup_filter.
Qed.

(** ** De-duplication of the citations *)

Lemma uniqueResults_snoc (items : list SearchResultItem) (x : SearchResultItem) :
  JsMap.ofEntries (List.map (fun item => (url item, item)) (items ++ [x]))
  = JsMap.set (url x) x
      (JsMap.ofEntries (List.map (fun item => (url item, item)) items)).
Proof. rewrite map_app. cbn [List.map]. now rewrite ofEntries_snoc. Qed.

Lemma ofEntries_NoDup (items : list SearchResultItem) :
  NoDup (List.map fst
           (JsMap.ofEntries (List.map (fun item => (url item, item)) items))).
Proof. rewrite keys_ofEntries. apply NoDup_dedupFirst. Qed.

(** Every entry of the map is filed under its own url and is the last
    item with that url. *)
Lemma ofEntries_last (items : list SearchResultItem) :
  forall k item,
    In (k, item)
       (JsMap.ofEntries (List.map (fun item => (url item, item)) items)) ->
    k = url item /\ lastWithUrl items item.
Proof.
  induction items as [|x items IH] using rev_ind; intros k item Hin.
  - destruct Hin.
  - rewrite uniqueResults_snoc in Hin.
    apply In_set in Hin; [|apply ofEntries_NoDup].
    destruct Hin as [[-> ->] | [Hne Hin]].
    + split; [reflexivity|]. exists items, []. split; [reflexivity|].
      intros y [].
    + destruct (IH k item Hin) as (-> & pre & post & -> & Hlast).
      split; [reflexivity|].
      exists pre, (post ++ [x]). split; [now rewrite <- app_assoc|].
      intros y Hy. apply in_app_or in Hy as [Hy|[<-|[]]]; [now apply Hlast|].
      congruence.
Qed.

Lemma uniqueResults_urls (items : list SearchResultItem) :
  List.map url (uniqueResults items) = dedupFirst (List.map url items).
Proof.
  unfold uniqueResults, JsMap.values.
  transitivity
    (List.map fst
       (JsMap.ofEntries (List.map (fun item => (url item, item)) items))).
  - rewrite map_map. apply map_ext_in. intros [k item] Hin.
    apply ofEntries_last in Hin as [-> _]. reflexivity.
  - rewrite keys_ofEntries, map_map. reflexivity.
Qed.

Lemma uniqueResults_last (items : list SearchResultItem) (item : SearchResultItem) :
  In item (uniqueResults items) -> lastWithUrl items item.
Proof.
  unfold uniqueResults, JsMap.values. intros Hin.
  apply in_map_iff in Hin as ([k item'] & E & Hin). simpl in E. subst item'.
  now apply ofEntries_last in Hin.
Qed.

(** The citations that are kept are those with a uri and a title that
    are present and not empty. *)
Lemma searchResultsOf_kept (chunks : list GroundingChunk.t)
      (item : SearchResultItem) :
  In item (searchResultsOf (Some chunks)) <->
  url item <> [] /\ title item <> []
  /\ In (chunk (url item) (title item)) chunks.
Proof.
  unfold searchResultsOf. rewrite in_flat_map. split.
  - intros ([[[[u|] [t|]]|]] & Hc & Hin); simpl in Hin; try contradiction.
    destruct u as [|cu u], t as [|ct t]; simpl in Hin; try contradiction.
    destruct Hin as [<-|[]]. simpl. repeat split; try discriminate. exact Hc.
  - intros (Hu & Ht & Hc). exists (chunk (url item) (title item)).
    split; [exact Hc|]. destruct item as [t u]. simpl in *.
    destruct u; [congruence|]. destruct t; [congruence|]. now left.
Qed.

(** The citations that are kept are the citations with a uri and a
    title, in their order. *)
Lemma searchResultsOf_filter (chunks : list GroundingChunk.t) :
  List.map citationOf (searchResultsOf (Some chunks))
  = List.filter hasUriAndTitle chunks.
Proof.
  unfold searchResultsOf.
  induction chunks as [|c chunks IH]; [reflexivity|].
  cbn [flat_map filter]. rewrite map_app, IH.
  destruct c as [[[[[|cu u]|] [[|ct t]|]]|]]; reflexivity.
Qed.

(** There is one last entry with a given url. *)
Lemma lastWithUrl_unique (items : list SearchResultItem) (a b : SearchResultItem) :
  lastWithUrl items a -> lastWithUrl items b -> url a = url b -> a = b.
Proof.
  intros (pre & post & E & Ha) (pre' & post' & E' & Hb) Hu.
  rewrite E in E'. clear E. revert pre' E'.
  induction pre as [|x pre IH]; intros [|y pre'] E'; simpl in E'.
  - now injection E' as ->.
  - injection E' as -> ->. exfalso.
    apply (Ha b); [|now symmetry]. apply in_or_app. right. now left.
  - injection E' as <- <-. exfalso.
    apply (Hb a); [|exact Hu]. apply in_or_app. right. now left.
  - injection E' as _ E'. exact (IH pre' E').
Qed.

(** The urls in their order and the entry kept for each url leave one
    list of results. *)
Lemma lastWithUrl_determines (items results results' : list SearchResultItem) :
  List.map url results = List.map url results' ->
  (forall item, In item results -> lastWithUrl items item) ->
  (forall item, In item results' -> lastWithUrl items item) ->
  results = results'.
Proof.
  revert results'. induction results as [|r results IH];
    intros [|r' results'] E H H'; try discriminate; [reflexivity|].
  injection E as Hu E. f_equal.
  - apply (lastWithUrl_unique items); [apply H | apply H' | exact Hu]; now left.
  - apply IH; [exact E | |]; intros item Hin; [apply H | apply H']; now right.
Qed.

Lemma citationOf_inj (kept kept' : list SearchResultItem) :
  List.map citationOf kept = List.map citationOf kept' -> kept = kept'.
Proof.
  revert kept'. induction kept as [|[t u] kept IH];
    intros [|[t' u'] kept'] E; try discriminate; [reflexivity|].
  injection E as -> -> E. f_equal. now apply IH.
Qed.

(** C1, as the code has it. Whenever the text request is answered, the
    [searchResults] of the result are the citations with a uri and a
    title that are present and not empty, taken in their order and
    de-duplicated by url: no url occurs twice, the urls stand in the
    order in which they are first seen, and the entry kept for a url is
    the last citation with that url. This leaves one list of results:
    for the citations [a/T1], [a/T2], [b/T3] it is [a/T2], [b/T3]. *)
Theorem searchResults_unique_last_wins
        (env : Env) (topic level style language : jsstring)
        (log : list Event) (response : GenerateContentResponse.t)
        (chunks : list GroundingChunk.t) :
  let levelInstr := getLevelInstruction level in
  let styleInstr := getStyleInstruction style in
  let request := researchRequest topic levelInstr styleInstr language in
  generateContent env log request = Resolved response ->
  groundingChunksOf response = Some chunks ->
  exists result kept,
    researchTopicForPrompt env topic level style language log
      = Returned result (log ++ [GenerateContentCall request])
    /\ List.map citationOf kept = List.filter hasUriAndTitle chunks
    /\ (forall item,
          In item kept <->
          url item <> [] /\ title item <> []
          /\ In (chunk (url item) (title item)) chunks)
    /\ List.map url (searchResults result) = dedupFirst (List.map url kept)
    /\ NoDup (List.map url (searchResults result))
    /\ (forall item, In item (searchResults result) -> lastWithUrl kept item)
    /\ (forall kept' results',
          List.map citationOf kept' = List.filter hasUriAndTitle chunks ->
          List.map url results' = dedupFirst (List.map url kept') ->
          (forall item, In item results' -> lastWithUrl kept' item) ->
          kept' = kept /\ results' = searchResults result)
    /\ (chunks = exampleChunks ->
        searchResults result
        = [mkSearchResultItem (lit "T2") (lit "a");
           mkSearchResultItem (lit "T3") (lit "b")]).
Proof.
  intros levelInstr styleInstr request Hreply Hchunks.
  destruct (research_returned env topic level style language log response Hreply)
    as (raw & prompt & _ & _ & Hrun).
  eexists. exists (searchResultsOf (Some chunks)).
  split; [exact Hrun|]. cbn [searchResults]. rewrite Hchunks.
  split; [apply searchResultsOf_filter|].
  split; [apply searchResultsOf_kept|].
  split; [apply uniqueResults_urls|].
  split; [rewrite uniqueResults_urls; apply NoDup_dedupFirst|].
  split; [apply uniqueResults_last|]. split.
  - intros kept' results' Hkept Hurls Hlast.
    assert (E : kept' = searchResultsOf (Some chunks)).
    { apply citationOf_inj. now rewrite Hkept, searchResultsOf_filter. }
    subst kept'. split; [reflexivity|].
    apply (lastWithUrl_determines (searchResultsOf (Some chunks)));
      [|exact Hlast | apply uniqueResults_last].
    now rewrite Hurls, uniqueResults_urls.
  - intros ->. reflexivity.
Qed.

Lemma searchResults_unique_last_wins_witness :
  exists result,
    researchTopicForPrompt (replying (citedReply exampleChunks))
      (lit "Solar power") (lit "Investor") (lit "Broadcast") (lit "English") []
      = Returned result
          [GenerateContentCall
             (researchRequest (lit "Solar power")
                (getLevelInstruction (lit "Investor"))
                (getStyleInstruction (lit "Broadcast")) (lit "English"))]
    /\ NoDup (List.map url (searchResults result))
    /\ searchResults result
       = [mkSearchResultItem (lit "T2") (lit "a");
          mkSearchResultItem (lit "T3") (lit "b")].
Proof.
  destruct (searchResults_unique_last_wins (replying (citedReply exampleChunks))
              (lit "Solar power") (lit "Investor") (lit "Broadcast")
              (lit "English") [] (citedReply exampleChunks) exampleChunks
              eq_refl eq_refl)
    as (result & kept & Hrun & _ & _ & _ & Hnd & _ & _ & Hex).
  exists result. split; [exact Hrun|]. split; [exact Hnd | exact (Hex eq_refl)].
Defined.

(** C1, as the claim states it, fails on its own example: of the two
    citations with url [a] the second one is kept, with title [T2]. *)
Lemma example_citations_keep_last_title :
  exists result log,
    researchTopicForPrompt (replying (citedReply exampleChunks))
      (lit "Solar power") (lit "Investor") (lit "Broadcast") (lit "English") []
      = Returned result log
    /\ searchResults result
       = [mkSearchResultItem (lit "T2") (lit "a");
          mkSearchResultItem (lit "T3") (lit "b")]
    /\ searchResults result
       <> [mkSearchResultItem (lit "T1") (lit "a");
           mkSearchResultItem (lit "T3") (lit "b")].
Proof.
  eexists. eexists. split; [vm_compute; reflexivity|].
  split; [reflexivity | discriminate].
Qed.

(** ** Instruction assembly *)

Lemma getLevelInstruction_inked (level : jsstring) :
  getLevelInstruction level <> [].
Proof.
  unfold getLevelInstruction.
  repeat match goal with |- context [eqb ?a ?b] => destruct (eqb a b) end;
    intros H; apply (f_equal (@length code_unit)) in H; vm_compute in H;
    discriminate.
Qed.

Lemma getStyleInstruction_inked (style : jsstring) :
  getStyleInstruction style <> [].
Proof.
  unfold getStyleInstruction.
  repeat match goal with |- context [eqb ?a ?b] => destruct (eqb a b) end;
    intros H; apply (f_equal (@length code_unit)) in H; vm_compute in H;
    discriminate.
Qed.

Lemma getLevelInstruction_unknown (level : jsstring) :
  (forall l, level <> levelValue l) ->
  getLevelInstruction level = genericLevelInstruction.
Proof.
  intros H. unfold getLevelInstruction.
  repeat match goal with
         | |- context [eqb level ?b] => destruct (eqb_spec level b) as [E|_]
         end;
    try reflexivity; exfalso.
  - exact (H GeneralAudience E).
  - exact (H Investor E).
  - exact (H Analyst E).
  - exact (H ExecutiveLeadership E).
  - exact (H Legal E).
  - exact (H Sustainability E).
  - exact (H StartupVC E).
Qed.

Lemma getStyleInstruction_unknown (style : jsstring) :
  (forall s, style <> styleValue s) ->
  getStyleInstruction style = genericStyleInstruction.
Proof.
  intros H. unfold getStyleInstruction.
  repeat match goal with
         | |- context [eqb style ?b] => destruct (eqb_spec style b) as [E|_]
         end;
    try reflexivity; exfalso.
  - exact (H Broadcast E).
  - exact (H Editorial E).
  - exact (H Cinematic E).
  - exact (H Explainer E).
  - exact (H Corporate E).
  - exact (H Terminal E).
  - exact (H Studio E).
  - exact (H Whiteboard E).
Qed.

(** The seven levels have seven descriptions of their own. *)
Lemma getLevelInstruction_mapped (l1 l2 : ComplexityLevel) :
  getLevelInstruction (levelValue l1) <> genericLevelInstruction
  /\ (getLevelInstruction (levelValue l1) = getLevelInstruction (levelValue l2)
      -> l1 = l2).
Proof.
  split.
  - destruct l1; intros H; vm_compute in H; discriminate.
  - destruct l1, l2; try reflexivity; intros H; vm_compute in H; discriminate.
Qed.

(** The eight styles have eight descriptions of their own. *)
Lemma getStyleInstruction_mapped (s1 s2 : VisualStyle) :
  getStyleInstruction (styleValue s1) <> genericStyleInstruction
  /\ (getStyleInstruction (styleValue s1) = getStyleInstruction (styleValue s2)
      -> s1 = s2).
Proof.
  split.
  - destruct s1; intros H; vm_compute in H; discriminate.
  - destruct s1, s2; try reflexivity; intros H; vm_compute in H; discriminate.
Qed.

Lemma includes_head (t post : jsstring) : includes (t ++ post) t.
Proof. exists [], post. reflexivity. Qed.

Lemma includes_app_r (pre s t : jsstring) : includes s t -> includes (pre ++ s) t.
Proof.
  intros (a & b & ->). exists (pre ++ a), b. now rewrite <- app_assoc.
Qed.

Lemma systemPrompt_includes (topic levelInstr styleInstr language : jsstring) :
  let prompt := systemPrompt topic levelInstr styleInstr language in
  prompt <> []
  /\ includes prompt topic
  /\ includes prompt levelInstr
  /\ includes prompt styleInstr.
Proof.
  unfold systemPrompt.
  repeat match goal with
         | |- context [lit ?s] =>
             let x := fresh "piece" in
             generalize (lit s); intros x
         end.
  split; [|split; [|split]].
  - intros H. apply (f_equal (@length code_unit)) in H.
    rewrite !length_app in H. simpl in H. lia.
  - do 2 apply includes_app_r. apply includes_head.
  - do 5 apply includes_app_r. apply includes_head.
  - do 7 apply includes_app_r. apply includes_head.
Qed.

Lemma research_log (env : Env) (topic level style language : jsstring)
      (log : list Event) :
  logOf (researchTopicForPrompt env topic level style language log)
  = log ++ [GenerateContentCall
              (researchRequest topic (getLevelInstruction level)
                 (getStyleInstruction style) language)].
Proof.
  destruct (generateContent env log
              (researchRequest topic (getLevelInstruction level)
                 (getStyleInstruction style) language)) as [response|e] eqn:E.
  - destruct (research_returned env topic level style language log response E)
      as (raw & prompt & _ & _ & Hrun).
    now rewrite Hrun.
  - unfold researchTopicForPrompt, bind, await. now rewrite E.
Qed.

(** C7. Instruction assembly is total. For every topic, level, style and
    language, [researchTopicForPrompt] sends one text request whose
    instruction is not empty and contains the topic, the description of
    the level and the description of the style; both descriptions are
    never empty. Each of the 7 levels and of the 8 styles has a
    description of its own, and every other value gets the generic
    broadcast-quality description. *)
Theorem instruction_assembly_total
        (env : Env) (topic level style language : jsstring) (log : list Event) :
  let levelInstr := getLevelInstruction level in
  let styleInstr := getStyleInstruction style in
  let prompt := systemPrompt topic levelInstr styleInstr language in
  logOf (researchTopicForPrompt env topic level style language log)
    = log ++ [GenerateContentCall
                (GenerateContentParameters.mk TEXT_MODEL (PlainText prompt)
                   [googleSearch] [])]
  /\ prompt <> []
  /\ includes prompt topic
  /\ includes prompt levelInstr
  /\ includes prompt styleInstr
  /\ levelInstr <> []
  /\ styleInstr <> []
  /\ (forall l1 l2 : ComplexityLevel,
        getLevelInstruction (levelValue l1) <> genericLevelInstruction
        /\ (getLevelInstruction (levelValue l1) = getLevelInstruction (levelValue l2)
            -> l1 = l2))
  /\ (forall s1 s2 : VisualStyle,
        getStyleInstruction (styleValue s1) <> genericStyleInstruction
        /\ (getStyleInstruction (styleValue s1) = getStyleInstruction (styleValue s2)
            -> s1 = s2))
  /\ ((forall l, level <> levelValue l) -> levelInstr = genericLevelInstruction)
  /\ ((forall s, style <> styleValue s) -> styleInstr = genericStyleInstruction)
  /\ genericLevelInstruction <> []
  /\ genericStyleInstruction <> [].
Proof.
  intros levelInstr styleInstr prompt.
  destruct (systemPrompt_includes topic levelInstr styleInstr language)
    as (Hne & Ht & Hl & Hs).
  split; [apply research_log|].
  repeat (split; [assumption|]).
  split; [apply getLevelInstruction_inked|].
  split; [apply getStyleInstruction_inked|].
  split; [apply getLevelInstruction_mapped|].
  split; [apply getStyleInstruction_mapped|].
  split; [apply getLevelInstruction_unknown|].
  split; [apply getStyleInstruction_unknown|].
  split; discriminate.
Qed.

Lemma instruction_assembly_total_witness :
  getLevelInstruction (lit "Toddler") = genericLevelInstruction
  /\ getStyleInstruction (lit "Neon") = genericStyleInstruction.
Proof.
  destruct (instruction_assembly_total (replying (textReply []))
              (lit "Solar power") (lit "Toddler") (lit "Neon") (lit "English") [])
    as (_ & _ & _ & _ & _ & _ & _ & _ & _ & Hl & Hs & _).
  split.
  - apply Hl. intros l H. destruct l; vm_compute in H; discriminate.
  - apply Hs. intros s H. destruct s; vm_compute in H; discriminate.
Defined.

(** ** Data URIs *)

(** An image that [generateInfographicImage] returns is the model's
    payload behind the png prefix, and stripping gives the payload back. *)
Lemma generateInfographicImage_wraps (env : Env) (prompt : jsstring)
      (log : list Event) (image : jsstring) (log' : list Event) :
  generateInfographicImage env prompt log = Returned image log' ->
  exists data,
    data <> [] /\ image = pngDataUri data /\ cleanBase64 image = data.
Proof.
  unfold generateInfographicImage.
  cbv beta zeta delta [bind await ret throw].
  match goal with
  | |- context [generateContent env log ?r] =>
      destruct (generateContent env log r) as [response|e]
  end; [|discriminate].
  unfold inlineDataOf.
  destruct (firstPartOf response) as [part|]; [|discriminate].
  destruct (Part.inlineData part) as [[mime [[|c data]|]]|]; cbn [InlineData.data truthy];
    try discriminate.
  intros H. injection H as <- <-. exists (c :: data).
  split; [discriminate|]. split; [reflexivity|]. vm_compute. reflexivity.
Qed.

(** C9. For a data URI [data:image/<m>;base64,<payload>] with [<m>] one
    of png, jpeg and jpg, stripping the prefix the way the edit functions
    and [generateVideoFromImage] do leaves the payload, and wrapping the
    payload with the same mime type gives the data URI back. In
    particular this holds for the images the service wraps itself. *)
Theorem dataUri_roundtrip (mime payload : jsstring) :
  In mime [lit "png"; lit "jpeg"; lit "jpg"] ->
  cleanBase64 (dataUri mime payload) = payload
  /\ dataUri mime (cleanBase64 (dataUri mime payload)) = dataUri mime payload
  /\ pngDataUri payload = dataUri (lit "png") payload
  /\ pngDataUri (cleanBase64 (pngDataUri payload)) = pngDataUri payload.
Proof.
  intros Hm.
  assert (Hpng : cleanBase64 (pngDataUri payload) = payload)
    by (vm_compute; reflexivity).
  assert (Hstrip : cleanBase64 (dataUri mime payload) = payload).
  { destruct Hm as [<-|[<-|[<-|[]]]]; vm_compute; reflexivity. }
  split; [exact Hstrip|]. split; [now rewrite Hstrip|].
  split; [reflexivity | now rewrite Hpng].
Qed.

Lemma dataUri_roundtrip_witness :
  cleanBase64 (dataUri (lit "jpeg") (lit "iVBORw0KGgo=")) = lit "iVBORw0KGgo="
  /\ dataUri (lit "jpeg") (cleanBase64 (dataUri (lit "jpeg") (lit "iVBORw0KGgo=")))
     = dataUri (lit "jpeg") (lit "iVBORw0KGgo=").
Proof.
  destruct (dataUri_roundtrip (lit "jpeg") (lit "iVBORw0KGgo="))
    as (H1 & H2 & _).
  - simpl. right. left. reflexivity.
  - split; [exact H1 | exact H2].
Defined.

(** ** Verification *)

(** C10. Whatever the image, topic, level, style and language,
    [verifyInfographicAccuracy] returns the verdict
    [{isAccurate: true, critique: "Verification bypassed."}] and leaves
    the log as it was: it makes no outbound call. *)
Theorem verification_is_bypassed
        (env : Env) (imageBase64 topic level style language : jsstring)
        (log : list Event) :
  let run :=
    verifyInfographicAccuracy env imageBase64 topic level style language log in
  run = Returned (mkVerdict true (lit "Verification bypassed.")) log
  /\ logOf run = log
  /\ List.filter isOutboundCall (logOf run) = List.filter isOutboundCall log.
Proof.
  intros run. assert (H : logOf run = log) by reflexivity.
  split; [reflexivity|]. split; [exact H | now rewrite H].
Qed.

(** ** The polling loop *)

Lemma pollEvents_cons (o : Operation.t) (polled : list Operation.t) :
  pollEvents (o :: polled)
  = SetTimeout POLL_INTERVAL :: GetVideosOperationCall o :: pollEvents polled.
Proof. reflexivity. Qed.

(** When the loop returns, the handle it returns is done, and what it
    logged is a pause and a status query for each handle it polled, none
    of which was done. *)
Lemma pollUntilDone_returned (fuel : nat) (env : Env) :
  forall (operation : Operation.t) (log : list Event)
         (operation' : Operation.t) (log' : list Event),
    pollUntilDone fuel env operation log = Returned operation' log' ->
    Operation.done operation' = true
    /\ exists polled,
         log' = log ++ pollEvents polled
         /\ Forall (fun o => Operation.done o = false) polled.
Proof.
  induction fuel as [|fuel IH]; intros operation log operation' log';
    cbn [pollUntilDone]; destruct (Operation.done operation) eqn:Hd.
  - intros H. injection H as <- <-. split; [exact Hd|].
    exists []. split; [now rewrite app_nil_r | constructor].
  - discriminate.
  - intros H. injection H as <- <-. split; [exact Hd|].
    exists []. split; [now rewrite app_nil_r | constructor].
  - unfold bind, sleep, await.
    destruct (getVideosOperation env (log ++ [SetTimeout POLL_INTERVAL]) operation)
      as [next|e]; [|discriminate].
    intros H. apply IH in H as (Hdone & polled & -> & Hall).
    split; [exact Hdone|]. exists (operation :: polled). split.
    + rewrite pollEvents_cons, <- !app_assoc. reflexivity.
    + now constructor.
Qed.

(** When the loop throws, a status query was rejected. *)
Lemma pollUntilDone_threw (fuel : nat) (env : Env) :
  forall (operation : Operation.t) (log : list Event)
         (e : Error) (log' : list Event),
    pollUntilDone fuel env operation log = Threw e log' ->
    exists polled o,
      getVideosOperation env
        (log ++ pollEvents polled ++ [SetTimeout POLL_INTERVAL]) o = Rejected e
      /\ log' = log ++ pollEvents polled
                  ++ [SetTimeout POLL_INTERVAL; GetVideosOperationCall o].
Proof.
  induction fuel as [|fuel IH]; intros operation log e log';
    cbn [pollUntilDone]; destruct (Operation.done operation) eqn:Hd;
    try discriminate.
  unfold bind, sleep, await.
  destruct (getVideosOperation env (log ++ [SetTimeout POLL_INTERVAL]) operation)
    as [next|e'] eqn:Hq.
  - intros H. apply IH in H as (polled & o & Hrej & ->).
    exists (operation :: polled), o. rewrite pollEvents_cons. split.
    + rewrite <- !app_assoc in Hrej. exact Hrej.
    + rewrite <- !app_assoc. reflexivity.
  - intros H. injection H as <- <-. exists [], operation. split.
    + exact Hq.
    + rewrite <- app_assoc. reflexivity.
Qed.

(** The loop on fuel agrees with the loop as a relation: a run that ends
    is found with as much fuel as there are handles to poll, and what the
    loop returns is such a run. *)
Lemma polls_enough_fuel (env : Env) (operation : Operation.t) (log : list Event)
      (polled : list Operation.t) (final : Operation.t) :
  polls env operation log polled final ->
  forall fuel,
    length polled <= fuel ->
    pollUntilDone fuel env operation log
    = Returned final (log ++ pollEvents polled).
Proof.
  induction 1 as [operation log Hd | operation next final log polled Hd Hq _ IH];
    intros fuel Hfuel.
  - destruct fuel; cbn [pollUntilDone]; rewrite Hd; unfold ret;
      now rewrite app_nil_r.
  - destruct fuel as [|fuel]; [simpl in Hfuel; lia|].
    cbn [pollUntilDone]. rewrite Hd. unfold bind, sleep, await. rewrite Hq.
    rewrite <- app_assoc. cbn [app]. rewrite IH by (simpl in Hfuel; lia).
    rewrite pollEvents_cons, <- app_assoc. reflexivity.
Qed.

Lemma pollUntilDone_polls (fuel : nat) (env : Env) :
  forall (operation : Operation.t) (log : list Event)
         (final : Operation.t) (log' : list Event),
    pollUntilDone fuel env operation log = Returned final log' ->
    exists polled,
      polls env operation log polled final
      /\ log' = log ++ pollEvents polled
      /\ length polled <= fuel.
Proof.
  induction fuel as [|fuel IH]; intros operation log final log';
    cbn [pollUntilDone]; destruct (Operation.done operation) eqn:Hd.
  - intros H. injection H as <- <-. exists [].
    split; [now constructor|]. split; [now rewrite app_nil_r | apply le_n].
  - discriminate.
  - intros H. injection H as <- <-. exists [].
    split; [now constructor|]. split; [now rewrite app_nil_r | apply Nat.le_0_l].
  - unfold bind, sleep, await.
    destruct (getVideosOperation env (log ++ [SetTimeout POLL_INTERVAL]) operation)
      as [next|e] eqn:Hq; [|discriminate].
    intros H. apply IH in H as (polled & Hp & -> & Hlen).
    exists (operation :: polled). split; [|split].
    + econstructor; [exact Hd | exact Hq |].
      rewrite <- app_assoc in Hp. exact Hp.
    + rewrite pollEvents_cons, <- !app_assoc. reflexivity.
    + simpl. lia.
Qed.

(** The job of the specification's example: not done at submission and
    at the first status query, done at the second. *)
Lemma pollUntilDone_two_queries
      (fuel : nat) (env : Env) (log : list Event)
      (op0 op1 op2 : Operation.t) :
  2 <= fuel ->
  Operation.done op0 = false ->
  getVideosOperation env (log ++ [SetTimeout POLL_INTERVAL]) op0 = Resolved op1 ->
  Operation.done op1 = false ->
  getVideosOperation env
    (log ++ [SetTimeout POLL_INTERVAL; GetVideosOperationCall op0;
             SetTimeout POLL_INTERVAL]) op1 = Resolved op2 ->
  Operation.done op2 = true ->
  pollUntilDone fuel env op0 log
  = Returned op2 (log ++ pollEvents [op0; op1]).
Proof.
  intros Hfuel Hd0 Hq0 Hd1 Hq1 Hd2.
  destruct fuel as [|[|fuel]]; [lia | lia |].
  cbn [pollUntilDone]. rewrite Hd0. unfold bind at 1 2, sleep, await.
  rewrite Hq0. cbn [pollUntilDone]. rewrite Hd1.
  unfold bind, sleep, await. rewrite <- !app_assoc. cbn [app].
  rewrite Hq1.
  destruct fuel; cbn [pollUntilDone]; rewrite Hd2; unfold ret;
    rewrite <- ?app_assoc; reflexivity.
Qed.

(** ** Video generation *)

(** Every way [generateVideoFromImage] can end, read off its steps. *)
Lemma generateVideoFromImage_cases
      (fuel : nat) (env : Env) (imageBase64 : jsstring) (style : option jsstring)
      (log : list Event) :
  let request := videoRequest imageBase64 (styleOrDefault style) in
  let log0 := log ++ [GenerateVideosCall request] in
  match generateVideos env log request with
  | Rejected e =>
      generateVideoFromImage fuel env imageBase64 style log = Threw e log0
  | Resolved submitted =>
      match pollUntilDone fuel env submitted log0 with
      | Polling log1 =>
          generateVideoFromImage fuel env imageBase64 style log = Polling log1
      | Threw e log1 =>
          generateVideoFromImage fuel env imageBase64 style log = Threw e log1
      | Returned final log1 =>
          match downloadLinkOf final with
          | Some (c :: s) =>
              let resource := assetUrl env (c :: s) in
              match fetch env log1 resource with
              | Rejected e =>
                  generateVideoFromImage fuel env imageBase64 style log
                  = Threw e (log1 ++ [FetchCall resource])
              | Resolved response =>
                  match blob response with
                  | Rejected e =>
                      generateVideoFromImage fuel env imageBase64 style log
                      = Threw e (log1 ++ [FetchCall resource])
                  | Resolved b =>
                      generateVideoFromImage fuel env imageBase64 style log
                      = Returned (createObjectURL env b)
                          (log1 ++ [FetchCall resource])
                  end
              end
          | _ =>
              generateVideoFromImage fuel env imageBase64 style log
              = Threw (JsError (lit "Video generation failed")) log1
          end
      end
  end.
Proof.
  intros request log0. unfold generateVideoFromImage.
  cbv beta zeta delta [bind await lift ret throw]. fold request.
  destruct (generateVideos env log request) as [submitted|e];
    [|reflexivity].
  fold log0.
  destruct (pollUntilDone fuel env submitted log0) as [final log1|e log1|log1];
    [|reflexivity|reflexivity].
  destruct (downloadLinkOf final) as [[|c s]|]; cbn [truthy orElse];
    [reflexivity| |reflexivity].
  destruct (fetch env log1 (assetUrl env (c :: s))) as [response|e];
    [|reflexivity].
  destruct (blob response); reflexivity.
Qed.

(** C3. The polling loop returns only a handle whose [done] flag is
    true, after a pause of the fixed interval and a status query for each
    handle that was not done, and it does return, given a turn of fuel
    for each such handle, whenever the job gets done; so
    [generateVideoFromImage] returns only after a done handle. For a job
    that is not done at submission and at the first status query and done
    at the second, with two turns of fuel or more, exactly two status
    queries are issued before the asset is fetched, each right after a
    pause of 5000 milliseconds, the five seconds of the interval. *)
Theorem polling_waits_for_done
        (fuel : nat) (env : Env) (imageBase64 : jsstring)
        (style : option jsstring) (log : list Event) :
  let request := videoRequest imageBase64 (styleOrDefault style) in
  POLL_INTERVAL = (5 * 1000)%N
  /\ (forall operation log0 operation' log',
      pollUntilDone fuel env operation log0 = Returned operation' log' ->
      Operation.done operation' = true
      /\ exists polled,
           log' = log0 ++ pollEvents polled
           /\ Forall (fun o => Operation.done o = false) polled)
  /\ (forall operation log0 polled final,
        polls env operation log0 polled final ->
        length polled <= fuel ->
        pollUntilDone fuel env operation log0
          = Returned final (log0 ++ pollEvents polled)
        /\ length (List.filter isStatusQuery (pollEvents polled))
           = length polled)
  /\ (forall handle log',
        generateVideoFromImage fuel env imageBase64 style log
          = Returned handle log' ->
        exists submitted final polled link,
          generateVideos env log request = Resolved submitted
          /\ pollUntilDone fuel env submitted (log ++ [GenerateVideosCall request])
             = Returned final
                 ((log ++ [GenerateVideosCall request]) ++ pollEvents polled)
          /\ Operation.done final = true
          /\ Forall (fun o => Operation.done o = false) polled
          /\ downloadLinkOf final = Some link
          /\ log' = log ++ [GenerateVideosCall request] ++ pollEvents polled
                      ++ [FetchCall (assetUrl env link)])
  /\ (forall op0 op1 op2 link response b,
        2 <= fuel ->
        generateVideos env log request = Resolved op0 ->
        Operation.done op0 = false ->
        getVideosOperation env
          (log ++ [GenerateVideosCall request; SetTimeout 5000]) op0
          = Resolved op1 ->
        Operation.done op1 = false ->
        getVideosOperation env
          (log ++ [GenerateVideosCall request; SetTimeout 5000;
                   GetVideosOperationCall op0; SetTimeout 5000]) op1
          = Resolved op2 ->
        Operation.done op2 = true ->
        downloadLinkOf op2 = Some link ->
        link <> [] ->
        fetch env
          (log ++ [GenerateVideosCall request; SetTimeout 5000;
                   GetVideosOperationCall op0; SetTimeout 5000;
                   GetVideosOperationCall op1]) (assetUrl env link)
          = Resolved response ->
        blob response = Resolved b ->
        let events :=
          [GenerateVideosCall request;
           SetTimeout 5000; GetVideosOperationCall op0;
           SetTimeout 5000; GetVideosOperationCall op1;
           FetchCall (assetUrl env link)] in
        generateVideoFromImage fuel env imageBase64 style log
          = Returned (createObjectURL env b) (log ++ events)
        /\ length (List.filter isStatusQuery events) = 2).
Proof.
  intros request. split; [reflexivity|]. split; [|split; [|split]].
  - intros operation log0 operation' log'. apply pollUntilDone_returned.
  - intros operation log0 polled final Hp Hfuel.
    split; [now apply polls_enough_fuel|].
    clear. induction polled as [|o polled IH]; [reflexivity|].
    rewrite pollEvents_cons. simpl. now rewrite IH.
  - intros handle log' Hrun.
    pose proof (generateVideoFromImage_cases fuel env imageBase64 style log) as Hc.
    cbv zeta in Hc. fold request in Hc.
    destruct (generateVideos env log request) as [submitted|e];
      [|rewrite Hc in Hrun; discriminate].
    destruct (pollUntilDone fuel env submitted (log ++ [GenerateVideosCall request]))
      as [final log1|e log1|log1] eqn:Hpoll;
      [|rewrite Hc in Hrun; discriminate|rewrite Hc in Hrun; discriminate].
    apply pollUntilDone_returned in Hpoll as Hp.
    destruct Hp as (Hdone & polled & -> & Hall).
    destruct (downloadLinkOf final) as [[|c s]|] eqn:Hlink;
      try (rewrite Hc in Hrun; discriminate).
    destruct (fetch env _ (assetUrl env (c :: s))) as [response|e];
      [|rewrite Hc in Hrun; discriminate].
    destruct (blob response) as [b|e]; [|rewrite Hc in Hrun; discriminate].
    rewrite Hc in Hrun. injection Hrun as <- <-.
    exists submitted, final, polled, (c :: s).
    repeat split; try assumption; try reflexivity.
    rewrite <- ?app_assoc. reflexivity.
  - intros op0 op1 op2 link response b Hfuel Hsub Hd0 Hq0 Hd1 Hq1 Hd2 Hlink Hne
           Hfetch Hblob events.
    split; [|reflexivity].
    pose proof (generateVideoFromImage_cases fuel env imageBase64 style log) as Hc.
    cbv zeta in Hc. fold request in Hc. rewrite Hsub in Hc.
    rewrite (pollUntilDone_two_queries fuel env
               (log ++ [GenerateVideosCall request]) op0 op1 op2) in Hc;
      try assumption; try (rewrite <- app_assoc; assumption).
    rewrite Hlink in Hc. destruct link as [|c s]; [congruence|].
    rewrite <- !app_assoc in Hc. cbn [app pollEvents flat_map] in Hc.
    change POLL_INTERVAL with 5000%N in Hc.
    rewrite Hfetch, Hblob in Hc. rewrite Hc.
    rewrite <- ?app_assoc. reflexivity.
Qed.

Lemma polling_waits_for_done_witness :
  let request := videoRequest pngImage (lit "Cinematic") in
  let events :=
    [GenerateVideosCall request;
     SetTimeout 5000; GetVideosOperationCall pendingJob;
     SetTimeout 5000; GetVideosOperationCall pendingJob;
     FetchCall (assetUrl slowService videoLink)] in
  generateVideoFromImage 2 slowService pngImage None []
    = Returned (lit "blob:video-1") events
  /\ length (List.filter isStatusQuery events) = 2.
Proof.
  destruct (polling_waits_for_done 2 slowService pngImage None [])
    as (_ & _ & _ & _ & H).
  apply (H pendingJob pendingJob (finishedJob (Some videoLink)) videoLink
           (mkFetchResponse (Resolved [1; 2; 3]%N)) [1; 2; 3]%N);
    first [reflexivity | apply le_n | discriminate].
Defined.

(** Every way the polling loop can end, with the handles it went
    through and the handle it held at the end. *)
Lemma pollUntilDone_reaches (fuel : nat) (env : Env) :
  forall (operation : Operation.t) (log : list Event),
  exists polled current,
    reaches env operation log polled current
    /\ Forall (fun o => Operation.done o = false) polled
    /\ length polled <= fuel
    /\ match pollUntilDone fuel env operation log with
       | Returned final log' =>
           final = current /\ Operation.done current = true
           /\ log' = log ++ pollEvents polled
       | Threw e log' =>
           Operation.done current = false
           /\ length polled < fuel
           /\ getVideosOperation env
                (log ++ pollEvents polled ++ [SetTimeout POLL_INTERVAL]) current
              = Rejected e
           /\ log' = log ++ pollEvents polled
                       ++ [SetTimeout POLL_INTERVAL; GetVideosOperationCall current]
       | Polling log' =>
           Operation.done current = false
           /\ length polled = fuel
           /\ log' = log ++ pollEvents polled
       end.
Proof.
  induction fuel as [|fuel IH]; intros operation log;
    cbn [pollUntilDone]; destruct (Operation.done operation) eqn:Hd.
  - exists [], operation. split; [constructor|]. split; [constructor|].
    split; [apply le_n|]. unfold ret. cbn [pollEvents flat_map].
    now rewrite app_nil_r.
  - exists [], operation. split; [constructor|]. split; [constructor|].
    split; [apply le_n|]. unfold outOfFuel. cbn [pollEvents flat_map].
    now rewrite app_nil_r.
  - exists [], operation. split; [constructor|]. split; [constructor|].
    split; [apply Nat.le_0_l|]. unfold ret. cbn [pollEvents flat_map].
    now rewrite app_nil_r.
  - unfold bind, sleep, await.
    destruct (getVideosOperation env (log ++ [SetTimeout POLL_INTERVAL]) operation)
      as [next|e] eqn:Hq.
    + destruct (IH next ((log ++ [SetTimeout POLL_INTERVAL])
                           ++ [GetVideosOperationCall operation]))
        as (polled & current & Hr & Hall & Hlen & Hrun).
      rewrite <- app_assoc in Hr. cbn [app] in Hr.
      exists (operation :: polled), current.
      split; [now apply reaches_next with next|].
      split; [now constructor|]. split; [simpl; lia|].
      rewrite pollEvents_cons.
      destruct (pollUntilDone fuel env next _) as [final log'|e log'|log'].
      * destruct Hrun as (-> & Hdone & ->). split; [reflexivity|].
        split; [exact Hdone|]. rewrite <- !app_assoc. reflexivity.
      * destruct Hrun as (Hdone & Hlt & Hrej & ->). split; [exact Hdone|].
        split; [simpl; lia|]. rewrite <- !app_assoc in Hrej |- *.
        split; [exact Hrej | reflexivity].
      * destruct Hrun as (Hdone & Hl & ->). split; [exact Hdone|].
        split; [simpl; lia|]. rewrite <- !app_assoc. reflexivity.
    + exists [], operation. split; [constructor|]. split; [constructor|].
      split; [apply Nat.le_0_l|]. cbn [pollEvents flat_map app length].
      split; [exact Hd|]. split; [lia|]. split; [exact Hq|].
      rewrite <- app_assoc. reflexivity.
Qed.

(** A status query that is rejected ends the loop, once the loop has
    come to it. *)
Lemma reaches_rejected (env : Env) (operation : Operation.t) (log : list Event)
      (polled : list Operation.t) (current : Operation.t) (e : Error) :
  reaches env operation log polled current ->
  Operation.done current = false ->
  getVideosOperation env
    (log ++ pollEvents polled ++ [SetTimeout POLL_INTERVAL]) current = Rejected e ->
  forall fuel,
    length polled < fuel ->
    pollUntilDone fuel env operation log
    = Threw e (log ++ pollEvents polled
                 ++ [SetTimeout POLL_INTERVAL; GetVideosOperationCall current]).
Proof.
  induction 1 as [operation log | operation next current log polled Hd Hq _ IH];
    intros Hdone Hrej fuel Hfuel.
  - destruct fuel as [|fuel]; [lia|]. cbn [pollUntilDone]. rewrite Hdone.
    unfold bind, sleep, await. cbn [pollEvents flat_map app] in Hrej |- *.
    rewrite Hrej. rewrite <- app_assoc. reflexivity.
  - destruct fuel as [|fuel]; [simpl in Hfuel; lia|].
    cbn [pollUntilDone]. rewrite Hd. unfold bind, sleep, await. rewrite Hq.
    rewrite <- app_assoc. cbn [app].
    rewrite pollEvents_cons in Hrej |- *.
    rewrite (IH Hdone) by (rewrite <- ?app_assoc; cbn [app];
                           first [exact Hrej | simpl in Hfuel; lia]).
    rewrite <- !app_assoc. reflexivity.
Qed.

(** C4, as the code has it. [generateVideoFromImage] throws when the
    submission is rejected, and throws "Video generation failed", instead
    of returning a handle, when the job that came out of the polling loop
    has no asset locator or an empty one. These are not its only
    failures: it also throws when the polling loop comes to a status
    query that is rejected, and when the fetch of the asset or the
    reading of its body is rejected. It throws in no other case. *)
Theorem video_generation_failures
        (fuel : nat) (env : Env) (imageBase64 : jsstring)
        (style : option jsstring) (log : list Event) :
  let request := videoRequest imageBase64 (styleOrDefault style) in
  let log0 := log ++ [GenerateVideosCall request] in
  (forall e,
      generateVideos env log request = Rejected e ->
      generateVideoFromImage fuel env imageBase64 style log = Threw e log0)
  /\ (forall submitted final log1,
        generateVideos env log request = Resolved submitted ->
        pollUntilDone fuel env submitted log0 = Returned final log1 ->
        truthy (downloadLinkOf final) = false ->
        generateVideoFromImage fuel env imageBase64 style log
          = Threw (JsError (lit "Video generation failed")) log1)
  /\ (forall submitted polled current e,
        generateVideos env log request = Resolved submitted ->
        reaches env submitted log0 polled current ->
        Operation.done current = false ->
        getVideosOperation env
          (log0 ++ pollEvents polled ++ [SetTimeout POLL_INTERVAL]) current
          = Rejected e ->
        length polled < fuel ->
        generateVideoFromImage fuel env imageBase64 style log
          = Threw e (log0 ++ pollEvents polled
                       ++ [SetTimeout POLL_INTERVAL;
                           GetVideosOperationCall current]))
  /\ (forall submitted final log1 link e,
        generateVideos env log request = Resolved submitted ->
        pollUntilDone fuel env submitted log0 = Returned final log1 ->
        downloadLinkOf final = Some link ->
        link <> [] ->
        (fetch env log1 (assetUrl env link) = Rejected e
         \/ exists response,
              fetch env log1 (assetUrl env link) = Resolved response
              /\ blob response = Rejected e) ->
        generateVideoFromImage fuel env imageBase64 style log
          = Threw e (log1 ++ [FetchCall (assetUrl env link)]))
  /\ (forall e log',
        generateVideoFromImage fuel env imageBase64 style log = Threw e log' ->
        (generateVideos env log request = Rejected e /\ log' = log0)
        \/ (exists submitted final,
              generateVideos env log request = Resolved submitted
              /\ pollUntilDone fuel env submitted log0 = Returned final log'
              /\ Operation.done final = true
              /\ truthy (downloadLinkOf final) = false
              /\ e = JsError (lit "Video generation failed"))
        \/ (exists submitted polled current,
              generateVideos env log request = Resolved submitted
              /\ reaches env submitted log0 polled current
              /\ Operation.done current = false
              /\ length polled < fuel
              /\ getVideosOperation env
                   (log0 ++ pollEvents polled ++ [SetTimeout POLL_INTERVAL])
                   current
                 = Rejected e
              /\ log' = log0 ++ pollEvents polled
                          ++ [SetTimeout POLL_INTERVAL;
                              GetVideosOperationCall current])
        \/ (exists submitted final log1 link,
              generateVideos env log request = Resolved submitted
              /\ pollUntilDone fuel env submitted log0 = Returned final log1
              /\ Operation.done final = true
              /\ downloadLinkOf final = Some link
              /\ link <> []
              /\ log' = log1 ++ [FetchCall (assetUrl env link)]
              /\ (fetch env log1 (assetUrl env link) = Rejected e
                  \/ exists response,
                       fetch env log1 (assetUrl env link) = Resolved response
                       /\ blob response = Rejected e))).
Proof.
  intros request log0.
  pose proof (generateVideoFromImage_cases fuel env imageBase64 style log) as Hc.
  cbv zeta in Hc. fold request log0 in Hc.
  split; [|split; [|split; [|split]]].
  - intros e He. now rewrite He in Hc.
  - intros submitted final log1 Hsub Hpoll Hlink.
    rewrite Hsub, Hpoll in Hc.
    destruct (downloadLinkOf final) as [[|c s]|]; try exact Hc. discriminate.
  - intros submitted polled current e Hsub Hr Hdone Hrej Hfuel.
    rewrite Hsub, (reaches_rejected env submitted log0 polled current e
                     Hr Hdone Hrej fuel Hfuel) in Hc.
    exact Hc.
  - intros submitted final log1 link e Hsub Hpoll Hlink Hne Hfail.
    rewrite Hsub, Hpoll, Hlink in Hc. destruct link as [|c s]; [congruence|].
    cbv zeta in Hc.
    destruct Hfail as [Hf | (response & Hf & Hb)]; rewrite Hf in Hc;
      [exact Hc|]. rewrite Hb in Hc. exact Hc.
  - intros e log' Hrun.
    destruct (generateVideos env log request) as [submitted|e0].
    + pose proof (pollUntilDone_reaches fuel env submitted log0)
        as (polled & current & Hr & _ & _ & Hshape).
      destruct (pollUntilDone fuel env submitted log0)
        as [final log1|e1 log1|log1] eqn:Hpoll.
      * destruct Hshape as (-> & Hdone & _).
        destruct (downloadLinkOf current) as [link|] eqn:Hlink.
        -- destruct link as [|c s].
           ++ rewrite Hc in Hrun. injection Hrun as <- <-.
              right. left. exists submitted, current. rewrite Hlink. auto.
           ++ right. right. right. exists submitted, current, log1, (c :: s).
              cbv zeta in Hc.
              destruct (fetch env log1 (assetUrl env (c :: s))) as [response|e2].
              ** destruct (blob response) as [b|e3] eqn:Hb;
                   rewrite Hc in Hrun; [discriminate|].
                 injection Hrun as <- <-.
                 repeat (split; [first [reflexivity | assumption | discriminate]|]).
                 right. exists response. auto.
              ** rewrite Hc in Hrun. injection Hrun as <- <-.
                 repeat (split; [first [reflexivity | assumption | discriminate]|]).
                 now left.
        -- rewrite Hc in Hrun. injection Hrun as <- <-.
           right. left. exists submitted, current. rewrite Hlink. auto.
      * rewrite Hc in Hrun. injection Hrun as <- <-.
        destruct Hshape as (Hdone & Hlt & Hrej & ->).
        right. right. left. exists submitted, polled, current. auto 10.
      * rewrite Hc in Hrun. discriminate.
    + rewrite Hc in Hrun. injection Hrun as <- <-. now left.
Qed.

Lemma video_generation_failures_witness :
  generateVideoFromImage 0 emptyService pngImage None []
  = Threw (JsError (lit "Video generation failed"))
      [GenerateVideosCall (videoRequest pngImage (lit "Cinematic"))]
  /\ generateVideoFromImage 3 flakyService pngImage None []
     = Threw offline
         [GenerateVideosCall (videoRequest pngImage (lit "Cinematic"));
          SetTimeout 5000; GetVideosOperationCall pendingJob].
Proof.
  split.
  - destruct (video_generation_failures 0 emptyService pngImage None [])
      as (_ & H & _).
    apply (H (finishedJob None) (finishedJob None)); reflexivity.
  - destruct (video_generation_failures 3 flakyService pngImage None [])
      as (_ & _ & H & _).
    apply (H pendingJob [] pendingJob offline);
      first [reflexivity | apply reaches_here | repeat constructor].
Defined.

(** C4, as the claim states it, fails: the submission is accepted and no
    job ever completes, yet the function throws, because a status query
    is rejected. *)
Lemma rejected_status_query_fails_too :
  let request := videoRequest pngImage (lit "Cinematic") in
  generateVideoFromImage 3 flakyService pngImage None []
    = Threw offline
        [GenerateVideosCall request; SetTimeout 5000;
         GetVideosOperationCall pendingJob]
  /\ generateVideos flakyService [] request = Resolved pendingJob
  /\ (forall fuel final log',
        pollUntilDone fuel flakyService pendingJob [GenerateVideosCall request]
        <> Returned final log').
Proof.
  split; [vm_compute; reflexivity|]. split; [reflexivity|].
  intros [|fuel] final log'; discriminate.
Qed.

(* ================================================================== *)
(** ** Beyond the claims: the data-URI prefix *)
(* ================================================================== *)

Lemma matchStr_exact (p input tl : jsstring) :
  matchStr false p input = Some tl <-> input = p ++ tl.
Proof.
  revert input. induction p as [|c p IH]; intros input; simpl.
  - split; [intros H; now injection H as -> | intros ->; reflexivity].
  - destruct input as [|d input]; [split; discriminate|].
    unfold sameChar. destruct (N.eqb_spec c d) as [->|Hne].
    + rewrite IH. split; [intros ->; reflexivity | intros H; now injection H].
    + split; [discriminate | intros H; injection H as H _; congruence].
Qed.

(** A pattern anchored at the start matches nowhere else. *)
Lemma execFrom_Bol_later (icase : bool) (r : regex) (input : jsstring) :
  forall i, 0 < i -> execFrom icase (Cat Bol r) i input = None.
Proof.
  induction input as [|c s IH]; intros i Hi; cbn [execFrom m pos].
  - destruct i; [lia | reflexivity].
  - destruct i; [lia|]. cbn [Nat.eqb]. apply IH. lia.
Qed.

Lemma exec_Bol (icase : bool) (r : regex) (input : jsstring) :
  exec icase (Cat Bol r) input
  = match m icase r (RegExp.mkState 0 input None) (fun st' => Some st') with
    | Some st' => Some (mkMatch 0 (firstn (pos st' - 0) input) (cap st'))
    | None => None
    end.
Proof.
  unfold exec. destruct input as [|c s]; cbn [execFrom m pos Nat.eqb].
  - reflexivity.
  - destruct (m icase r _ _); [reflexivity|].
    apply execFrom_Bol_later. lia.
Qed.


Lemma matchStr_exact_none (p input : jsstring) :
  matchStr false p input = None -> forall tl, input <> p ++ tl.
Proof.
  intros Hn tl H. apply matchStr_exact in H. congruence.
Qed.

(** What the prefix pattern finds: one of the three prefixes at the very
    start of the text, or nothing. *)
Lemma dataUriPrefix_exec (s : jsstring) :
  (exists mime payload,
      In mime [lit "png"; lit "jpeg"; lit "jpg"]
      /\ s = dataUri mime payload
      /\ exec false dataUriPrefixRegex s
         = Some (mkMatch 0 (lit "data:image/" ++ mime ++ lit ";base64,")
                         (Some mime)))
  \/ (exec false dataUriPrefixRegex s = None
      /\ forall mime payload,
           In mime [lit "png"; lit "jpeg"; lit "jpg"] ->
           s <> dataUri mime payload).
Proof.
  unfold dataUriPrefixRegex. rewrite exec_Bol. cbn [m pos rest cap].
  assert (Hno : forall s1,
             (forall mime payload,
                 In mime [lit "png"; lit "jpeg"; lit "jpg"] ->
                 s1 <> mime ++ lit ";base64," ++ payload) ->
             forall mime payload,
               In mime [lit "png"; lit "jpeg"; lit "jpg"] ->
               lit "data:image/" ++ s1 <> dataUri mime payload).
  { intros s1 H mime payload Hm E. unfold dataUri in E.
    apply app_inv_head in E. exact (H mime payload Hm E). }
  destruct (matchStr false (lit "data:image/") s) as [s1|] eqn:E0.
  2:{ right. split; [reflexivity|]. intros mime payload _ H.
      exact (matchStr_exact_none _ _ E0 _ H). }
  apply matchStr_exact in E0. subst s.
  destruct (matchStr false (lit "png") s1) as [s2|] eqn:E1.
  - apply matchStr_exact in E1. subst s1.
    destruct (matchStr false (lit ";base64,") s2) as [s3|] eqn:E2.
    + apply matchStr_exact in E2. subst s2. left.
      exists (lit "png"), s3. split; [now left|]. split; [reflexivity|].
      vm_compute. reflexivity.
    + right. split; [reflexivity|]. apply Hno.
      intros mime payload [<-|[<-|[<-|[]]]] H.
      * apply app_inv_head in H. exact (matchStr_exact_none _ _ E2 _ H).
      * vm_compute in H. discriminate.
      * vm_compute in H. discriminate.
  - destruct (matchStr false (lit "jpeg") s1) as [s2|] eqn:E2.
    + apply matchStr_exact in E2. subst s1.
      destruct (matchStr false (lit ";base64,") s2) as [s3|] eqn:E3.
      * apply matchStr_exact in E3. subst s2. left.
        exists (lit "jpeg"), s3. split; [right; now left|].
        split; [reflexivity|]. vm_compute. reflexivity.
      * right. split; [reflexivity|]. apply Hno.
        intros mime payload [<-|[<-|[<-|[]]]] H.
        -- vm_compute in H. discriminate.
        -- apply app_inv_head in H. exact (matchStr_exact_none _ _ E3 _ H).
        -- vm_compute in H. discriminate.
    + destruct (matchStr false (lit "jpg") s1) as [s2|] eqn:E3.
      * apply matchStr_exact in E3. subst s1.
        destruct (matchStr false (lit ";base64,") s2) as [s3|] eqn:E4.
        -- apply matchStr_exact in E4. subst s2. left.
           exists (lit "jpg"), s3. split; [right; right; now left|].
           split; [reflexivity|]. vm_compute. reflexivity.
        -- right. split; [reflexivity|]. apply Hno.
           intros mime payload [<-|[<-|[<-|[]]]] H.
           ++ vm_compute in H. discriminate.
           ++ vm_compute in H. discriminate.
           ++ apply app_inv_head in H. exact (matchStr_exact_none _ _ E4 _ H).
      * right. split; [reflexivity|]. apply Hno.
        intros mime payload [<-|[<-|[<-|[]]]] H.
        -- exact (matchStr_exact_none _ _ E1 _ H).
        -- exact (matchStr_exact_none _ _ E2 _ H).
        -- exact (matchStr_exact_none _ _ E3 _ H).
Qed.

(** X1. [cleanBase64] removes exactly one thing: a prefix
    [data:image/png;base64,], [data:image/jpeg;base64,] or
    [data:image/jpg;base64,], in lower case, at the very start of the
    text. Every other text, such as a gif or webp data URI or bare
    base64, comes back unchanged. The result is never longer than the
    text. *)
Theorem cleanBase64_strips_three_prefixes_only (s : jsstring) :
  ((exists mime,
       In mime [lit "png"; lit "jpeg"; lit "jpg"]
       /\ s = dataUri mime (cleanBase64 s))
   \/ (cleanBase64 s = s
       /\ forall mime payload,
            In mime [lit "png"; lit "jpeg"; lit "jpg"] ->
            s <> dataUri mime payload))
  /\ length (cleanBase64 s) <= length s.
Proof.
  assert (H :
    (exists mime,
        In mime [lit "png"; lit "jpeg"; lit "jpg"]
        /\ s = dataUri mime (cleanBase64 s))
    \/ (cleanBase64 s = s
        /\ forall mime payload,
             In mime [lit "png"; lit "jpeg"; lit "jpg"] ->
             s <> dataUri mime payload)).
  { unfold cleanBase64, replace.
    destruct (dataUriPrefix_exec s)
      as [(mime & payload & Hm & -> & ->) | [-> Hno]].
    - left. exists mime. split; [exact Hm|].
      cbn [index matched app firstn Nat.add]. unfold dataUri.
      rewrite !app_assoc, skipn_app, skipn_all, Nat.sub_diag.
      rewrite <- !app_assoc. reflexivity.
    - right. split; [reflexivity | exact Hno]. }
  split; [exact H|].
  destruct H as [(mime & _ & E) | [-> _]]; [|apply le_n].
  rewrite E at 2. unfold dataUri. rewrite !length_app. lia.
Qed.

(* ================================================================== *)
(** ** Beyond the claims: generating and editing images *)
(* ================================================================== *)

Lemma cleanBase64_pngDataUri (data : jsstring) :
  cleanBase64 (pngDataUri data) = data.
Proof. vm_compute. reflexivity. Qed.

(** The three image functions end the same way once the request is
    fixed. *)
Lemma imageCall_cases (env : Env) (request : GenerateContentParameters.t)
      (message : jsstring) (log : list Event) :
  let run :=
    bind (await (GenerateContentCall request)
                (fun log => generateContent env log request))
         (fun response =>
            match inlineDataOf (firstPartOf response) with
            | Some data => ret (pngDataUri data)
            | None => throw (JsError message)
            end) log in
  logOf run = log ++ [GenerateContentCall request]
  /\ match generateContent env log request with
     | Rejected e => run = Threw e (log ++ [GenerateContentCall request])
     | Resolved response =>
         match inlineDataOf (firstPartOf response) with
         | Some data =>
             data <> []
             /\ run = Returned (pngDataUri data)
                        (log ++ [GenerateContentCall request])
         | None =>
             run = Threw (JsError message) (log ++ [GenerateContentCall request])
         end
     end.
Proof.
  cbv beta zeta delta [bind await ret throw].
  destruct (generateContent env log request) as [response|e];
    [|split; reflexivity].
  destruct (inlineDataOf (firstPartOf response)) as [data|] eqn:E;
    [|split; reflexivity].
  split; [reflexivity|]. split; [|reflexivity].
  unfold inlineDataOf in E.
  destruct (firstPartOf response) as [part|]; [|discriminate].
  destruct (Part.inlineData part) as [[mime d]|]; [|discriminate].
  cbn [InlineData.data] in E. destruct d as [[|c d]|]; try discriminate.
  injection E as <-. discriminate.
Qed.


Lemma generateInfographicImage_cases (env : Env) (prompt : jsstring)
      (log : list Event) :
  let run := generateInfographicImage env prompt log in
  let call := GenerateContentCall (generateRequest prompt) in
  logOf run = log ++ [call]
  /\ match generateContent env log (generateRequest prompt) with
     | Rejected e => run = Threw e (log ++ [call])
     | Resolved response =>
         match inlineDataOf (firstPartOf response) with
         | Some data => data <> [] /\ run = Returned (pngDataUri data) (log ++ [call])
         | None => run = Threw (JsError (lit "Failed to generate image")) (log ++ [call])
         end
     end.
Proof.
  exact (imageCall_cases env (generateRequest prompt)
           (lit "Failed to generate image") log).
Qed.

Lemma editInfographicImage_cases (env : Env)
      (currentImageBase64 editInstruction : jsstring) (log : list Event) :
  let run := editInfographicImage env currentImageBase64 editInstruction log in
  let call := GenerateContentCall (imageAndText currentImageBase64 editInstruction) in
  logOf run = log ++ [call]
  /\ match generateContent env log (imageAndText currentImageBase64 editInstruction) with
     | Rejected e => run = Threw e (log ++ [call])
     | Resolved response =>
         match inlineDataOf (firstPartOf response) with
         | Some data => data <> [] /\ run = Returned (pngDataUri data) (log ++ [call])
         | None => run = Threw (JsError (lit "Failed to edit image")) (log ++ [call])
         end
     end.
Proof.
  exact (imageCall_cases env (imageAndText currentImageBase64 editInstruction)
           (lit "Failed to edit image") log).
Qed.

Lemma fixInfographicImage_cases (env : Env)
      (currentImageBase64 correctionPrompt : jsstring) (log : list Event) :
  let run := fixInfographicImage env currentImageBase64 correctionPrompt log in
  let call :=
    GenerateContentCall
      (imageAndText currentImageBase64 (fixPrompt correctionPrompt)) in
  logOf run = log ++ [call]
  /\ match generateContent env log
             (imageAndText currentImageBase64 (fixPrompt correctionPrompt)) with
     | Rejected e => run = Threw e (log ++ [call])
     | Resolved response =>
         match inlineDataOf (firstPartOf response) with
         | Some data => data <> [] /\ run = Returned (pngDataUri data) (log ++ [call])
         | None => run = Threw (JsError (lit "Failed to fix image")) (log ++ [call])
         end
     end.
Proof.
  exact (imageCall_cases env
           (imageAndText currentImageBase64 (fixPrompt correctionPrompt))
           (lit "Failed to fix image") log).
Qed.

(** X2. Whatever [generateInfographicImage], [editInfographicImage] or
    [fixInfographicImage] returns is a png data URI around a payload that
    is not empty, and [cleanBase64] gives that payload back. *)
Theorem service_images_are_png_dataUris (env : Env) (log : list Event)
        (image : jsstring) (log' : list Event) :
  (exists prompt,
      generateInfographicImage env prompt log = Returned image log')
  \/ (exists current instruction,
         editInfographicImage env current instruction log = Returned image log')
  \/ (exists current correction,
         fixInfographicImage env current correction log = Returned image log') ->
  exists data,
    data <> [] /\ image = pngDataUri data /\ cleanBase64 image = data.
Proof.
  assert (Hgen : forall data, data <> [] ->
            forall l, Returned (pngDataUri data) l = Returned image log' ->
            exists data,
              data <> [] /\ image = pngDataUri data /\ cleanBase64 image = data).
  { intros data Hne l H. injection H as <- _. exists data.
    split; [exact Hne|]. split; [reflexivity | apply cleanBase64_pngDataUri]. }
  intros [(prompt & H) | [(current & instruction & H) | (current & correction & H)]].
  - destruct (generateInfographicImage_cases env prompt log) as (_ & Hc).
    cbv zeta in Hc.
    destruct (generateContent env log (generateRequest prompt)) as [response|e];
      [|congruence].
    destruct (inlineDataOf (firstPartOf response)) as [data|]; [|congruence].
    destruct Hc as (Hne & Hc). rewrite Hc in H. exact (Hgen data Hne _ H).
  - destruct (editInfographicImage_cases env current instruction log) as (_ & Hc).
    cbv zeta in Hc.
    destruct (generateContent env log (imageAndText current instruction))
      as [response|e]; [|congruence].
    destruct (inlineDataOf (firstPartOf response)) as [data|]; [|congruence].
    destruct Hc as (Hne & Hc). rewrite Hc in H. exact (Hgen data Hne _ H).
  - destruct (fixInfographicImage_cases env current correction log) as (_ & Hc).
    cbv zeta in Hc.
    destruct (generateContent env log (imageAndText current (fixPrompt correction)))
      as [response|e]; [|congruence].
    destruct (inlineDataOf (firstPartOf response)) as [data|]; [|congruence].
    destruct Hc as (Hne & Hc). rewrite Hc in H. exact (Hgen data Hne _ H).
Qed.

Lemma service_images_are_png_dataUris_witness :
  exists data,
    data <> []
    /\ pngDataUri (lit "iVBORw0KGgo=") = pngDataUri data
    /\ cleanBase64 (pngDataUri (lit "iVBORw0KGgo=")) = data.
Proof.
  apply (service_images_are_png_dataUris
           (replying (imageReply (lit "iVBORw0KGgo="))) []
           (pngDataUri (lit "iVBORw0KGgo="))
           [GenerateContentCall (generateRequest (lit "A chart of solar power"))]).
  left. exists (lit "A chart of solar power"). reflexivity.
Defined.

(** X3. Editing or fixing an image that [generateInfographicImage] has
    returned sends the model exactly the payload it produced, declared as
    [image/jpeg], followed by the instruction: the prefix that was put
    around the payload is taken off again. *)
Theorem edit_sends_generated_payload
        (env : Env) (prompt instruction : jsstring) (log : list Event)
        (response : GenerateContentResponse.t) (data : jsstring) :
  generateContent env log (generateRequest prompt) = Resolved response ->
  carries response data ->
  let log1 := log ++ [GenerateContentCall (generateRequest prompt)] in
  let sent (text : jsstring) :=
    GenerateContentCall
      (GenerateContentParameters.mk EDIT_MODEL
         (Parts [Part.mk (Some (InlineData.mk (Some (lit "image/jpeg")) (Some data)))
                         None;
                 Part.mk None (Some text)])
         [] [IMAGE]) in
  exists image,
    generateInfographicImage env prompt log = Returned image log1
    /\ logOf (editInfographicImage env image instruction log1)
       = log1 ++ [sent instruction]
    /\ logOf (fixInfographicImage env image instruction log1)
       = log1 ++ [sent (fixPrompt instruction)].
Proof.
  intros Hreply Hdata log1 sent.
  destruct (generateInfographicImage_cases env prompt log) as (_ & Hc).
  cbv zeta in Hc. rewrite Hreply in Hc. unfold carries in Hdata.
  rewrite Hdata in Hc. destruct Hc as (_ & Hc).
  exists (pngDataUri data). split; [exact Hc|].
  destruct (editInfographicImage_cases env (pngDataUri data) instruction log1)
    as (He & _).
  destruct (fixInfographicImage_cases env (pngDataUri data) instruction log1)
    as (Hf & _).
  cbv zeta in He, Hf. rewrite He, Hf. unfold sent, imageAndText.
  rewrite cleanBase64_pngDataUri. split; reflexivity.
Qed.

Lemma edit_sends_generated_payload_witness :
  exists image,
    generateInfographicImage (replying (imageReply (lit "iVBORw0KGgo=")))
      (lit "A chart of solar power") []
    = Returned image [GenerateContentCall (generateRequest (lit "A chart of solar power"))]
    /\ image = pngDataUri (lit "iVBORw0KGgo=").
Proof.
  destruct (edit_sends_generated_payload
              (replying (imageReply (lit "iVBORw0KGgo=")))
              (lit "A chart of solar power") (lit "Make the title larger") []
              (imageReply (lit "iVBORw0KGgo=")) (lit "iVBORw0KGgo=")
              eq_refl eq_refl)
    as (image & Hrun & _).
  exists image. split; [exact Hrun|].
  vm_compute in Hrun. injection Hrun as <-. vm_compute. reflexivity.
Defined.

(** X4. Each of the three image functions makes exactly one outbound
    call, whatever the outcome, and never retries. It throws exactly
    when that call is rejected, with the rejection, or when the first
    part of the first candidate of the reply has no inline data or empty
    data, with its own message. *)
Theorem image_functions_call_once (env : Env) (log : list Event)
        (prompt current instruction : jsstring) :
  let failure (run : Result jsstring) (request : GenerateContentParameters.t)
              (message : jsstring) :=
    logOf run = log ++ [GenerateContentCall request]
    /\ (forall l, run <> Polling l)
    /\ forall e log',
         run = Threw e log' <->
         log' = log ++ [GenerateContentCall request]
         /\ (generateContent env log request = Rejected e
             \/ exists response,
                  generateContent env log request = Resolved response
                  /\ inlineDataOf (firstPartOf response) = None
                  /\ e = JsError message) in
  failure (generateInfographicImage env prompt log)
          (generateRequest prompt) (lit "Failed to generate image")
  /\ failure (editInfographicImage env current instruction log)
             (imageAndText current instruction) (lit "Failed to edit image")
  /\ failure (fixInfographicImage env current instruction log)
             (imageAndText current (fixPrompt instruction))
             (lit "Failed to fix image").
Proof.
  assert (Hall : forall (run : Result jsstring) request message,
    (logOf run = log ++ [GenerateContentCall request]
     /\ match generateContent env log request with
        | Rejected e => run = Threw e (log ++ [GenerateContentCall request])
        | Resolved response =>
            match inlineDataOf (firstPartOf response) with
            | Some data =>
                data <> []
                /\ run = Returned (pngDataUri data)
                           (log ++ [GenerateContentCall request])
            | None =>
                run = Threw (JsError message)
                        (log ++ [GenerateContentCall request])
            end
        end) ->
    logOf run = log ++ [GenerateContentCall request]
    /\ (forall l, run <> Polling l)
    /\ forall e log',
         run = Threw e log' <->
         log' = log ++ [GenerateContentCall request]
         /\ (generateContent env log request = Rejected e
             \/ exists response,
                  generateContent env log request = Resolved response
                  /\ inlineDataOf (firstPartOf response) = None
                  /\ e = JsError message)).
  { intros run request message (Hlog & Hc). split; [exact Hlog|].
    destruct (generateContent env log request) as [response|e0].
    - destruct (inlineDataOf (firstPartOf response)) as [data|] eqn:Hd.
      + destruct Hc as (_ & ->). split; [discriminate|].
        intros e log'. split; [discriminate|].
        intros (_ & [H | (r & H & Hn & _)]); [discriminate|].
        injection H as <-. congruence.
      + subst run. split; [discriminate|]. intros e log'. split.
        * intros H. injection H as <- <-. split; [reflexivity|].
          right. exists response. auto.
        * intros (-> & [H | (r & _ & _ & ->)]); [discriminate | reflexivity].
    - subst run. split; [discriminate|]. intros e log'. split.
      + intros H. injection H as <- <-. split; [reflexivity | now left].
      + intros (-> & [H | (r & H & _)]); [now injection H as -> | discriminate]. }
  intros failure. unfold failure. split; [|split]; apply Hall.
  - apply generateInfographicImage_cases.
  - apply editInfographicImage_cases.
  - apply fixInfographicImage_cases.
Qed.

(* ================================================================== *)
(** ** Beyond the claims: the video job *)
(* ================================================================== *)

(** Every way the polling loop can end, with what it has logged. *)
Lemma pollUntilDone_shape (fuel : nat) (env : Env) :
  forall (operation : Operation.t) (log : list Event),
  exists polled,
    Forall (fun o => Operation.done o = false) polled
    /\ length polled <= fuel
    /\ match pollUntilDone fuel env operation log with
       | Returned final log' =>
           log' = log ++ pollEvents polled /\ Operation.done final = true
       | Threw e log' =>
           exists o,
             Operation.done o = false
             /\ log' = log ++ pollEvents polled
                         ++ [SetTimeout POLL_INTERVAL; GetVideosOperationCall o]
       | Polling log' =>
           log' = log ++ pollEvents polled /\ length polled = fuel
       end.
Proof.
  induction fuel as [|fuel IH]; intros operation log; cbn [pollUntilDone];
    destruct (Operation.done operation) eqn:Hd.
  - exists []. repeat split;
      first [exact Hd | apply le_n | now rewrite app_nil_r | constructor].
  - exists []. repeat split;
      first [apply le_n | now rewrite app_nil_r | constructor].
  - exists []. repeat split;
      first [exact Hd | apply Nat.le_0_l | now rewrite app_nil_r | constructor].
  - unfold bind, sleep, await.
    destruct (getVideosOperation env (log ++ [SetTimeout POLL_INTERVAL]) operation)
      as [next|e].
    + destruct (IH next ((log ++ [SetTimeout POLL_INTERVAL])
                           ++ [GetVideosOperationCall operation]))
        as (polled & Hall & Hlen & Hrun).
      exists (operation :: polled).
      split; [now constructor|]. split; [simpl; lia|].
      rewrite pollEvents_cons.
      destruct (pollUntilDone fuel env next _) as [final log'|e log'|log'].
      * destruct Hrun as (-> & Hdone). split; [|exact Hdone].
        rewrite <- !app_assoc. reflexivity.
      * destruct Hrun as (o & Ho & ->). exists o. split; [exact Ho|].
        rewrite <- !app_assoc. reflexivity.
      * destruct Hrun as (-> & Hl). split; [|simpl; lia].
        rewrite <- !app_assoc. reflexivity.
    + exists []. split; [constructor|]. split; [apply Nat.le_0_l|].
      exists operation. split; [exact Hd|].
      rewrite <- app_assoc. reflexivity.
Qed.

Lemma pollUntilDone_stuck (env : Env) :
  (forall l o, exists next,
      getVideosOperation env l o = Resolved next
      /\ Operation.done next = false) ->
  forall fuel operation log,
    Operation.done operation = false ->
    exists polled,
      pollUntilDone fuel env operation log = Polling (log ++ pollEvents polled)
      /\ length polled = fuel.
Proof.
  intros Hstuck. induction fuel as [|fuel IH]; intros operation log Hd;
    cbn [pollUntilDone]; rewrite Hd.
  - exists []. split; [unfold outOfFuel; now rewrite app_nil_r | reflexivity].
  - unfold bind, sleep, await.
    destruct (Hstuck (log ++ [SetTimeout POLL_INTERVAL]) operation)
      as (next & -> & Hn).
    destruct (IH next ((log ++ [SetTimeout POLL_INTERVAL])
                         ++ [GetVideosOperationCall operation]) Hn)
      as (polled & -> & Hl).
    exists (operation :: polled). split; [|simpl; now rewrite Hl].
    rewrite pollEvents_cons, <- !app_assoc. reflexivity.
Qed.

(** X5. The polling loop has no limit of its own: for a job that is not
    done at submission and for which every status query answers with a
    handle that is not done, [generateVideoFromImage] neither returns
    nor throws, however many turns it is given; after [fuel] turns it has
    issued [fuel] status queries and is still polling. *)
Theorem polling_never_gives_up
        (fuel : nat) (env : Env) (imageBase64 : jsstring)
        (style : option jsstring) (log : list Event) (submitted : Operation.t) :
  let request := videoRequest imageBase64 (styleOrDefault style) in
  generateVideos env log request = Resolved submitted ->
  Operation.done submitted = false ->
  (forall l o, exists next,
      getVideosOperation env l o = Resolved next
      /\ Operation.done next = false) ->
  exists polled,
    generateVideoFromImage fuel env imageBase64 style log
    = Polling (log ++ [GenerateVideosCall request] ++ pollEvents polled)
    /\ length polled = fuel
    /\ length (List.filter isStatusQuery (pollEvents polled)) = fuel.
Proof.
  intros request Hsub Hd Hstuck.
  destruct (pollUntilDone_stuck env Hstuck fuel submitted
              (log ++ [GenerateVideosCall request]) Hd) as (polled & Hrun & Hl).
  exists polled.
  pose proof (generateVideoFromImage_cases fuel env imageBase64 style log) as Hc.
  cbv zeta in Hc. fold request in Hc. rewrite Hsub, Hrun in Hc.
  split; [now rewrite Hc, <- app_assoc|]. split; [exact Hl|].
  rewrite <- Hl. clear. induction polled as [|o polled IH]; [reflexivity|].
  rewrite pollEvents_cons. simpl. now rewrite IH.
Qed.

Lemma polling_never_gives_up_witness :
  exists polled,
    generateVideoFromImage 7 stuckService pngImage None []
    = Polling ([] ++ [GenerateVideosCall (videoRequest pngImage (lit "Cinematic"))]
                 ++ pollEvents polled)
    /\ length polled = 7
    /\ length (List.filter isStatusQuery (pollEvents polled)) = 7.
Proof.
  apply (polling_never_gives_up 7 stuckService pngImage None [] pendingJob).
  - reflexivity.
  - reflexivity.
  - intros l o. exists pendingJob. split; reflexivity.
Defined.

(** X6. What [generateVideoFromImage] sends, however it ends: first the
    submission; then, for each handle the polling loop went through, none
    of them done, a pause of the fixed interval and a status query; and
    last, at most once, the fetch of the asset, which happens only when
    the handle the loop has come to is done and has a locator that is not
    empty. Nothing is sent after a rejected submission or a rejected
    status query, and nothing but the fetch after a done handle. *)
Theorem video_calls_in_order
        (fuel : nat) (env : Env) (imageBase64 : jsstring)
        (style : option jsstring) (log : list Event) :
  let request := videoRequest imageBase64 (styleOrDefault style) in
  let log0 := log ++ [GenerateVideosCall request] in
  let run := generateVideoFromImage fuel env imageBase64 style log in
  exists polled last,
    logOf run = log ++ [GenerateVideosCall request] ++ pollEvents polled ++ last
    /\ Forall (fun o => Operation.done o = false) polled
    /\ length polled <= fuel
    /\ match generateVideos env log request with
       | Rejected e => polled = [] /\ last = [] /\ run = Threw e log0
       | Resolved submitted =>
           exists current,
             reaches env submitted log0 polled current
             /\ ((last = []
                  /\ Operation.done current = false
                  /\ length polled = fuel
                  /\ run = Polling (log0 ++ pollEvents polled))
                 \/ (last = []
                     /\ Operation.done current = true
                     /\ truthy (downloadLinkOf current) = false
                     /\ run = Threw (JsError (lit "Video generation failed"))
                                (log0 ++ pollEvents polled))
                 \/ (exists e,
                       last = [SetTimeout POLL_INTERVAL;
                               GetVideosOperationCall current]
                       /\ Operation.done current = false
                       /\ getVideosOperation env
                            (log0 ++ pollEvents polled
                               ++ [SetTimeout POLL_INTERVAL]) current
                          = Rejected e
                       /\ run = Threw e (log0 ++ pollEvents polled ++ last))
                 \/ (exists link,
                       last = [FetchCall (assetUrl env link)]
                       /\ link <> []
                       /\ Operation.done current = true
                       /\ downloadLinkOf current = Some link))
       end.
Proof.
  intros request log0 run.
  pose proof (generateVideoFromImage_cases fuel env imageBase64 style log) as Hc.
  cbv zeta in Hc. fold request log0 run in Hc.
  destruct (generateVideos env log request) as [submitted|e].
  2:{ exists [], []. rewrite Hc. cbn [logOf pollEvents flat_map app].
      split; [reflexivity|]. split; [constructor|]. split; [apply Nat.le_0_l|].
      repeat split. }
  destruct (pollUntilDone_reaches fuel env submitted log0)
    as (polled & current & Hr & Hall & Hlen & Hrun).
  exists polled.
  destruct (pollUntilDone fuel env submitted log0) as [final log1|e log1|log1].
  - destruct Hrun as (-> & Hdone & ->).
    destruct (downloadLinkOf current) as [[|c s]|] eqn:Hlink.
    + exists []. rewrite Hc. cbn [logOf]. unfold log0.
      rewrite app_nil_r, <- app_assoc.
      split; [reflexivity|]. split; [exact Hall|]. split; [exact Hlen|].
      exists current. split; [exact Hr|]. right. left.
      rewrite <- ?app_assoc, Hlink. repeat split. exact Hdone.
    + exists [FetchCall (assetUrl env (c :: s))].
      assert (Hlog : logOf run
                     = (log0 ++ pollEvents polled)
                         ++ [FetchCall (assetUrl env (c :: s))]).
      { cbv zeta in Hc.
        destruct (fetch env _ (assetUrl env (c :: s))) as [response|e].
        - destruct (blob response); rewrite Hc; reflexivity.
        - rewrite Hc. reflexivity. }
      rewrite Hlog. unfold log0. rewrite <- !app_assoc.
      split; [reflexivity|]. split; [exact Hall|]. split; [exact Hlen|].
      exists current. split; [exact Hr|]. right. right. right. exists (c :: s).
      split; [reflexivity|]. split; [discriminate|]. split; [exact Hdone | exact Hlink].
    + exists []. rewrite Hc. cbn [logOf]. unfold log0.
      rewrite app_nil_r, <- app_assoc.
      split; [reflexivity|]. split; [exact Hall|]. split; [exact Hlen|].
      exists current. split; [exact Hr|]. right. left.
      rewrite <- ?app_assoc, Hlink. repeat split. exact Hdone.
  - destruct Hrun as (Hdone & _ & Hrej & ->).
    exists [SetTimeout POLL_INTERVAL; GetVideosOperationCall current].
    rewrite Hc. cbn [logOf]. unfold log0. rewrite <- !app_assoc.
    split; [reflexivity|]. split; [exact Hall|]. split; [exact Hlen|].
    exists current. split; [exact Hr|]. right. right. left. exists e.
    split; [reflexivity|]. split; [exact Hdone|].
    unfold log0 in Hrej. rewrite <- !app_assoc in Hrej.
    split; [exact Hrej | reflexivity].
  - destruct Hrun as (Hdone & Hl & ->). exists []. rewrite Hc. cbn [logOf].
    unfold log0. rewrite app_nil_r, <- app_assoc.
    split; [reflexivity|]. split; [exact Hall|]. split; [exact Hlen|].
    exists current. split; [exact Hr|]. left.
    rewrite <- ?app_assoc. repeat split; assumption.
Qed.


(* ================================================================== *)
(** ** Beyond the claims: research *)
(* ================================================================== *)

(** X8. [researchTopicForPrompt] throws exactly when its one outbound
    call is rejected, and then with that rejection; whatever the reply
    says, parsing it never throws. *)
Theorem research_fails_only_on_rejection
        (env : Env) (topic level style language : jsstring) (log : list Event) :
  let request :=
    researchRequest topic (getLevelInstruction level)
      (getStyleInstruction style) language in
  let run := researchTopicForPrompt env topic level style language log in
  (forall l, run <> Polling l)
  /\ (forall e log',
        run = Threw e log' <->
        generateContent env log request = Rejected e
        /\ log' = log ++ [GenerateContentCall request])
  /\ (forall result log',
        run = Returned result log' ->
        exists response,
          generateContent env log request = Resolved response
          /\ log' = log ++ [GenerateContentCall request]).
Proof.
  intros request run.
  destruct (generateContent env log request) as [response|e0] eqn:E.
  - destruct (research_returned env topic level style language log response E)
      as (raw & prompt & _ & _ & Hrun).
    fold run request in Hrun. rewrite Hrun.
    split; [discriminate|]. split.
    + intros e log'. split; [discriminate | intros [H _]; discriminate].
    + intros result log' H. injection H as _ <-. now exists response.
  - assert (Hrun : run = Threw e0 (log ++ [GenerateContentCall request])).
    { unfold run, researchTopicForPrompt, bind, await. fold request.
      now rewrite E. }
    rewrite Hrun. split; [discriminate|]. split.
    + intros e log'. split.
      * intros H. injection H as <- <-. split; reflexivity.
      * intros [H ->]. now injection H as ->.
    + discriminate.
Qed.

(** *** The FACTS block *)

(** The first match of a pattern that starts with a label and whose
    remainder always matches: none when the label is absent, otherwise at
    the first occurrence, with the capture the remainder computes. *)
Lemma execFrom_label_first (label : jsstring) (tl : regex)
      (P : jsstring -> option jsstring -> Prop) :
  (forall j post, exists st',
      m true tl (RegExp.mkState j post None) (fun st' => Some st') = Some st'
      /\ P post (cap st')) ->
  forall input i,
    (execFrom true (Cat (Str label) tl) i input = None
     /\ ~ occursFolded label input)
    \/ (exists pre mid post mr,
          firstOccurrence label input pre mid post
          /\ execFrom true (Cat (Str label) tl) i input = Some mr
          /\ P post (group1 mr)).
Proof.
  intros Htl. induction input as [|c s IH]; intros i.
  - cbn [execFrom]. rewrite m_Cat_Str. cbn [pos rest cap].
    destruct (matchStr true label []) as [post|] eqn:E.
    + right. destruct (Htl (i + length label) post) as (st' & Hst & HP).
      apply matchStr_folded in E as E'. destruct E' as (mid & Hin & Hm).
      exists [], mid, post. eexists. rewrite Hst.
      split; [|split; [reflexivity | exact HP]].
      split; [exact Hin|]. split; [exact Hm|]. intros; simpl; lia.
    + left. split; [reflexivity|].
      intros (pre & mid & post & Hin & Hm).
      destruct pre; [|discriminate].
      exact (matchStr_none_here _ _ E mid post Hin Hm).
  - cbn [execFrom]. rewrite m_Cat_Str. cbn [pos rest cap].
    destruct (matchStr true label (c :: s)) as [post|] eqn:E.
    + right. destruct (Htl (i + length label) post) as (st' & Hst & HP).
      apply matchStr_folded in E as E'. destruct E' as (mid & Hin & Hm).
      exists [], mid, post. eexists. rewrite Hst.
      split; [|split; [reflexivity | exact HP]].
      split; [exact Hin|]. split; [exact Hm|]. intros; simpl; lia.
    + destruct (IH (S i)) as [[Hn Hno] | (pre & mid & post & mr & Hf & He & HP)].
      * left. split; [exact Hn|].
        intros (pre & mid & post & Hin & Hm).
        destruct pre as [|c' pre].
        -- exact (matchStr_none_here _ _ E mid post Hin Hm).
        -- simpl in Hin. injection Hin as _ Hin. apply Hno.
           exists pre, mid, post. split; [exact Hin | exact Hm].
      * right. exists (c :: pre), mid, post, mr.
        destruct Hf as (Hin & Hm & Hfirst).
        split; [|split; [exact He | exact HP]].
        split; [simpl; now rewrite Hin|]. split; [exact Hm|].
        intros pre' mid' post' Hin' Hm'.
        destruct pre' as [|c' pre'].
        -- exfalso. exact (matchStr_none_here _ _ E mid' post' Hin' Hm').
        -- simpl in Hin'. injection Hin' as _ Hin'.
           specialize (Hfirst pre' mid' post' Hin' Hm'). simpl. lia.
Qed.

(** The lazy capture in front of the lookahead [(?=IMAGE_PROMPT:|$)]
    stops at the first IMAGE_PROMPT label, or at the end of the text. *)
Lemma starLazy_until_label (body : jsstring) (i0 : nat) (cp : option jsstring) :
  let k : cont :=
    fun st' =>
      m true (LookAhead (Alt (Str (lit "IMAGE_PROMPT:")) Eol))
        (RegExp.mkState (pos st') (rest st')
           (Some (firstn (pos st' - i0) body)))
        (fun st'' => Some st'') in
  forall input done,
    body = done ++ input ->
    exists st',
      starLazy spaceOrNotSpace k (i0 + length done) cp input = Some st'
      /\ ((~ occursFolded (lit "IMAGE_PROMPT:") input /\ cap st' = Some body)
          \/ (exists pre mid post,
                firstOccurrence (lit "IMAGE_PROMPT:") input pre mid post
                /\ cap st' = Some (done ++ pre))).
Proof.
  intros k.
  assert (Hcap : forall done input, body = done ++ input ->
             firstn (i0 + length done - i0) body = done).
  { intros done input ->. replace (i0 + length done - i0) with (length done) by lia.
    rewrite firstn_app, firstn_all, Nat.sub_diag. simpl. apply app_nil_r. }
  induction input as [|c s IH]; intros done Hbody.
  - eexists. split.
    + cbn [starLazy]. unfold k. cbn [m pos rest cap matchStr lit].
      vm_compute matchStr. reflexivity.
    + left. split.
      * apply not_occursFolded_nil. discriminate.
      * cbn [cap]. rewrite (Hcap done [] Hbody). rewrite Hbody.
        now rewrite app_nil_r.
  - cbn [starLazy]. unfold k at 1. cbn [m pos rest cap].
    destruct (matchStr true (lit "IMAGE_PROMPT:") (c :: s)) as [post|] eqn:E.
    + eexists. split; [reflexivity|]. right.
      apply matchStr_folded in E as (mid & Hin & Hm).
      exists [], mid, post. split.
      * split; [exact Hin|]. split; [exact Hm|]. intros; simpl; lia.
      * cbn [cap]. rewrite (Hcap done (c :: s) Hbody). now rewrite app_nil_r.
    + rewrite spaceOrNotSpace_true.
      destruct (IH (done ++ [c])) as (st' & Hrun & Hres).
      { rewrite Hbody, <- app_assoc. reflexivity. }
      rewrite length_app in Hrun. simpl in Hrun.
      replace (S (i0 + length done)) with (i0 + (length done + 1)) by lia.
      exists st'. split; [exact Hrun|].
      destruct Hres as [[Hno Hc] | (pre & mid & post & (Hin & Hm & Hfirst) & Hc)].
      * left. split; [|exact Hc].
        intros (pre & mid & post & Hin & Hm).
        destruct pre as [|c' pre].
        -- exact (matchStr_none_here _ _ E mid post Hin Hm).
        -- simpl in Hin. injection Hin as _ Hin. apply Hno.
           exists pre, mid, post. split; [exact Hin | exact Hm].
      * right. exists (c :: pre), mid, post. split.
        -- split; [simpl; now rewrite Hin|]. split; [exact Hm|].
           intros pre' mid' post' Hin' Hm'.
           destruct pre' as [|c' pre'].
           ++ exfalso. exact (matchStr_none_here _ _ E mid' post' Hin' Hm').
           ++ simpl in Hin'. injection Hin' as _ Hin'.
              specialize (Hfirst pre' mid' post' Hin' Hm'). simpl. lia.
        -- rewrite Hc, <- app_assoc. reflexivity.
Qed.

Lemma trimStart_split (s : jsstring) :
  exists ws, s = ws ++ trimStart s /\ forallb isSpace ws = true.
Proof.
  induction s as [|c s (ws & E & Hws)]; [exists []; split; reflexivity|].
  simpl. destruct (isSpace c) eqn:Hc.
  - exists (c :: ws). split; [simpl; now rewrite <- E | simpl; now rewrite Hc].
  - exists []. split; reflexivity.
Qed.

Lemma trimStart_spaces_app (ws s : jsstring) :
  forallb isSpace ws = true -> trimStart (ws ++ s) = trimStart s.
Proof.
  induction ws as [|c ws IH]; [reflexivity|]. simpl.
  intros H. apply andb_prop in H as [-> H]. now apply IH.
Qed.

Lemma trimStart_app_inked (pre : jsstring) (c : code_unit) (s : jsstring) :
  isSpace c = false -> trimStart (pre ++ c :: s) = trimStart pre ++ c :: s.
Proof.
  intros Hc. induction pre as [|d pre IH]; simpl.
  - now rewrite Hc.
  - destruct (isSpace d); [exact IH | reflexivity].
Qed.

Lemma trimStart_fixed (c : code_unit) (s : jsstring) :
  isSpace c = false -> trimStart (c :: s) = c :: s.
Proof. intros Hc. simpl. now rewrite Hc. Qed.

(** A spelling of the IMAGE_PROMPT label starts with a letter. *)
Lemma prompt_label_head (mid : jsstring) :
  sameFolded mid (lit "IMAGE_PROMPT:") ->
  exists c t, mid = c :: t /\ isSpace c = false.
Proof.
  unfold sameFolded. destruct mid as [|c t]; [discriminate|].
  intros H. injection H as Hc _. exists c, t. split; [reflexivity|].
  destruct (canonicalize_cases c 73%N eq_refl Hc) as [-> | [-> _]]; reflexivity.
Qed.

(** The first IMAGE_PROMPT label of a text and of the text without its
    leading white space are the same one. *)
Lemma firstOccurrence_trimStart (text pre' mid post : jsstring) :
  firstOccurrence (lit "IMAGE_PROMPT:") (trimStart text) pre' mid post ->
  exists pre,
    firstOccurrence (lit "IMAGE_PROMPT:") text pre mid post
    /\ trim pre = trim pre'.
Proof.
  intros (Hin & Hm & Hfirst).
  destruct (trimStart_split text) as (ws & Htext & Hws).
  exists (ws ++ pre'). split.
  - split; [rewrite Htext at 1; rewrite Hin; now rewrite <- app_assoc|].
    split; [exact Hm|].
    intros p m' q Hp Hm'.
    destruct (prompt_label_head m' Hm') as (c & t & -> & Hc).
    assert (Hb : trimStart text = trimStart p ++ (c :: t) ++ q).
    { rewrite Hp. simpl. now apply trimStart_app_inked. }
    specialize (Hfirst (trimStart p) (c :: t) q Hb Hm').
    apply (f_equal (@length code_unit)) in Hp, Htext.
    rewrite Hb in Htext. rewrite !length_app in *. lia.
  - unfold trim. now rewrite trimStart_spaces_app.
Qed.

Lemma not_occursFolded_trimStart (text : jsstring) :
  ~ occursFolded (lit "IMAGE_PROMPT:") (trimStart text) ->
  ~ occursFolded (lit "IMAGE_PROMPT:") text.
Proof.
  intros Hno (pre & mid & post & Hin & Hm). apply Hno.
  destruct (prompt_label_head mid Hm) as (c & t & -> & Hc).
  exists (trimStart pre), (c :: t), post. split; [|exact Hm].
  rewrite Hin. simpl. now apply trimStart_app_inked.
Qed.

(** What follows the FACTS label in its pattern always matches; the
    capture ends at the first IMAGE_PROMPT label after it, or at the end
    of the text. *)
Lemma factsTail_matches (j : nat) (text : jsstring) :
  exists st',
    m true
      (Cat (StarGreedy isSpace)
         (Cat (Group (StarLazy spaceOrNotSpace))
            (LookAhead (Alt (Str (lit "IMAGE_PROMPT:")) Eol))))
      (RegExp.mkState j text None) (fun st' => Some st') = Some st'
    /\ exists block,
         cap st' = Some block
         /\ ((~ occursFolded (lit "IMAGE_PROMPT:") text /\ trim block = trim text)
             \/ (exists pre mid post,
                   firstOccurrence (lit "IMAGE_PROMPT:") text pre mid post
                   /\ trim block = trim pre)).
Proof.
  set (j' := j + (length text - length (trimStart text))).
  destruct (starLazy_until_label (trimStart text) j' None (trimStart text) []
              eq_refl) as (st' & Hrun & Hres).
  exists st'. split.
  - cbn [m pos rest cap]. apply starGreedy_spaces. fold j'.
    cbn [pos rest cap]. simpl length in Hrun. rewrite Nat.add_0_r in Hrun.
    exact Hrun.
  - destruct Hres as [[Hno Hc] | (pre & mid & post & Hf & Hc)].
    + exists (trimStart text). split; [exact Hc|]. left.
      split; [now apply not_occursFolded_trimStart | apply trim_trimStart].
    + exists pre. split; [exact Hc|]. right.
      destruct (firstOccurrence_trimStart text pre mid post Hf) as (p & Hp & Ht).
      exists p, mid, post. split; [exact Hp | now symmetry].
Qed.

Lemma factsRaw_block (text : jsstring) :
  (~ occursFolded (lit "FACTS:") text /\ factsRaw text = Resolved [])
  \/ (exists before label after,
        firstOccurrence (lit "FACTS:") text before label after
        /\ ((~ occursFolded (lit "IMAGE_PROMPT:") after
             /\ factsRaw text = Resolved (trim after))
            \/ (exists block mid post,
                  firstOccurrence (lit "IMAGE_PROMPT:") after block mid post
                  /\ factsRaw text = Resolved (trim block)))).
Proof.
  unfold factsRaw, factsMatch, exec, factsRegex.
  destruct (execFrom_label_first (lit "FACTS:") _
              (fun after c =>
                 exists block,
                   c = Some block
                   /\ ((~ occursFolded (lit "IMAGE_PROMPT:") after
                        /\ trim block = trim after)
                       \/ (exists pre mid post,
                             firstOccurrence (lit "IMAGE_PROMPT:") after pre mid post
                             /\ trim block = trim pre)))
              (fun j post => factsTail_matches j post) text 0)
    as [[-> Hno] | (before & label & after & mr & Hf & -> & block & Hg & HP)].
  - left. split; [exact Hno | reflexivity].
  - right. exists before, label, after. split; [exact Hf|].
    unfold group1Trimmed. rewrite Hg.
    destruct HP as [[Hno ->] | (pre & mid & post & Hp & ->)].
    + left. split; [exact Hno | reflexivity].
    + right. exists pre, mid, post. split; [exact Hp | reflexivity].
Qed.

(** X9. The facts are read from one block of the reply: the text after
    the first FACTS label, up to the first IMAGE_PROMPT label that
    follows it, or to the end of the reply when none follows. Text in
    front of the FACTS label, and an IMAGE_PROMPT label in front of it,
    play no part. *)
Theorem facts_come_from_the_facts_block
        (env : Env) (topic level style language : jsstring)
        (log : list Event) (response : GenerateContentResponse.t) :
  let request :=
    researchRequest topic (getLevelInstruction level)
      (getStyleInstruction style) language in
  generateContent env log request = Resolved response ->
  exists result block,
    researchTopicForPrompt env topic level style language log
      = Returned result (log ++ [GenerateContentCall request])
    /\ facts result = firstn 5 (factLines (trim block))
    /\ ((~ occursFolded (lit "FACTS:") (textOf response) /\ block = [])
        \/ (exists before label after,
              firstOccurrence (lit "FACTS:") (textOf response) before label after
              /\ ((~ occursFolded (lit "IMAGE_PROMPT:") after /\ block = after)
                  \/ (exists mid post,
                        firstOccurrence (lit "IMAGE_PROMPT:") after block mid post)))).
Proof.
  intros request Hreply.
  destruct (research_returned env topic level style language log response Hreply)
    as (raw & prompt & Hraw & _ & Hrun).
  fold request in Hrun.
  destruct (factsRaw_block (textOf response))
    as [[Hno H] | (before & label & after & Hf & [[Hno H] | (block & mid & post & Hp & H)])];
    rewrite H in Hraw; injection Hraw as <-.
  - eexists. exists []. split; [exact Hrun|]. split; [reflexivity|]. now left.
  - eexists. exists after. split; [exact Hrun|]. split; [reflexivity|].
    right. exists before, label, after. split; [exact Hf|]. now left.
  - eexists. exists block. split; [exact Hrun|]. split; [reflexivity|].
    right. exists before, label, after. split; [exact Hf|].
    right. now exists mid, post.
Qed.

Lemma facts_come_from_the_facts_block_witness :
  exists result block,
    researchTopicForPrompt (replying (textReply sevenFacts)) (lit "Solar power")
      (lit "Investor") (lit "Broadcast") (lit "English") []
      = Returned result
          ([] ++ [GenerateContentCall
                    (researchRequest (lit "Solar power")
                       (getLevelInstruction (lit "Investor"))
                       (getStyleInstruction (lit "Broadcast")) (lit "English"))])
    /\ facts result = firstn 5 (factLines (trim block)).
Proof.
  destruct (facts_come_from_the_facts_block (replying (textReply sevenFacts))
              (lit "Solar power") (lit "Investor") (lit "Broadcast")
              (lit "English") [] (textReply sevenFacts) eq_refl)
    as (result & block & Hrun & Hfacts & _).
  exists result, block. split; [exact Hrun | exact Hfacts].
Defined.

(** *** Each fact *)

Lemma includes_refl (s : jsstring) : includes s s.
Proof. exists [], []. now rewrite app_nil_r. Qed.

Lemma includes_trans (s t u : jsstring) :
  includes s t -> includes t u -> includes s u.
Proof.
  intros (a & b & ->) (c & d & ->). exists (a ++ c), (d ++ b).
  now rewrite <- !app_assoc.
Qed.

Lemma includes_In (s t : jsstring) (c : code_unit) :
  includes s t -> In c t -> In c s.
Proof.
  intros (a & b & ->) H. apply in_or_app. right. apply in_or_app. now left.
Qed.

Lemma includes_trimStart (s : jsstring) : includes s (trimStart s).
Proof.
  destruct (trimStart_split s) as (ws & E & _). exists ws, [].
  now rewrite app_nil_r.
Qed.

Lemma includes_rev (s t : jsstring) : includes s t -> includes (rev s) (rev t).
Proof.
  intros (a & b & ->). exists (rev b), (rev a).
  now rewrite !rev_app_distr, <- app_assoc.
Qed.

Lemma includes_trim (s : jsstring) : includes s (trim s).
Proof.
  unfold trim, trimEnd.
  apply includes_trans with (trimStart s); [apply includes_trimStart|].
  rewrite <- (rev_involutive (trimStart s)) at 1.
  apply includes_rev, includes_trimStart.
Qed.

Lemma trimStart_head (s : jsstring) (c : code_unit) (t : jsstring) :
  trimStart s = c :: t -> isSpace c = false.
Proof.
  induction s as [|d s IH]; simpl; [discriminate|].
  destruct (isSpace d) eqn:E; [exact IH|].
  intros H. now injection H as <- _.
Qed.

Lemma trim_idem (s : jsstring) : trim (trim s) = trim s.
Proof.
  assert (Hend : trimEnd (trim s) = trim s).
  { unfold trim, trimEnd. now rewrite rev_involutive, trimStart_idem. }
  assert (Hstart : trimStart (trim s) = trim s).
  { unfold trim, trimEnd.
    destruct (trimStart_split (rev (trimStart s))) as (ws & E & _).
    destruct (rev (trimStart (rev (trimStart s)))) as [|c t] eqn:Hb;
      [reflexivity|].
    apply (f_equal (@rev code_unit)) in E.
    rewrite rev_involutive, rev_app_distr, Hb in E. simpl in E.
    apply trimStart_head in E. simpl. now rewrite E. }
  unfold trim at 1. now rewrite Hstart.
Qed.

(** [split] cuts at the first separator and goes on with the rest. *)
Lemma split_first (sep : code_unit) (s : jsstring) :
  exists first others,
    split sep s = first :: others
    /\ ~ In sep first
    /\ ((others = [] /\ s = first)
        \/ (exists s', s = first ++ sep :: s' /\ others = split sep s')).
Proof.
  induction s as [|c s (first & others & E & Hno & Hrest)].
  - exists [], []. split; [reflexivity|]. split; [intros []|]. now left.
  - simpl. destruct (N.eqb_spec c sep) as [->|Hne].
    + exists [], (split sep s). split; [reflexivity|]. split; [intros []|].
      right. now exists s.
    + rewrite E. exists (c :: first), others. split; [reflexivity|].
      split; [intros [H|H]; [congruence | now apply Hno]|].
      destruct Hrest as [[-> ->] | (s' & -> & ->)]; [now left|].
      right. now exists s'.
Qed.

Lemma split_pieces (sep : code_unit) (s piece : jsstring) :
  In piece (split sep s) -> includes s piece /\ ~ In sep piece.
Proof.
  remember (length s) as n eqn:Hn. revert s Hn piece.
  induction n as [n IH] using lt_wf_ind. intros s Hn piece Hin.
  destruct (split_first sep s) as (first & others & E & Hno & Hrest).
  rewrite E in Hin. destruct Hin as [<-|Hin].
  - split; [|exact Hno].
    destruct Hrest as [[_ ->] | (s' & -> & _)];
      [apply includes_refl | apply includes_head].
  - destruct Hrest as [[-> _] | (s' & -> & ->)]; [destruct Hin|].
    destruct (IH (length s')) with (s := s') (piece := piece)
      as (Hinc & Hnp); [|reflexivity|exact Hin|].
    + subst n. rewrite length_app. simpl. lia.
    + split; [|exact Hnp].
      apply includes_trans with s'; [|exact Hinc].
      exists (first ++ [sep]), []. now rewrite app_nil_r, <- app_assoc.
Qed.

(** Taking the bullet off a line leaves a piece of the line. *)
Lemma includes_bullet_replace (f : jsstring) :
  includes f (replace false bulletRegex [] f).
Proof.
  unfold replace, bulletRegex. rewrite exec_Bol.
  destruct (m false _ _ _) as [st'|]; [|apply includes_refl].
  cbn [index matched app firstn].
  eexists (firstn _ f), []. rewrite app_nil_r. symmetry. apply firstn_skipn.
Qed.

Lemma factLines_pieces (raw fact : jsstring) :
  In fact (factLines raw) ->
  fact <> [] /\ trim fact = fact /\ ~ In LF fact /\ includes raw fact.
Proof.
  unfold factLines. intros H. apply filter_In in H as [H Hlen].
  apply in_map_iff in H as (piece & <- & Hp).
  apply split_pieces in Hp as (Hinc & Hno).
  assert (Hsub : includes piece (trim (replace false bulletRegex [] piece))).
  { apply includes_trans with (replace false bulletRegex [] piece);
      [apply includes_bullet_replace | apply includes_trim]. }
  split; [intros E; rewrite E in Hlen; discriminate|].
  split; [apply trim_idem|]. split.
  - intros Hlf. apply Hno. exact (includes_In _ _ _ Hsub Hlf).
  - exact (includes_trans _ _ _ Hinc Hsub).
Qed.

Lemma factsRaw_includes (text raw : jsstring) :
  factsRaw text = Resolved raw -> includes text raw.
Proof.
  intros H.
  destruct (factsRaw_block text)
    as [[_ E] | (before & label & after & (Hin & _) & [[_ E] | (block & mid & post & (Hb & _) & E)])];
    rewrite E in H; injection H as <-.
  - exists [], text. reflexivity.
  - apply includes_trans with after; [|apply includes_trim].
    exists (before ++ label), []. now rewrite app_nil_r, <- app_assoc.
  - apply includes_trans with block; [|apply includes_trim].
    exists (before ++ label), (mid ++ post).
    rewrite Hin, Hb, <- !app_assoc. reflexivity.
Qed.

(** X10. Every fact of a research result is a single line taken
    verbatim from the reply: it occurs in the reply text, contains no
    line feed, has no white space at either end, and is not empty. *)
Theorem facts_are_trimmed_lines_of_the_reply
        (env : Env) (topic level style language : jsstring)
        (log : list Event) (response : GenerateContentResponse.t) :
  let request :=
    researchRequest topic (getLevelInstruction level)
      (getStyleInstruction style) language in
  generateContent env log request = Resolved response ->
  exists result,
    researchTopicForPrompt env topic level style language log
      = Returned result (log ++ [GenerateContentCall request])
    /\ forall fact,
         In fact (facts result) ->
         fact <> []
         /\ trim fact = fact
         /\ ~ In LF fact
         /\ includes (textOf response) fact.
Proof.
  intros request Hreply.
  destruct (research_returned env topic level style language log response Hreply)
    as (raw & prompt & Hraw & _ & Hrun).
  eexists. split; [exact Hrun|]. cbn [facts]. intros fact Hin.
  apply In_firstn in Hin. apply factLines_pieces in Hin as (H1 & H2 & H3 & H4).
  repeat split; try assumption.
  apply includes_trans with raw; [now apply factsRaw_includes | exact H4].
Qed.

Lemma facts_are_trimmed_lines_of_the_reply_witness :
  exists result,
    researchTopicForPrompt (replying (textReply sevenFacts)) (lit "Solar power")
      (lit "Investor") (lit "Broadcast") (lit "English") []
      = Returned result
          ([] ++ [GenerateContentCall
                    (researchRequest (lit "Solar power")
                       (getLevelInstruction (lit "Investor"))
                       (getStyleInstruction (lit "Broadcast")) (lit "English"))])
    /\ forall fact,
         In fact (facts result) ->
         fact <> []
         /\ trim fact = fact
         /\ ~ In LF fact
         /\ includes (textOf (textReply sevenFacts)) fact.
Proof.
  exact (facts_are_trimmed_lines_of_the_reply (replying (textReply sevenFacts))
           (lit "Solar power") (lit "Investor") (lit "Broadcast")
           (lit "English") [] (textReply sevenFacts) eq_refl).
Defined.

(** *** De-duplication *)

Lemma In_dedupFirst (ks : list jsstring) (k : jsstring) :
  In k (dedupFirst ks) <-> In k ks.
Proof.
  induction ks as [|k0 ks IH]; simpl; [tauto|].
  rewrite filter_In, IH. destruct (eqb_spec k k0) as [->|Hne]; simpl.
  - split; [intros [H|[_ H]]; [now left | discriminate] | intros _; now left].
  - split; [intros [H|[H _]]; [now left | now right]|].
    intros [H|H]; [now left | right; now split].
Qed.

Lemma length_dedupFirst (ks : list jsstring) :
  length (dedupFirst ks) <= length ks.
Proof.
  induction ks as [|k ks IH]; simpl; [apply le_n|].
  pose proof (filter_length_le (fun x => negb (eqb x k)) (dedupFirst ks)). lia.
Qed.

(** Setting keys that are all new and all different appends them. *)
Lemma fold_set_fresh {V : Type} (entries : list (jsstring * V)) :
  forall acc : JsMap.t V,
    NoDup (List.map fst acc ++ List.map fst entries) ->
    fold_left (fun mp e => JsMap.set (fst e) (snd e) mp) entries acc
    = acc ++ entries.
Proof.
  induction entries as [|[k v] entries IH]; intros acc Hnd; simpl.
  - now rewrite app_nil_r.
  - assert (Hset : JsMap.set k v acc = acc ++ [(k, v)]).
    { assert (Hk : ~ In k (List.map fst acc)).
      { intros H. apply NoDup_remove_2 in Hnd. apply Hnd.
        apply in_or_app. now left. }
      clear - Hk. induction acc as [|[k' v'] acc IHa]; simpl; [reflexivity|].
      destruct (eqb_spec k' k) as [->|_].
      - exfalso. apply Hk. now left.
      - rewrite IHa; [reflexivity|]. intros H. apply Hk. now right. }
    rewrite Hset, IH.
    + now rewrite <- app_assoc.
    + rewrite map_app, <- app_assoc. exact Hnd.
Qed.

(** X11. De-duplication loses no url and adds nothing: the urls of
    [uniqueResults items] are exactly the urls of [items], every item
    kept is one of [items], and there are no more of them. A list whose
    urls are all different comes back as it is, so de-duplicating twice
    is the same as once. *)
Theorem uniqueResults_keeps_every_url (items : list SearchResultItem) :
  (forall u, In u (List.map url (uniqueResults items)) <-> In u (List.map url items))
  /\ (forall item, In item (uniqueResults items) -> In item items)
  /\ length (uniqueResults items) <= length items
  /\ (NoDup (List.map url items) -> uniqueResults items = items)
  /\ uniqueResults (uniqueResults items) = uniqueResults items.
Proof.
  assert (Hid : forall l, NoDup (List.map url l) -> uniqueResults l = l).
  { intros l Hnd. unfold uniqueResults, JsMap.ofEntries, JsMap.values.
    rewrite fold_set_fresh.
    - simpl. rewrite map_map. simpl. apply map_id.
    - simpl. rewrite map_map. exact Hnd. }
  split; [|split; [|split; [|split]]].
  - intros u. rewrite uniqueResults_urls. apply In_dedupFirst.
  - intros item H. apply uniqueResults_last in H as (pre & post & -> & _).
    apply in_or_app. right. now left.
  - rewrite <- (length_map url (uniqueResults items)), uniqueResults_urls.
    rewrite <- (length_map url items). apply length_dedupFirst.
  - apply Hid.
  - apply Hid. rewrite uniqueResults_urls. apply NoDup_dedupFirst.
Qed.

(* ================================================================== *)
(** ** Beyond the claims: the Infographic component *)
(* ================================================================== *)

Lemma zoomStops_in (z : float) :
  In z zoomStops ->
  In (Infographic.zoomInUpdater z) zoomStops
  /\ In (Infographic.zoomOutUpdater z) zoomStops.
Proof.
  unfold zoomStops. intros H.
  repeat (destruct H as [<-|H];
          [split; vm_compute; repeat (first [left; reflexivity | right])|]).
  destruct H.
Qed.

(** X12. The zoom level of the viewer stays on the eight stops 0.5, 1,
    ..., 4 whatever the user does: zooming in stops at 4, zooming out at
    0.5, and between the two ends a zoom in is undone by a zoom out. *)
Theorem zoom_stays_in_range (s : Infographic.State) :
  reachable s ->
  let z := Infographic.zoomLevel s in
  In z zoomStops
  /\ PrimFloat.leb 0.5 z = true
  /\ PrimFloat.leb z 4 = true
  /\ Infographic.zoomInUpdater 4 = 4%float
  /\ Infographic.zoomOutUpdater 0.5 = 0.5%float
  /\ (z <> 4%float ->
      Infographic.zoomOutUpdater (Infographic.zoomInUpdater z) = z)
  /\ (z <> 0.5%float ->
      Infographic.zoomInUpdater (Infographic.zoomOutUpdater z) = z).
Proof.
  intros Hr z.
  assert (Hin : In z zoomStops).
  { unfold z. clear z. induction Hr as [|s _ IH|s _ IH|s _ IH|s _ IH|s s' _ IH E].
    - vm_compute. right. now left.
    - apply (zoomStops_in _ IH).
    - apply (zoomStops_in _ IH).
    - vm_compute. right. now left.
    - vm_compute. right. now left.
    - now rewrite E. }
  split; [exact Hin|]. clearbody z. clear Hr. unfold zoomStops in Hin.
  repeat (destruct Hin as [<-|Hin];
          [repeat split; try reflexivity; intros H; try reflexivity;
           exfalso; now apply H|]).
  destruct Hin.
Qed.

Lemma zoom_stays_in_range_witness :
  In (Infographic.zoomLevel
        (Infographic.handleZoomIn (Infographic.handleZoomIn Infographic.initialState)))
     zoomStops.
Proof.
  apply (zoom_stays_in_range
           (Infographic.handleZoomIn
              (Infographic.handleZoomIn Infographic.initialState))).
  apply reach_zoomIn, reach_zoomIn, reach_initial.
Defined.

(** X13. [handleSubmit] always prevents the default submission. It
    hands the prompt to [onEdit], as typed, and clears the field exactly
    when the prompt has a character that is not white space; a blank
    prompt changes nothing, so [onEdit] never sees one. *)
Theorem handleSubmit_ignores_blank_prompts (s : Infographic.State) :
  let s' := fst (Infographic.handleSubmit s) in
  let effects := snd (Infographic.handleSubmit s) in
  In Infographic.PreventDefault effects
  /\ (forall p, In (Infographic.OnEdit p) effects ->
                p = Infographic.editPrompt s /\ hasInk p = true)
  /\ (hasInk (Infographic.editPrompt s) = true ->
      effects = [Infographic.PreventDefault;
                 Infographic.OnEdit (Infographic.editPrompt s)]
      /\ s' = Infographic.mkState [] (Infographic.isFullscreen s)
                (Infographic.zoomLevel s) (Infographic.showShareModal s)
                (Infographic.copyStatus s) (Infographic.isAnimating s)
                (Infographic.showVideoModal s) (Infographic.videoUrl s)
                (Infographic.videoStyle s))
  /\ (hasInk (Infographic.editPrompt s) = false ->
      effects = [Infographic.PreventDefault] /\ s' = s).
Proof.
  cbv zeta. unfold Infographic.handleSubmit.
  pose proof (trim_nil_iff (Infographic.editPrompt s)) as Hnil.
  destruct (trim (Infographic.editPrompt s)) as [|c t] eqn:E; cbn [fst snd].
  - assert (Hb : hasInk (Infographic.editPrompt s) = false) by now apply Hnil.
    split; [now left|]. split; [intros p [H|[]]; discriminate|].
    split; [intros H; congruence | intros _; split; reflexivity].
  - assert (Hb : hasInk (Infographic.editPrompt s) = true).
    { destruct (hasInk (Infographic.editPrompt s)); [reflexivity|].
      destruct Hnil as [_ H]. discriminate (H eq_refl). }
    split; [now left|]. split.
    + intros p [H|[H|[]]]; [discriminate|]. injection H as <-. now split.
    + split; [intros _; split; reflexivity | intros H; congruence].
Qed.

(** *** From a data URI to a Blob *)

Lemma split_no_sep (sep : code_unit) (a : jsstring) :
  ~ In sep a -> split sep a = [a].
Proof.
  induction a as [|c a IH]; [reflexivity|]. intros H. simpl.
  destruct (N.eqb_spec c sep) as [->|_]; [exfalso; apply H; now left|].
  rewrite IH; [reflexivity|]. intros Hin. apply H. now right.
Qed.

Lemma split_at_sep (sep : code_unit) (a b : jsstring) :
  ~ In sep a -> split sep (a ++ sep :: b) = a :: split sep b.
Proof.
  induction a as [|c a IH]; intros H; simpl.
  - now rewrite N.eqb_refl.
  - destruct (N.eqb_spec c sep) as [->|_]; [exfalso; apply H; now left|].
    rewrite IH; [reflexivity|]. intros Hin. apply H. now right.
Qed.

Lemma not_In_app (c : code_unit) (a b : jsstring) :
  ~ In c a -> ~ In c b -> ~ In c (a ++ b).
Proof. intros Ha Hb H. apply in_app_or in H as [H|H]; auto. Qed.

(** X14. For a data URI [data:image/<mime>;base64,<payload>] whose mime
    has no comma, colon or semicolon and whose payload has no comma,
    [dataURItoBlob] decodes exactly the payload and gives the Blob the
    type [image/<mime>]; it throws what [atob] throws. For png, jpeg and
    jpg the text it decodes is the one [cleanBase64] sends to the model. *)
Theorem dataURItoBlob_of_dataUri
        (browser : Infographic.Browser) (mime payload : jsstring) :
  ~ In Infographic.COMMA mime ->
  ~ In Infographic.COLON mime ->
  ~ In Infographic.SEMICOLON mime ->
  ~ In Infographic.COMMA payload ->
  Infographic.dataURItoBlob browser (dataUri mime payload)
  = match Infographic.atob browser payload with
    | Resolved byteString =>
        Resolved (Infographic.mkBlob
                    (List.map (fun c => (c mod 256)%N) byteString)
                    (Infographic.blobType (lit "image/" ++ mime)))
    | Rejected e => Rejected e
    end
  /\ (In mime [lit "png"; lit "jpeg"; lit "jpg"] ->
      cleanBase64 (dataUri mime payload) = payload
      /\ Infographic.blobType (lit "image/" ++ mime) = lit "image/" ++ mime).
Proof.
  intros Hcomma Hcolon Hsemi Hpay. split.
  - unfold Infographic.dataURItoBlob.
    assert (Huri : dataUri mime payload
                   = (lit "data" ++ Infographic.COLON
                        :: (lit "image/" ++ mime) ++ Infographic.SEMICOLON
                        :: lit "base64")
                       ++ Infographic.COMMA :: payload).
    { unfold dataUri.
      change (lit "data:image/")
        with (lit "data" ++ Infographic.COLON :: lit "image/").
      change (lit ";base64,")
        with (Infographic.SEMICOLON :: lit "base64" ++ [Infographic.COMMA]).
      rewrite <- !app_assoc. simpl. rewrite <- !app_assoc. reflexivity. }
    rewrite Huri, split_at_sep.
    2:{ apply not_In_app; [vm_compute; intuition discriminate|].
        intros [H|H]; [discriminate|].
        rewrite <- app_assoc in H. apply in_app_or in H as [H|H];
          [vm_compute in H; intuition discriminate|].
        apply in_app_or in H as [H|H]; [now apply Hcomma|].
        vm_compute in H. intuition discriminate. }
    rewrite (split_no_sep _ payload Hpay). cbn [nth_error hd].
    destruct (Infographic.atob browser payload) as [byteString|e];
      [|reflexivity].
    rewrite split_at_sep by (vm_compute; intuition discriminate).
    rewrite split_no_sep.
    2:{ rewrite <- app_assoc. apply not_In_app;
          [vm_compute; intuition discriminate|].
        apply not_In_app; [exact Hcolon|].
        vm_compute. intuition discriminate. }
    cbn [nth_error]. rewrite split_at_sep.
    2:{ apply not_In_app; [vm_compute; intuition discriminate | exact Hsemi]. }
    reflexivity.
  - intros Hm. split.
    + destruct Hm as [<-|[<-|[<-|[]]]]; vm_compute; reflexivity.
    + destruct Hm as [<-|[<-|[<-|[]]]]; vm_compute; reflexivity.
Qed.

Lemma dataURItoBlob_of_dataUri_witness :
  Infographic.dataURItoBlob easyBrowser (dataUri (lit "png") (lit "iVBORw0KGgo="))
  = Resolved (Infographic.mkBlob [137; 80; 78]%N (lit "image/png")).
Proof.
  assert (Hnone : forall c, In c [Infographic.COMMA; Infographic.COLON;
                                   Infographic.SEMICOLON] ->
                  ~ In c (lit "png") /\ ~ In c (lit "iVBORw0KGgo=")).
  { intros c [<-|[<-|[<-|[]]]]; split; vm_compute; intuition discriminate. }
  destruct (dataURItoBlob_of_dataUri easyBrowser (lit "png") (lit "iVBORw0KGgo=")
              (proj1 (Hnone _ (or_introl eq_refl)))
              (proj1 (Hnone _ (or_intror (or_introl eq_refl))))
              (proj1 (Hnone _ (or_intror (or_intror (or_introl eq_refl)))))
              (proj2 (Hnone _ (or_introl eq_refl))))
    as (H & _).
  rewrite H. reflexivity.
Defined.

(** X15. A text that is not a data URI gives no Blob. Without a comma,
    [dataURItoBlob] hands [atob] the text "undefined" and throws what
    [atob] throws for it; with a comma but no colon in front of it, the
    mime type cannot be read and a [TypeError] is thrown once the part
    after the comma has been decoded. *)
Theorem dataURItoBlob_needs_a_data_uri
        (browser : Infographic.Browser) (text : jsstring) :
  (~ In Infographic.COMMA text ->
   forall e,
     Infographic.atob browser (lit "undefined") = Rejected e ->
     Infographic.dataURItoBlob browser text = Rejected e)
  /\ (forall header payload byteString,
        text = header ++ Infographic.COMMA :: payload ->
        ~ In Infographic.COMMA header ->
        ~ In Infographic.COLON header ->
        Infographic.atob browser (hd [] (split Infographic.COMMA payload))
          = Resolved byteString ->
        Infographic.dataURItoBlob browser text = Rejected TypeError).
Proof.
  split.
  - intros Hno e He. unfold Infographic.dataURItoBlob.
    rewrite (split_no_sep _ text Hno). cbn [nth_error]. now rewrite He.
  - intros header payload byteString -> Hcomma Hcolon Hatob.
    unfold Infographic.dataURItoBlob. rewrite (split_at_sep _ header payload Hcomma).
    destruct (split_first Infographic.COMMA payload) as (first & others & E & _).
    rewrite E in *. cbn [nth_error hd] in *. rewrite Hatob.
    now rewrite (split_no_sep _ header Hcolon).
Qed.

(** *** Handlers that call out *)







(** X17. [handleCopyImage] never leaves the copy status at 'copying'
    and lets no error out. Either the image was decoded and written to
    the clipboard, the status is 'copied' and a timer is set to put it
    back to 'idle' after 2000 milliseconds; or decoding or writing
    failed, the status is back to 'idle' and the user is alerted. The
    clipboard is written at most once. *)
Theorem copy_status_never_sticks
        (browser : Infographic.Browser) (image : Infographic.GeneratedImage)
        (s : Infographic.State) :
  let run := Infographic.handleCopyImage browser image in
  let after := Infographic.stateAfter (Infographic.steps run) s in
  Infographic.finished run = true
  /\ hd_error (Infographic.steps run)
     = Some (Infographic.Set_ (Infographic.SetCopyStatus Infographic.copying))
  /\ length (List.filter
               (fun x => match x with Infographic.ClipboardWrite _ => true | _ => false end)
               (Infographic.steps run)) <= 1
  /\ ((exists blob,
          Infographic.dataURItoBlob browser (Infographic.data image) = Resolved blob
          /\ Infographic.clipboardWrite browser blob = Resolved tt
          /\ In (Infographic.ClipboardWrite blob) (Infographic.steps run)
          /\ Infographic.copyStatus after = Infographic.copied
          /\ In (Infographic.After 2000 (Infographic.SetCopyStatus Infographic.idle))
                (Infographic.steps run))
      \/ (((exists e, Infographic.dataURItoBlob browser (Infographic.data image)
                      = Rejected e)
           \/ (exists blob e,
                 Infographic.dataURItoBlob browser (Infographic.data image)
                   = Resolved blob
                 /\ Infographic.clipboardWrite browser blob = Rejected e))
          /\ Infographic.copyStatus after = Infographic.idle
          /\ In (Infographic.Alert
                   (lit "Failed to copy image to clipboard. Try using right-click > Copy Image."))
                (Infographic.steps run))).
Proof.
  cbv zeta. unfold Infographic.handleCopyImage.
  cbn [Infographic.steps Infographic.finished hd_error].
  split; [reflexivity|]. split; [reflexivity|].
  destruct (Infographic.dataURItoBlob browser (Infographic.data image))
    as [blob|e].
  - destruct (Infographic.clipboardWrite browser blob) as [[]|e] eqn:Hw.
    + split; [simpl; lia|]. left. exists blob.
      repeat split; simpl; auto 10.
    + split; [simpl; lia|]. right. split; [right; now exists blob, e|].
      split; [reflexivity|]. simpl. auto 10.
  - split; [simpl; lia|]. right. split; [left; now exists e|].
    split; [reflexivity|]. simpl. auto 10.
Qed.

(* ================================================================== *)
(** ** The facts of a reply in the format that is asked for *)
(* ================================================================== *)

Lemma occursFoldedb_false (label text : jsstring) :
  occursFoldedb label text = false -> ~ occursFolded label text.
Proof.
  induction text as [|c text IH]; cbn [occursFoldedb];
    destruct (matchStr true label _) eqn:E; try discriminate;
    intros H (pre & mid & post & Et & Hm).
  - destruct pre as [|x pre]; [|discriminate].
    exact (matchStr_none_here label [] E mid post Et Hm).
  - destruct pre as [|x pre].
    + exact (matchStr_none_here label (c :: text) E mid post Et Hm).
    + injection Et as _ Et. apply (IH H). now exists pre, mid, post.
Qed.

Lemma sameFolded_length (a b : jsstring) : sameFolded a b -> length a = length b.
Proof.
  unfold sameFolded. intros H. apply (f_equal (@length code_unit)) in H.
  now rewrite !length_map in H.
Qed.

Lemma app_same_length {A : Type} (a a' b b' : list A) :
  a ++ b = a' ++ b' -> length a = length a' -> a = a' /\ b = b'.
Proof.
  revert a'. induction a as [|x a IH]; intros [|y a'] E Hl; try discriminate.
  - now split.
  - injection E as -> E. injection Hl as Hl.
    destruct (IH a' E Hl) as [-> ->]. now split.
Qed.

(** There is one first occurrence. *)
Lemma firstOccurrence_unique (label text p m q p' m' q' : jsstring) :
  firstOccurrence label text p m q ->
  firstOccurrence label text p' m' q' ->
  p = p' /\ m = m' /\ q = q'.
Proof.
  intros (E & Hm & Hfirst) (E' & Hm' & Hfirst').
  pose proof (Hfirst p' m' q' E' Hm') as H1.
  pose proof (Hfirst' p m q E Hm) as H2.
  rewrite E in E'.
  destruct (app_same_length p p' _ _ E') as [-> E'']; [lia|].
  split; [reflexivity|].
  apply app_same_length in E''; [exact E''|].
  apply sameFolded_length in Hm, Hm'. congruence.
Qed.

(** An occurrence of [mid] in a text [a ++ c :: b], where [c] is not a
    character of [mid], lies in [a] or in [b]. *)
Lemma prefix_before (c : code_unit) (mid post a b : jsstring) :
  mid ++ post = a ++ c :: b -> ~ In c mid -> exists q, a = mid ++ q.
Proof.
  revert a. induction mid as [|y mid IH]; intros a E Hc; [now exists a|].
  destruct a as [|x a]; simpl in E.
  - injection E as -> _. exfalso. apply Hc. now left.
  - injection E as -> E. destruct (IH a E) as (q & ->).
    + intros H. apply Hc. now right.
    + now exists q.
Qed.

Lemma occurrence_split (c : code_unit) (a b pre mid post : jsstring) :
  a ++ c :: b = pre ++ mid ++ post ->
  ~ In c mid ->
  (exists q, a = pre ++ mid ++ q)
  \/ (exists p, pre = a ++ c :: p /\ b = p ++ mid ++ post).
Proof.
  revert pre. induction a as [|x a IH]; intros pre E Hc.
  - destruct pre as [|y pre]; simpl in E.
    + destruct mid as [|y mid].
      * left. now exists [].
      * injection E as -> _. exfalso. apply Hc. now left.
    + injection E as <- E. right. now exists pre.
  - destruct pre as [|y pre]; simpl in E.
    + left. symmetry in E.
      destruct (prefix_before c mid post (x :: a) b E Hc) as (q & ->).
      now exists q.
    + injection E as <- E.
      destruct (IH pre E Hc) as [(q & ->) | (p & -> & ->)].
      * left. now exists q.
      * right. now exists p.
Qed.

(** No spelling of the IMAGE_PROMPT label has white space or a dash. *)
Lemma prompt_label_chars (mid : jsstring) (c : code_unit) :
  sameFolded mid (lit "IMAGE_PROMPT:") -> In c mid ->
  isSpace c = false /\ c <> 45%N.
Proof.
  intros Hm Hin. apply (in_map canonicalize) in Hin. rewrite Hm in Hin.
  assert (Hc : forall p, canonicalize p = p -> canonicalize c = p ->
                         isSpace p = false -> isSpace (p + 32)%N = false ->
                         p <> 45%N -> (p + 32)%N <> 45%N ->
                         isSpace c = false /\ c <> 45%N).
  { intros p Hp E H1 H2 H3 H4.
    destruct (canonicalize_cases c p Hp E) as [-> | [-> _]]; now split. }
  vm_compute in Hin.
  repeat (destruct Hin as [Hin|Hin];
          [symmetry in Hin; apply (Hc _ eq_refl Hin);
           first [reflexivity | discriminate]|]).
  destruct Hin.
Qed.

(** Where the first IMAGE_PROMPT label of a text is: not in front of a
    stretch [s] of it, when that holds for the text without a first
    piece [f ++ [c]] in which the label does not occur. *)
Lemma label_not_before_step (f : jsstring) (c : code_unit) (s tail : jsstring) :
  ~ occursFolded (lit "IMAGE_PROMPT:") f ->
  (isSpace c = true \/ c = 45%N) ->
  (forall pre mid post,
      s ++ tail = pre ++ mid ++ post ->
      sameFolded mid (lit "IMAGE_PROMPT:") -> length s <= length pre) ->
  forall pre mid post,
    (f ++ c :: s) ++ tail = pre ++ mid ++ post ->
    sameFolded mid (lit "IMAGE_PROMPT:") -> length (f ++ c :: s) <= length pre.
Proof.
  intros Hf Hc HP pre mid post E Hm.
  rewrite <- app_assoc in E. cbn [app] in E.
  destruct (occurrence_split c f (s ++ tail) pre mid post E)
    as [(q & Ef) | (p & -> & Es)].
  - intros Hin. destruct (prompt_label_chars mid c Hm Hin) as [H1 H2].
    destruct Hc; congruence.
  - exfalso. apply Hf. now exists pre, mid, q.
  - pose proof (HP p mid post Es Hm). rewrite !length_app. simpl. lia.
Qed.

Lemma label_not_before_spaces (ws s tail : jsstring) :
  forallb isSpace ws = true ->
  (forall pre mid post,
      s ++ tail = pre ++ mid ++ post ->
      sameFolded mid (lit "IMAGE_PROMPT:") -> length s <= length pre) ->
  forall pre mid post,
    (ws ++ s) ++ tail = pre ++ mid ++ post ->
    sameFolded mid (lit "IMAGE_PROMPT:") -> length (ws ++ s) <= length pre.
Proof.
  induction ws as [|w ws IH]; intros Hws HP; [exact HP|].
  simpl in Hws. apply andb_prop in Hws as [Hw Hws].
  apply (label_not_before_step [] w (ws ++ s) tail).
  - apply not_occursFolded_nil. discriminate.
  - now left.
  - now apply IH.
Qed.

Lemma label_not_before_lines (fs : list jsstring) (s tail : jsstring) :
  (forall f, In f fs -> ~ occursFolded (lit "IMAGE_PROMPT:") f) ->
  (forall pre mid post,
      s ++ tail = pre ++ mid ++ post ->
      sameFolded mid (lit "IMAGE_PROMPT:") -> length s <= length pre) ->
  forall pre mid post,
    (bulletLines fs ++ s) ++ tail = pre ++ mid ++ post ->
    sameFolded mid (lit "IMAGE_PROMPT:") ->
    length (bulletLines fs ++ s) <= length pre.
Proof.
  induction fs as [|f fs IH]; intros Hfs HP; [exact HP|].
  assert (E : bulletLines (f :: fs) ++ s
              = [] ++ 45%N :: ([] ++ 32%N :: (f ++ LF :: (bulletLines fs ++ s)))).
  { cbn [bulletLines flat_map]. fold (bulletLines fs).
    change (lit "- ") with [45%N; 32%N]. rewrite <- !app_assoc. reflexivity. }
  rewrite E.
  apply (label_not_before_step [] 45%N).
  - apply not_occursFolded_nil. discriminate.
  - now right.
  - apply (label_not_before_step [] 32%N).
    + apply not_occursFolded_nil. discriminate.
    + now left.
    + apply (label_not_before_step f LF).
      * apply Hfs. now left.
      * now left.
      * apply IH; [|exact HP]. intros g Hg. apply Hfs. now right.
Qed.

(** The block of a reply in the format: what stands between the two
    labels. *)
Lemma factsRaw_formatted (l1 l2 lead gap rest : jsstring) (fs : list jsstring) :
  sameFolded l1 (lit "FACTS:") ->
  sameFolded l2 (lit "IMAGE_PROMPT:") ->
  forallb isSpace lead = true ->
  forallb isSpace gap = true ->
  (forall f, In f fs -> ~ occursFolded (lit "IMAGE_PROMPT:") f) ->
  factsRaw (l1 ++ lead ++ bulletLines fs ++ gap ++ l2 ++ rest)
  = Resolved (trim (lead ++ bulletLines fs ++ gap)).
Proof.
  intros Hl1 Hl2 Hlead Hgap Hfs.
  set (block := lead ++ bulletLines fs ++ gap).
  set (after := lead ++ bulletLines fs ++ gap ++ l2 ++ rest).
  assert (Hafter : after = block ++ l2 ++ rest).
  { unfold after, block. now rewrite <- !app_assoc. }
  assert (H1 : firstOccurrence (lit "FACTS:") (l1 ++ after) [] l1 after).
  { split; [reflexivity|]. split; [exact Hl1|]. intros. apply Nat.le_0_l. }
  assert (H2 : firstOccurrence (lit "IMAGE_PROMPT:") after block l2 rest).
  { split; [exact Hafter|]. split; [exact Hl2|]. rewrite Hafter.
    unfold block. intros pre mid post.
    apply label_not_before_spaces; [exact Hlead|].
    apply label_not_before_lines; [exact Hfs|].
    pose proof (label_not_before_spaces gap [] (l2 ++ rest) Hgap) as Hg.
    rewrite app_nil_r in Hg. apply Hg. intros. apply Nat.le_0_l. }
  destruct (factsRaw_block (l1 ++ after))
    as [[Hno _] | (before & label & after' & Hf & Hcases)].
  - exfalso. apply Hno. exists [], l1, after. now split.
  - destruct (firstOccurrence_unique _ _ _ _ _ _ _ _ Hf H1) as (-> & -> & ->).
    destruct Hcases as [[Hno _] | (block' & mid & post & Hp & E)].
    + exfalso. apply Hno. exists block, l2, rest. now split.
    + destruct (firstOccurrence_unique _ _ _ _ _ _ _ _ Hp H2) as (-> & _).
      exact E.
Qed.

Lemma trimStart_trim (s : jsstring) : trimStart (trim s) = trim s.
Proof.
  unfold trim, trimEnd.
  destruct (trimStart_split (rev (trimStart s))) as (ws & E & _).
  destruct (rev (trimStart (rev (trimStart s)))) as [|c t] eqn:Hb;
    [reflexivity|].
  apply (f_equal (@rev code_unit)) in E.
  rewrite rev_involutive, rev_app_distr, Hb in E. simpl in E.
  apply trimStart_head in E. simpl. now rewrite E.
Qed.

Lemma trimEnd_trim (s : jsstring) : trimEnd (trim s) = trim s.
Proof. unfold trim, trimEnd. now rewrite rev_involutive, trimStart_idem. Qed.

Lemma forallb_rev {A : Type} (p : A -> bool) (l : list A) :
  forallb p (rev l) = forallb p l.
Proof.
  induction l as [|x l IH]; [reflexivity|]. simpl.
  rewrite forallb_app, IH. simpl. rewrite andb_true_r. apply andb_comm.
Qed.

Lemma trimEnd_spaces_app (s ws : jsstring) :
  forallb isSpace ws = true -> trimEnd (s ++ ws) = trimEnd s.
Proof.
  intros H. unfold trimEnd. rewrite rev_app_distr, trimStart_spaces_app;
    [reflexivity | now rewrite forallb_rev].
Qed.

Lemma trimEnd_app_fixed (a b : jsstring) :
  b <> [] -> trimEnd b = b -> trimEnd (a ++ b) = a ++ b.
Proof.
  unfold trimEnd. intros Hb E. rewrite rev_app_distr.
  apply (f_equal (@rev code_unit)) in E. rewrite rev_involutive in E.
  destruct (rev b) as [|c t] eqn:Hr.
  - apply (f_equal (@rev code_unit)) in Hr. rewrite rev_involutive in Hr.
    now destruct Hb.
  - apply trimStart_head in E as Hc. cbn [app].
    rewrite (trimStart_fixed c (t ++ rev a) Hc).
    change (c :: t ++ rev a) with ((c :: t) ++ rev a).
    now rewrite <- Hr, <- rev_app_distr, rev_involutive.
Qed.

(** The bullet and the blank come off a line of the format. *)
Lemma bullet_replace_line (f : jsstring) :
  f <> [] -> trimStart f = f ->
  replace false bulletRegex [] (lit "- " ++ f) = f.
Proof.
  intros Hf Ht. destruct f as [|c t]; [congruence|].
  apply trimStart_head in Ht as Hc.
  unfold replace, bulletRegex. rewrite exec_Bol.
  change (lit "- " ++ c :: t) with (45%N :: 32%N :: c :: t).
  cbn. rewrite Hc. reflexivity.
Qed.

(** The fact lines of the format without their last line feed: a text
    that neither starts nor ends with white space, and whose lines are
    the facts behind their bullets. *)
Lemma bulletLines_joined (fs : list jsstring) (f : jsstring) :
  (forall g, In g (f :: fs) -> g <> [] /\ trim g = g /\ ~ In LF g) ->
  exists joined,
    bulletLines (f :: fs) = joined ++ [LF]
    /\ joined <> []
    /\ trimStart joined = joined
    /\ trimEnd joined = joined
    /\ split LF joined = List.map (fun g => lit "- " ++ g) (f :: fs).
Proof.
  revert f. induction fs as [|g fs IH]; intros f Hall.
  - destruct (Hall f (or_introl eq_refl)) as (Hne & Htrim & Hlf).
    exists (lit "- " ++ f). cbn [bulletLines flat_map map].
    split; [now rewrite app_nil_r, <- app_assoc|].
    split; [discriminate|]. split; [reflexivity|]. split.
    + apply trimEnd_app_fixed; [exact Hne|].
      rewrite <- Htrim. apply trimEnd_trim.
    + apply split_no_sep. intros [H|[H|H]]; [discriminate.. | now apply Hlf].
  - destruct (Hall f (or_introl eq_refl)) as (Hne & Htrim & Hlf).
    destruct (IH g) as (joined & E & Hj & Hs & He & Hsplit).
    { intros x Hx. apply Hall. now right. }
    exists ((lit "- " ++ f) ++ LF :: joined).
    change (bulletLines (f :: g :: fs))
      with ((lit "- " ++ f ++ [LF]) ++ bulletLines (g :: fs)).
    rewrite E. split; [now rewrite <- !app_assoc|].
    split; [discriminate|]. split; [reflexivity|]. split.
    + replace ((lit "- " ++ f) ++ LF :: joined)
        with (((lit "- " ++ f) ++ [LF]) ++ joined)
        by (now rewrite <- app_assoc).
      now apply trimEnd_app_fixed.
    + rewrite split_at_sep.
      * rewrite Hsplit. reflexivity.
      * intros [H|[H|H]]; [discriminate.. | now apply Hlf].
Qed.

(** The lines that are kept of a block in the format are its facts. *)
Lemma factLines_formatted (lead gap : jsstring) (fs : list jsstring) :
  forallb isSpace lead = true ->
  forallb isSpace gap = true ->
  (forall f, In f fs -> f <> [] /\ trim f = f /\ ~ In LF f) ->
  factLines (trim (lead ++ bulletLines fs ++ gap)) = fs.
Proof.
  intros Hlead Hgap Hall. unfold trim.
  rewrite (trimStart_spaces_app lead _ Hlead).
  destruct fs as [|f fs].
  - cbn [bulletLines flat_map app].
    assert (E : trimStart gap = []).
    { destruct (trimStart_split gap) as (ws & E & _).
      destruct (trimStart gap) as [|c t] eqn:Ht; [reflexivity|].
      apply trimStart_head in Ht.
      rewrite E, forallb_app in Hgap. apply andb_prop in Hgap as [_ Hgap].
      simpl in Hgap. rewrite Ht in Hgap. discriminate. }
    rewrite E. reflexivity.
  - destruct (bulletLines_joined fs f Hall)
      as (joined & E & Hj & Hs & He & Hsplit).
    rewrite E, <- app_assoc.
    assert (Hst : trimStart (joined ++ [LF] ++ gap) = joined ++ [LF] ++ gap).
    { destruct joined as [|c t]; [congruence|].
      apply trimStart_head in Hs as Hc. cbn [app]. now apply trimStart_fixed. }
    rewrite Hst, trimEnd_spaces_app, He
      by (cbn [app forallb]; now rewrite Hgap).
    unfold factLines. rewrite Hsplit, map_map.
    clear E Hj Hs He Hsplit Hst.
    revert Hall. generalize (f :: fs). clear. intros l Hall.
    induction l as [|g l IH]; [reflexivity|].
    destruct (Hall g (or_introl eq_refl)) as (Hne & Htrim & _).
    cbn [map filter].
    rewrite bullet_replace_line, Htrim;
      [|exact Hne | rewrite <- Htrim; apply trimStart_trim].
    destruct g as [|c t]; [congruence|].
    change (0 <? length (c :: t)) with true. cbv iota. f_equal.
    apply IH. intros x Hx. apply Hall. now right.
Qed.

(** A reply in the format is read back: its facts are the first five of
    the facts it lists. *)
Lemma factsOf_formatted (l1 l2 lead gap rest : jsstring) (fs : list jsstring) :
  sameFolded l1 (lit "FACTS:") ->
  sameFolded l2 (lit "IMAGE_PROMPT:") ->
  forallb isSpace lead = true ->
  forallb isSpace gap = true ->
  (forall f, In f fs ->
             f <> [] /\ trim f = f /\ ~ In LF f
             /\ ~ occursFolded (lit "IMAGE_PROMPT:") f) ->
  factsRaw (l1 ++ lead ++ bulletLines fs ++ gap ++ l2 ++ rest)
  = Resolved (trim (lead ++ bulletLines fs ++ gap))
  /\ factLines (trim (lead ++ bulletLines fs ++ gap)) = fs.
Proof.
  intros Hl1 Hl2 Hlead Hgap Hall. split.
  - apply factsRaw_formatted; try assumption.
    intros f Hf. now apply Hall.
  - apply factLines_formatted; try assumption.
    intros f Hf. destruct (Hall f Hf) as (H1 & H2 & H3 & _). auto.
Qed.

(** *** The lines of a block *)

Lemma split_joinLines (lines : list jsstring) :
  lines <> [] ->
  (forall l, In l lines -> ~ In LF l) ->
  split LF (joinLines lines) = lines.
Proof.
  induction lines as [|l ls IH]; [congruence|]. intros _ Hall.
  destruct ls as [|l' ls].
  - apply split_no_sep, Hall. now left.
  - change (joinLines (l :: l' :: ls)) with (l ++ LF :: joinLines (l' :: ls)).
    rewrite split_at_sep by (apply Hall; now left).
    rewrite IH; [reflexivity | discriminate|].
    intros x Hx. apply Hall. now right.
Qed.

(** What [replace(/^-\s*/, '')] does to a line: a dash at its start
    goes, with the white space behind it. *)
Lemma bullet_replace (line : jsstring) :
  replace false bulletRegex [] line
  = match line with
    | 45%N :: line' => trimStart line'
    | _ => line
    end.
Proof.
  unfold replace, bulletRegex. rewrite exec_Bol.
  change (lit "-") with [45%N].
  destruct line as [|c r]; [reflexivity|].
  cbn [m matchStr rest pos cap sameChar].
  destruct (N.eqb_spec 45 c) as [<-|Hne].
  - erewrite starGreedy_spaces; [|reflexivity].
    cbn [index matched pos cap app firstn].
    destruct (trimStart_split r) as (ws & E & _).
    apply (f_equal (@length code_unit)) in E as El. rewrite length_app in El.
    assert (Hs : skipn (length ws) r = trimStart r).
    { transitivity (skipn (length ws) (ws ++ trimStart r)); [now rewrite <- E|].
      now rewrite skipn_app, skipn_all, Nat.sub_diag. }
    rewrite length_firstn, Nat.min_l by (simpl; lia).
    assert (Hn : forall n, n = S (length ws) -> skipn n (45%N :: r) = trimStart r)
      by (intros n ->; exact Hs).
    apply Hn. simpl. lia.
  - destruct c as [|p]; [reflexivity|].
    do 6 (destruct p as [p|p|]; try reflexivity). now destruct Hne.
Qed.

Lemma clean_line (line : jsstring) :
  trim (replace false bulletRegex [] line) = trim (stripBullet line).
Proof.
  rewrite bullet_replace. unfold stripBullet.
  destruct line as [|c r]; [reflexivity|].
  destruct c as [|p]; [reflexivity|].
  do 6 (destruct p as [p|p|]; try reflexivity). apply trim_trimStart.
Qed.

(** The facts among joined lines are the facts among the lines. *)
Lemma factLines_joinLines (lines : list jsstring) :
  (forall l, In l lines -> ~ In LF l) ->
  factLines (joinLines lines) = factsAmong lines.
Proof.
  intros Hall. unfold factLines, factsAmong.
  destruct lines as [|l ls]; [reflexivity|].
  rewrite split_joinLines by (first [discriminate | exact Hall]).
  generalize (l :: ls). clear. intros lines.
  induction lines as [|l lines IH]; [reflexivity|].
  cbn [map filter]. rewrite clean_line, IH.
  now destruct (trim (stripBullet l)).
Qed.

Lemma forallb_not_In (c : code_unit) (s : jsstring) :
  forallb (fun x => negb (x =? c)%N) s = true -> ~ In c s.
Proof.
  intros H Hin. rewrite forallb_forall in H. specialize (H c Hin).
  now rewrite N.eqb_refl in H.
Qed.

(** C6. Whenever the text request is answered, the [facts] of the result
    are at most five and none of them is empty. They are read from the
    FACTS block, that is the text after the first FACTS label up to the
    first IMAGE_PROMPT label behind it, trimmed: whatever the lines of
    that block are, the facts of the result are the first five of the
    facts among them, in the order of the lines, the bullet marker
    stripped, the line trimmed, blank lines dropped; exactly five when
    there are more. In particular, for a reply in the format that is
    asked for, that is the FACTS label, the facts on a line each behind a
    dash and a blank, and the IMAGE_PROMPT label, the labels in any
    spelling and with any white space around the fact lines, the facts
    of the result are the first five of the facts that the reply lists,
    in the order in which it lists them. *)
Theorem facts_at_most_five_nonempty
        (env : Env) (topic level style language : jsstring)
        (log : list Event) (response : GenerateContentResponse.t) :
  let levelInstr := getLevelInstruction level in
  let styleInstr := getStyleInstruction style in
  let request := researchRequest topic levelInstr styleInstr language in
  generateContent env log request = Resolved response ->
  exists result raw,
    researchTopicForPrompt env topic level style language log
      = Returned result (log ++ [GenerateContentCall request])
    /\ factsRaw (textOf response) = Resolved raw
    /\ facts result = firstn 5 (factLines raw)
    /\ length (facts result) = Nat.min 5 (length (factLines raw))
    /\ length (facts result) <= 5
    /\ ~ In [] (facts result)
    /\ ((~ occursFolded (lit "FACTS:") (textOf response) /\ raw = [])
        \/ (exists before label after,
              firstOccurrence (lit "FACTS:") (textOf response) before label after
              /\ ((~ occursFolded (lit "IMAGE_PROMPT:") after
                   /\ raw = trim after)
                  \/ (exists block mid post,
                        firstOccurrence (lit "IMAGE_PROMPT:") after block mid post
                        /\ raw = trim block))))
    /\ (forall lines : list jsstring,
          (forall l, In l lines -> ~ In LF l) ->
          raw = joinLines lines ->
          facts result = firstn 5 (factsAmong lines)
          /\ (5 < length (factsAmong lines) -> length (facts result) = 5))
    /\ (forall (l1 l2 lead gap rest : jsstring) (fs : list jsstring),
          sameFolded l1 (lit "FACTS:") ->
          sameFolded l2 (lit "IMAGE_PROMPT:") ->
          forallb isSpace lead = true ->
          forallb isSpace gap = true ->
          (forall f, In f fs ->
                     f <> [] /\ trim f = f /\ ~ In LF f
                     /\ ~ occursFolded (lit "IMAGE_PROMPT:") f) ->
          textOf response = l1 ++ lead ++ bulletLines fs ++ gap ++ l2 ++ rest ->
          factLines raw = fs
          /\ facts result = firstn 5 fs
          /\ (length fs <= 5 -> facts result = fs)
          /\ (5 < length fs -> length (facts result) = 5)).
Proof.
  intros levelInstr styleInstr request Hreply.
  destruct (research_returned env topic level style language log response Hreply)
    as (raw & prompt & Hraw & Hprompt & Hrun).
  eexists. exists raw. split; [exact Hrun|]. cbn [facts].
  split; [exact Hraw|]. split; [reflexivity|].
  split; [apply length_firstn|]. split; [|split; [|split; [|split]]].
  - rewrite length_firstn. apply Nat.le_min_l.
  - intros H. apply In_firstn in H. unfold factLines in H.
    apply filter_In in H as [_ H]. discriminate.
  - destruct (factsRaw_block (textOf response))
      as [[Hno H] | (before & label & after & Hf
                     & [[Hno H] | (block & mid & post & Hp & H)])];
      rewrite H in Hraw; injection Hraw as <-.
    + now left.
    + right. exists before, label, after. split; [exact Hf|]. now left.
    + right. exists before, label, after. split; [exact Hf|].
      right. now exists block, mid, post.
  - intros lines Hlines ->. rewrite (factLines_joinLines lines Hlines).
    split; [reflexivity|]. intros Hlt. rewrite length_firstn. lia.
  - intros l1 l2 lead gap rest fs Hl1 Hl2 Hlead Hgap Hall Htext.
    destruct (factsOf_formatted l1 l2 lead gap rest fs Hl1 Hl2 Hlead Hgap Hall)
      as (Hblock & Hlines).
    rewrite <- Htext, Hraw in Hblock. injection Hblock as ->.
    rewrite Hlines. split; [reflexivity|]. split; [reflexivity|]. split.
    + intros Hle. now apply firstn_all2.
    + intros Hlt. rewrite length_firstn. lia.
Qed.

Lemma facts_at_most_five_nonempty_witness :
  exists result,
    researchTopicForPrompt (replying (textReply sixFactsReply)) (lit "Solar power")
      (lit "Investor") (lit "Broadcast") (lit "English") []
      = Returned result
          [GenerateContentCall
             (researchRequest (lit "Solar power")
                (getLevelInstruction (lit "Investor"))
                (getStyleInstruction (lit "Broadcast")) (lit "English"))]
    /\ length (facts result) <= 5
    /\ ~ In [] (facts result)
    /\ facts result = firstn 5 sixFacts
    /\ length (facts result) = 5.
Proof.
  destruct (facts_at_most_five_nonempty (replying (textReply sixFactsReply))
              (lit "Solar power") (lit "Investor") (lit "Broadcast")
              (lit "English") [] (textReply sixFactsReply) eq_refl)
    as (result & raw & Hrun & _ & _ & _ & Hlen & Hne & _ & _ & Hformat).
  destruct (Hformat (lit "facts:") (lit "Image_Prompt:") [LF] [LF]
              ([LF] ++ lit "A solar farm at dawn") sixFacts)
    as (_ & Hfirst & _ & Hfive);
    try reflexivity.
  { intros f [<-|[<-|[<-|[<-|[<-|[<-|[]]]]]]];
      (split; [discriminate|]); (split; [reflexivity|]);
      (split; [apply forallb_not_In; reflexivity|]);
      apply occursFoldedb_false; reflexivity. }
  exists result. split; [exact Hrun|]. split; [exact Hlen|].
  split; [exact Hne|]. split; [exact Hfirst|]. apply Hfive. simpl. lia.
Defined.
